(** * Traversome: heuristic path generator over graph alignments

    A shallow embedding of [traversome/GraphAlignRecords.py] and
    [traversome/PathGeneratorGraphAlignment.py].

    Conventions of the embedding.
    - A Python [str] is a [string] of code points below 256; a path is a list
      of [(name, end)] pairs, exactly as the tuples/lists of the source.
    - Python [dict]s are [gmap]s, [set]s are [gset]s; a set that the source
      iterates is turned into a list by [sorted] wherever the source sorts it.
    - Floating-point numbers are exact rationals [Q]; the transcendental
      functions the source imports ([exp], [log], [norm.logpdf], the square
      root, [harmony_weights]) are fields of the class [Numerics].  Rounding
      and the IEEE values inf/nan are outside the model.
    - [self.graph] (class [Assembly], not part of these sources) is the class
      [Assembly]: the vertex table plus the path helpers the generator calls.
    - [self.__random] is the class [RandomObj].
    - Methods of [PathGeneratorGraphAlignment] run in the monad [M]: state
      [Self] (the mutable attributes of [self]), Python exceptions, and a
      [Timeout] outcome for loops and recursion that ran out of fuel. *)

From Stdlib Require Import QArith Qabs Qround ZArith Ascii String List Lia Lqa.
From stdpp Require Import base option list gmap strings sorting.
Import ListNotations.

#[local] Open Scope nat_scope.

(** ** GraphAlignRecords.py *)

Module GAFRecord.
#[local] Open Scope string_scope.

(** [\s] of Python's [re] on [str] patterns, for code points below 256:
    TAB..CR, FS..US, space, NEL and NBSP. *)
Definition is_space (c : ascii) : bool :=
  let n := nat_of_ascii c in
  (((9 <=? n) && (n <=? 13)) || ((28 <=? n) && (n <=? 32))
   || (n =? 133) || (n =? 160))%nat.

(** [.] without DOTALL: anything but a line feed. *)
Definition re_dot (c : ascii) : bool := negb (Ascii.eqb c "010"%char).

(** The character class [[^\s><]]. *)
Definition re_body (c : ascii) : bool :=
  negb (is_space c || Ascii.eqb c ">"%char || Ascii.eqb c "<"%char).

(** [re.findall(r".[^\s><]*", s)]: scan left to right; a match starts at the
    first character accepted by [.] and greedily takes the following
    characters of the class; the scan resumes right after the match.
    [cur] is the match in progress, if any. *)
Fixpoint findall_from (cur : option string) (s : string) : list string :=
  match s with
  | EmptyString =>
      match cur with Some tok => [tok] | None => [] end
  | String c rest =>
      match cur with
      | Some tok =>
          if re_body c then findall_from (Some (tok ++ String c EmptyString)) rest
          else if re_dot c then tok :: findall_from (Some (String c EmptyString)) rest
          else tok :: findall_from None rest
      | None =>
          if re_dot c then findall_from (Some (String c EmptyString)) rest
          else findall_from None rest
      end
  end.

Definition re_findall (s : string) : list string := findall_from None s.

(** [s.split(":")[0]]: the part of [s] before its first colon. *)
Fixpoint split_colon_0 (s : string) : string :=
  match s with
  | EmptyString => EmptyString
  | String c rest =>
      if Ascii.eqb c ":"%char then EmptyString else String c (split_colon_0 rest)
  end.

(** The body of the [for] loop of [parse_gaf_path]. *)
Definition parse_segment (segment : string) : string * bool :=
  match segment with
  | String c rest =>
      if Ascii.eqb c ">"%char then (split_colon_0 rest, true)
      else if Ascii.eqb c "<"%char then (split_colon_0 rest, false)
      else (split_colon_0 segment, true)
  | EmptyString => (EmptyString, true) (* unreachable: matches are non-empty *)
  end.

Definition parse_gaf_path (path_str : string) : list (string * bool) :=
  map parse_segment (re_findall path_str).

(** The reading of a token, in the words of the specification: [name] is
    [s] with any [:]-separated coordinate suffix stripped. *)
Definition stripped (s name : string) : Prop :=
  (forall c, In c (list_ascii_of_string name) -> c <> ":"%char)
  /\ (s = name \/ exists coords, s = name ++ String ":"%char coords).

(** The orientation rule for one token. *)
Definition token_rule (segment : string) (o : string * bool) : Prop :=
  (exists rest, segment = String ">"%char rest /\ stripped rest (fst o) /\ snd o = true)
  \/ (exists rest, segment = String "<"%char rest /\ stripped rest (fst o) /\ snd o = false)
  \/ ((forall rest, segment <> String ">"%char rest)
      /\ (forall rest, segment <> String "<"%char rest)
      /\ stripped segment (fst o) /\ snd o = true).

(** A token as a GAF writer emits it: [>] or [<], then a segment name
    (and coordinates) free of blanks and of the two markers. *)
Definition gaf_token (t : string) : Prop :=
  exists c body, t = String c body
    /\ (c = ">"%char \/ c = "<"%char)
    /\ forall x, In x (list_ascii_of_string body) -> re_body x = true.

(** The tokens written one after the other. *)
Fixpoint concat_tokens (tokens : list string) : string :=
  match tokens with
  | [] => ""
  | t :: ts => t ++ concat_tokens ts
  end.

End GAFRecord.

(** ** Data model of PathGeneratorGraphAlignment.py *)

(** An oriented vertex [(v_name, v_end)] and a path, as the source's tuples. *)
Abbreviation oseg := (string * bool)%type (only parsing).
Abbreviation path := (list (string * bool)) (only parsing).

(** One entry of [graph.vertex_info]: the attributes the generator reads.
    [connections e] lists the [(name, end)] pairs attached to end [e], in the
    iteration order of the source's set. *)
Record Vertex := {
  len : nat;
  cov : Q;
  connections : bool -> list (string * bool)
}.

(** [self.graph]: the vertex table (an insertion-ordered dict) and the path
    helpers of class [Assembly] that the generator calls. *)
Class Assembly := {
  vertex_info : list (string * Vertex);
  get_standardized_path : path -> path;
  contain_path : path -> bool;
  reverse_path : path -> path;
  roll_path : path -> path;
  get_standardized_circular_path : path -> path;
  is_circular_path : path -> bool;
  is_fully_covered_by : path -> bool;
  get_path_length : path -> Z;
  get_path_internal_length : path -> Z
}.

(** [self.__random]: each method takes and returns the generator's state.
    [rng_choice n] is the index drawn by [choice(seq)] with [len(seq) = n];
    [rng_choices n weights k] are the indices drawn by
    [choices(population, weights=weights, k=k)] with [len(population) = n]. *)
Class RandomObj := {
  rng : Type;
  rng_random : rng -> Q * rng;
  rng_randint : Z -> Z -> rng -> Z * rng;
  rng_choice : nat -> rng -> nat * rng;
  rng_choices : nat -> list Q -> nat -> rng -> list nat * rng
}.

(** Imported numeric functions: [numpy.exp], [numpy.log], [x ** 0.5],
    [scipy.stats.norm.logpdf x loc scale], [traversome.utils.harmony_weights]. *)
Class Numerics := {
  np_exp : Q -> Q;
  np_log : Q -> Q;
  np_sqrt : Q -> Q;
  norm_logpdf : Q -> Q -> Q -> Q;
  harmony_weights : list Q -> Q -> list Q
}.

(** A record of [self.alignment]: the two attributes the generator reads. *)
Record AlignRecord := {
  gaf_path : list (string * bool);
  p_align_len : Z
}.

(** The constructor arguments kept on [self] and never reassigned. *)
Class Config := {
  alignment : list AlignRecord;
  num_search : nat;
  num_processes : nat;
  force_circular : bool;
  hetero_chromosome : bool;
  differ_f : Q;
  decay_f : Q;
  decay_t : nat;
  cov_inert : Q;
  use_alignment_cov : bool
}.

(** Python exceptions the modelled code can raise. [VertexNotFound] is the
    [Exception] of [__check_path]. *)
Inductive exn :=
| AssertionError | IndexError | KeyError | ZeroDivisionError | TypeError
| ValueError | VertexNotFound (v_name : string).

(** [logger.error] records. *)
Inductive LogRecord :=
| CannotExclude (exclude_path this_path : list (string * bool)) (del_n : string)
| InvalidPath (this_path : list (string * bool)).

Section Generator.
Context {G : Assembly} {R : RandomObj} {N : Numerics} {C : Config}.

(** The attributes of [self] that are assigned after [__init__], the state
    of [self.__random], and the error log. *)
Record Self := {
  local_max_alignment_len : option Z;
  read_paths : list (list (string * bool));
  read_paths_counter : gmap (list (string * bool)) nat;
  starting_subpath_to_readpaths : gmap (list (string * bool)) (gset (nat * bool));
  middle_subpath_to_readpaths : gmap (list (string * bool)) (gset (nat * bool));
  read_paths_counter_indexed : bool;
  contig_coverages : gmap string Q;
  components : list (list (string * bool));
  components_counts : gmap (list (string * bool)) nat;
  random : rng;
  error_log : list LogRecord
}.

(** The state right after [__init__]. *)
Definition init_self (r : rng) : Self :=
  {| local_max_alignment_len := None; read_paths := [];
     read_paths_counter := ∅; starting_subpath_to_readpaths := ∅;
     middle_subpath_to_readpaths := ∅; read_paths_counter_indexed := false;
     contig_coverages := ∅; components := []; components_counts := ∅;
     random := r; error_log := [] |}.

Definition set_local_max_alignment_len (x : option Z) (s : Self) : Self :=
  {| local_max_alignment_len := x; read_paths := read_paths s;
     read_paths_counter := read_paths_counter s;
     starting_subpath_to_readpaths := starting_subpath_to_readpaths s;
     middle_subpath_to_readpaths := middle_subpath_to_readpaths s;
     read_paths_counter_indexed := read_paths_counter_indexed s;
     contig_coverages := contig_coverages s; components := components s;
     components_counts := components_counts s; random := random s;
     error_log := error_log s |}.

Definition set_read_paths (x : list (list (string * bool))) (s : Self) : Self :=
  {| local_max_alignment_len := local_max_alignment_len s; read_paths := x;
     read_paths_counter := read_paths_counter s;
     starting_subpath_to_readpaths := starting_subpath_to_readpaths s;
     middle_subpath_to_readpaths := middle_subpath_to_readpaths s;
     read_paths_counter_indexed := read_paths_counter_indexed s;
     contig_coverages := contig_coverages s; components := components s;
     components_counts := components_counts s; random := random s;
     error_log := error_log s |}.

Definition set_read_paths_counter (x : gmap (list (string * bool)) nat) (s : Self) : Self :=
  {| local_max_alignment_len := local_max_alignment_len s; read_paths := read_paths s;
     read_paths_counter := x;
     starting_subpath_to_readpaths := starting_subpath_to_readpaths s;
     middle_subpath_to_readpaths := middle_subpath_to_readpaths s;
     read_paths_counter_indexed := read_paths_counter_indexed s;
     contig_coverages := contig_coverages s; components := components s;
     components_counts := components_counts s; random := random s;
     error_log := error_log s |}.

Definition set_starting_subpath_to_readpaths
    (x : gmap (list (string * bool)) (gset (nat * bool))) (s : Self) : Self :=
  {| local_max_alignment_len := local_max_alignment_len s; read_paths := read_paths s;
     read_paths_counter := read_paths_counter s;
     starting_subpath_to_readpaths := x;
     middle_subpath_to_readpaths := middle_subpath_to_readpaths s;
     read_paths_counter_indexed := read_paths_counter_indexed s;
     contig_coverages := contig_coverages s; components := components s;
     components_counts := components_counts s; random := random s;
     error_log := error_log s |}.

Definition set_middle_subpath_to_readpaths
    (x : gmap (list (string * bool)) (gset (nat * bool))) (s : Self) : Self :=
  {| local_max_alignment_len := local_max_alignment_len s; read_paths := read_paths s;
     read_paths_counter := read_paths_counter s;
     starting_subpath_to_readpaths := starting_subpath_to_readpaths s;
     middle_subpath_to_readpaths := x;
     read_paths_counter_indexed := read_paths_counter_indexed s;
     contig_coverages := contig_coverages s; components := components s;
     components_counts := components_counts s; random := random s;
     error_log := error_log s |}.

Definition set_read_paths_counter_indexed (x : bool) (s : Self) : Self :=
  {| local_max_alignment_len := local_max_alignment_len s; read_paths := read_paths s;
     read_paths_counter := read_paths_counter s;
     starting_subpath_to_readpaths := starting_subpath_to_readpaths s;
     middle_subpath_to_readpaths := middle_subpath_to_readpaths s;
     read_paths_counter_indexed := x;
     contig_coverages := contig_coverages s; components := components s;
     components_counts := components_counts s; random := random s;
     error_log := error_log s |}.

Definition set_contig_coverages (x : gmap string Q) (s : Self) : Self :=
  {| local_max_alignment_len := local_max_alignment_len s; read_paths := read_paths s;
     read_paths_counter := read_paths_counter s;
     starting_subpath_to_readpaths := starting_subpath_to_readpaths s;
     middle_subpath_to_readpaths := middle_subpath_to_readpaths s;
     read_paths_counter_indexed := read_paths_counter_indexed s;
     contig_coverages := x; components := components s;
     components_counts := components_counts s; random := random s;
     error_log := error_log s |}.

Definition set_components (x : list (list (string * bool))) (s : Self) : Self :=
  {| local_max_alignment_len := local_max_alignment_len s; read_paths := read_paths s;
     read_paths_counter := read_paths_counter s;
     starting_subpath_to_readpaths := starting_subpath_to_readpaths s;
     middle_subpath_to_readpaths := middle_subpath_to_readpaths s;
     read_paths_counter_indexed := read_paths_counter_indexed s;
     contig_coverages := contig_coverages s; components := x;
     components_counts := components_counts s; random := random s;
     error_log := error_log s |}.

Definition set_components_counts (x : gmap (list (string * bool)) nat) (s : Self) : Self :=
  {| local_max_alignment_len := local_max_alignment_len s; read_paths := read_paths s;
     read_paths_counter := read_paths_counter s;
     starting_subpath_to_readpaths := starting_subpath_to_readpaths s;
     middle_subpath_to_readpaths := middle_subpath_to_readpaths s;
     read_paths_counter_indexed := read_paths_counter_indexed s;
     contig_coverages := contig_coverages s; components := components s;
     components_counts := x; random := random s;
     error_log := error_log s |}.

Definition set_random (x : rng) (s : Self) : Self :=
  {| local_max_alignment_len := local_max_alignment_len s; read_paths := read_paths s;
     read_paths_counter := read_paths_counter s;
     starting_subpath_to_readpaths := starting_subpath_to_readpaths s;
     middle_subpath_to_readpaths := middle_subpath_to_readpaths s;
     read_paths_counter_indexed := read_paths_counter_indexed s;
     contig_coverages := contig_coverages s; components := components s;
     components_counts := components_counts s; random := x;
     error_log := error_log s |}.

Definition set_error_log (x : list LogRecord) (s : Self) : Self :=
  {| local_max_alignment_len := local_max_alignment_len s; read_paths := read_paths s;
     read_paths_counter := read_paths_counter s;
     starting_subpath_to_readpaths := starting_subpath_to_readpaths s;
     middle_subpath_to_readpaths := middle_subpath_to_readpaths s;
     read_paths_counter_indexed := read_paths_counter_indexed s;
     contig_coverages := contig_coverages s; components := components s;
     components_counts := components_counts s; random := random s;
     error_log := x |}.

(** *** The method monad *)

Inductive outcome (A : Type) :=
| Ok (a : A)
| Raise (e : exn)
| Timeout.
#[global] Arguments Ok {A} a.
#[global] Arguments Raise {A} e.
#[global] Arguments Timeout {A}.

Definition M (A : Type) : Type := Self -> outcome A * Self.

#[global] Instance M_ret : MRet M := fun A a s => (Ok a, s).
#[global] Instance M_bind : MBind M := fun A B f m s =>
  match m s with
  | (Ok a, s') => f a s'
  | (Raise e, s') => (Raise e, s')
  | (Timeout, s') => (Timeout, s')
  end.

#[global] Instance M_fmap : FMap M := fun A B f m => a ← m; mret (f a).

Definition raise {A} (e : exn) : M A := fun s => (Raise e, s).
Definition timeout {A} : M A := fun s => (Timeout, s).
Definition gets {A} (f : Self -> A) : M A := fun s => (Ok (f s), s).
Definition modify (f : Self -> Self) : M unit := fun s => (Ok tt, f s).

(** A lookup that raises [e] when it fails. *)
Definition lift_opt {A} (e : exn) (o : option A) : M A :=
  match o with Some a => mret a | None => raise e end.

(** A call of a method of [self.__random]. *)
Definition with_random {A} (f : rng -> A * rng) : M A := fun s =>
  let '(a, r) := f (random s) in (Ok a, set_random r s).

Definition logger_error (r : LogRecord) : M unit :=
  modify (fun s => set_error_log (error_log s ++ [r]) s).

(** A [for] loop that threads an accumulator. *)
Fixpoint foldM {A B} (f : B -> A -> M B) (b : B) (l : list A) : M B :=
  match l with
  | [] => mret b
  | a :: l' => b' ← f b a; foldM f b' l'
  end.

(** A [for] loop run for its effects. *)
Fixpoint forM_ {A} (f : A -> M unit) (l : list A) : M unit :=
  match l with
  | [] => mret tt
  | a :: l' => f a;; forM_ f l'
  end.

(** A list comprehension whose items may raise. *)
Fixpoint mapM {A B} (f : A -> M B) (l : list A) : M (list B) :=
  match l with
  | [] => mret []
  | a :: l' => b ← f a; bs ← mapM f l'; mret (b :: bs)
  end.

(** *** Small Python idioms *)

(** [x > y] on floats. *)
Definition Qgt_bool (x y : Q) : bool := negb (Qle_bool x y).

(** Truth value of an optional float: [None] and [0.0] are false. *)
Definition truthy (x : option Q) : bool :=
  match x with Some q => negb (Qeq_bool q 0) | None => false end.

Definition of_nat (n : nat) : Q := inject_Z (Z.of_nat n).

Definition Qsum (l : list Q) : Q := foldr Qplus 0%Q l.

(** [max(l)] of a list of floats; [ValueError] on the empty list. *)
Definition Qmax_list (l : list Q) : option Q :=
  match l with
  | [] => None
  | x :: l' => Some (foldl (fun m y => if Qgt_bool y m then y else m) x l')
  end.

(** [l[:z]] for a possibly negative bound [z]. *)
Definition py_prefix {A} (z : Z) (l : list A) : list A :=
  if (z <? 0)%Z then take (length l - Z.to_nat (- z)) l else take (Z.to_nat z) l.

(** [sorted] on [(read_id, strand)] tuples and on [(name, end)] tuples:
    lexicographic, [False < True]. *)
Definition cand_le (a b : nat * bool) : Prop :=
  a.1 < b.1 ∨ (a.1 = b.1 ∧ (a.2 = true → b.2 = true)).
Definition oseg_le (a b : string * bool) : Prop :=
  String.ltb a.1 b.1 = true ∨ (a.1 = b.1 ∧ (a.2 = true → b.2 = true)).
#[global] Instance cand_le_dec a b : Decision (cand_le a b).
Proof. unfold cand_le. apply _. Defined.
#[global] Instance oseg_le_dec a b : Decision (oseg_le a b).
Proof. unfold oseg_le. apply _. Defined.

Definition sorted_candidates (st : gset (nat * bool)) : list (nat * bool) :=
  merge_sort cand_le (elements st).
Definition sorted_connections (l : list (string * bool)) : list (string * bool) :=
  merge_sort oseg_le l.

(** [{v_n: names.count(v_n) for v_n in set(names)}]. *)
Definition dict_counts (names : list string) : gmap string nat :=
  list_to_map ((fun v_n => (v_n, count_occ string_dec names v_n)) <$> names).

(** [self.graph.vertex_info[v_name]]. *)
Definition vertex_lookup (v_name : string) : option Vertex :=
  snd <$> find (fun kv => String.eqb kv.1 v_name) vertex_info.

(** [numpy.average(a, weights=weights)]; [None] is numpy's
    [ZeroDivisionError] for weights that sum to zero. *)
Definition np_average (a weights : list Q) : option Q :=
  let scl := Qsum weights in
  if Qeq_bool scl 0 then None
  else Some (Qred (Qsum (zip_with Qmult a weights) / scl)).

(** *** Indexing the read paths (lines 139-184, 811-834) *)

Definition index_start_subpath (subpath : path) (read_id : nat) (strand : bool) : M unit :=
  modify (fun s =>
    let d := starting_subpath_to_readpaths s in
    set_starting_subpath_to_readpaths
      match d !! subpath with
      | Some st => <[subpath := st ∪ {[(read_id, strand)]}]> d
      | None => <[subpath := {[(read_id, strand)]}]> d
      end s).

Definition index_middle_subpath (subpath : path) (read_id : nat) (strand : bool) : M unit :=
  modify (fun s =>
    let d := middle_subpath_to_readpaths s in
    set_middle_subpath_to_readpaths
      match d !! subpath with
      | Some st => <[subpath := st ∪ {[(read_id, strand)]}]> d
      | None => <[subpath := {[(read_id, strand)]}]> d
      end s).

(** The calls of the two indexing methods, in program order. *)
Inductive index_call :=
| IndexStart (subpath : list (string * bool)) (read_id : nat) (strand : bool)
| IndexMiddle (subpath : list (string * bool)) (read_id : nat) (strand : bool).

Definition run_index_call (c : index_call) : M unit :=
  match c with
  | IndexStart sp i b => index_start_subpath sp i b
  | IndexMiddle sp i b => index_middle_subpath sp i b
  end.

(** The calls issued for one read by the body of
    [for read_id, this_read_path in enumerate(self.read_paths)]:
    [range(1, n)] is [seq 1 (n - 1)], [t[:k]] is [take k t] and
    [t[go:go + k]] is [take k (drop go t)].  [start_calls] are the two calls
    that open a round of the outer loop, [middle_calls] those of its inner
    loop. *)
Definition start_calls (read_id : nat) (forward_read_path_tuple
    reverse_read_path_tuple : path) (sub_contig_num : nat) : list index_call :=
  [IndexStart (take sub_contig_num forward_read_path_tuple) read_id true;
   IndexStart (take sub_contig_num reverse_read_path_tuple) read_id false].

Definition middle_calls (read_id : nat) (forward_read_path_tuple
    reverse_read_path_tuple : path) (read_contig_num sub_contig_num : nat)
    : list index_call :=
  flat_map (fun go_sub =>
    [IndexMiddle (take sub_contig_num (drop go_sub forward_read_path_tuple)) read_id true;
     IndexMiddle (take sub_contig_num (drop go_sub reverse_read_path_tuple)) read_id false])
    (seq 1 (read_contig_num - sub_contig_num - 1)).

Definition read_index_calls (read_id : nat) (this_read_path : path) : list index_call :=
  let read_contig_num := length this_read_path in
  let forward_read_path_tuple := this_read_path in
  let reverse_read_path_tuple := reverse_path this_read_path in
  flat_map (fun sub_contig_num =>
    start_calls read_id forward_read_path_tuple reverse_read_path_tuple sub_contig_num
    ++ middle_calls read_id forward_read_path_tuple reverse_read_path_tuple
         read_contig_num sub_contig_num)
    (seq 1 (read_contig_num - 1)).



(** The body shared by the two branches of the first loop: count the
    standardized path, appending it to [read_paths] when it is new. *)
Definition count_read_path (this_read_path : path) : M unit :=
  counter ← gets read_paths_counter;
  match counter !! this_read_path with
  | Some c => modify (set_read_paths_counter (<[this_read_path := c + 1]> counter))
  | None =>
      modify (set_read_paths_counter (<[this_read_path := 1]> counter));;
      modify (fun s => set_read_paths (read_paths s ++ [this_read_path]) s)
  end.

(** The first loop: returns [alignment_lengths]. *)
Definition summarize_alignment (filter_by_graph : bool) : M (list Z) :=
  foldM (fun alignment_lengths gaf_record =>
    let this_read_path := get_standardized_path (gaf_path gaf_record) in
    if filter_by_graph then
      if contain_path this_read_path then
        count_read_path this_read_path;;
        mret (alignment_lengths ++ [p_align_len gaf_record])
      else mret alignment_lengths
    else
      count_read_path this_read_path;;
      mret (alignment_lengths ++ [p_align_len gaf_record]))
    [] alignment.

Definition index_readpaths_subpaths (filter_by_graph : bool) : M unit :=
  modify (set_read_paths_counter ∅);;
  alignment_lengths ← summarize_alignment filter_by_graph;
  rps ← gets read_paths;
  forM_ (fun '(read_id, this_read_path) =>
           forM_ run_index_call (read_index_calls read_id this_read_path))
        (imap (fun i p => (i, p)) rps);;
  (* sorted(alignment_lengths)[-1] *)
  lmal ← lift_opt IndexError (last (merge_sort Z.le alignment_lengths));
  modify (set_local_max_alignment_len (Some lmal));;
  modify (set_read_paths_counter_indexed true).

(** *** Contig coverages (lines 186-199) *)

Definition estimate_contig_coverages_from_read_paths : M unit :=
  modify (set_contig_coverages (list_to_map ((fun kv => (kv.1, 0%Q)) <$> vertex_info)));;
  rps ← gets read_paths;
  forM_ (fun read_path =>
    forM_ (fun '(v_name, v_end) =>
      cc ← gets contig_coverages;
      match cc !! v_name with
      | Some c => modify (set_contig_coverages (<[v_name := (c + 1)%Q]> cc))
      | None => mret tt
      end) read_path) rps.

Definition use_contig_coverage_from_assembly_graph : M unit :=
  modify (set_contig_coverages (list_to_map ((fun kv => (kv.1, cov kv.2)) <$> vertex_info))).

(** *** Coverage statistics (lines 836-892) *)

Definition check_path (this_path : path) : M unit :=
  match this_path with
  | [] => raise AssertionError
  | _ =>
      match find (fun ve => negb (bool_decide (is_Some (vertex_lookup ve.1)))) this_path with
      | Some (v_name, _) => logger_error (InvalidPath this_path);; raise (VertexNotFound v_name)
      | None => mret tt
      end
  end.

(** [mean] and [std] from the two parallel lists. *)
Definition weighted_mean_std (v_covers v_lengths : list Q) : M (Q * Q) :=
  mean ← lift_opt ZeroDivisionError (np_average v_covers v_lengths);
  var ← lift_opt ZeroDivisionError
          (np_average ((fun c => ((c - mean) * (c - mean))%Q) <$> v_covers) v_lengths);
  mret (mean, np_sqrt var).

(** The [if exclude_path:] block: subtract the multiplicities of
    [exclude_path]; an excess is logged and that vertex is left as it is. *)
Definition exclude_counts (this_path exclude_path : path)
    (v_names : gmap string nat) : M (gmap string nat) :=
  let del_names := dict_counts exclude_path.*1 in
  foldM (fun (v_names : gmap string nat) '(del_n, del_c) =>
    if decide (default 0 (v_names !! del_n) < del_c) then
      logger_error (CannotExclude exclude_path this_path del_n);;
      mret v_names
    else
      let c := default 0 (v_names !! del_n) - del_c in
      mret (if c =? 0 then delete del_n v_names else <[del_n := c]> v_names))
    v_names (map_to_list del_names).

(** [__get_cov_mean(path, exclude_path, return_std=True)]. *)
Definition get_cov_mean_std (this_path : path) (exclude_path : option path) : M (Q * Q) :=
  check_path this_path;;
  let v_names := dict_counts this_path.*1 in
  v_names ← match exclude_path with
            | Some (ve :: ex) => exclude_counts this_path (ve :: ex) v_names
            | _ => mret v_names
            end;
  cl ← mapM (fun '(v_name, c) =>
         cc ← gets contig_coverages;
         cv ← lift_opt KeyError (cc !! v_name);
         vx ← lift_opt KeyError (vertex_lookup v_name);
         mret ((cv / of_nat c)%Q, of_nat (len vx * c)))
       (map_to_list v_names);
  weighted_mean_std cl.*1 cl.*2.

(** [__get_cov_mean(path, exclude_path)]: the same computation, returning
    the mean alone. *)
Definition get_cov_mean (this_path : path) (exclude_path : option path) : M Q :=
  fst <$> get_cov_mean_std this_path exclude_path.

(** [__get_cov_mean_of_single(path, return_std=True)]. *)
Definition get_cov_mean_of_single_std (this_path : path) : M (Q * Q) :=
  check_path this_path;;
  let v_names := map_to_list (dict_counts this_path.*1) in
  let min_cov := foldr Nat.min (default 0 (head v_names.*2)) v_names.*2 in
  let v_names := (filter (fun vc => vc.2 = min_cov) v_names).*1 in
  cl ← mapM (fun v_name =>
         cc ← gets contig_coverages;
         cv ← lift_opt KeyError (cc !! v_name);
         vx ← lift_opt KeyError (vertex_lookup v_name);
         mret (cv, of_nat (len vx)))
       v_names;
  weighted_mean_std cl.*1 cl.*2.

(** *** Multiplicity likelihood (lines 649-742) *)

(** [{v_n: current_vs.count(v_n) for v_n, v_e in extension}] with
    [current_vs] the vertex names of [this_path]. *)
Definition counts_in (this_path extension : path) : gmap string nat :=
  list_to_map ((fun v_n => (v_n, count_occ string_dec this_path.*1 v_n)) <$> extension.*1).

(** One round of [for v_name, v_end in proposed_extension].  The loop state
    is the growing path, the running mean and deviation, the running sum
    [log_like_ratio], [_old_like_cache] and the list built so far. *)
Definition like_step (current_v_counts : gmap string nat)
    (single_cov_mean single_cov_std : Q)
    (st : list (string * bool) * Q * Q * Q * gmap string Q * list Q)
    (item : string * bool * nat)
    : M (list (string * bool) * Q * Q * Q * gmap string Q * list Q) :=
  let '(this_path, old_cov_mean, old_cov_std, log_like_ratio, old_like_cache,
        log_like_ratio_list) := st in
  let '(v_name, v_end, v_length) := item in
  current_c ← lift_opt KeyError (current_v_counts !! v_name);
  cc ← gets contig_coverages;
  cv ← lift_opt KeyError (cc !! v_name);
  let old_like :=
    match old_like_cache !! v_name with
    | Some l => l
    | None =>
        let l := norm_logpdf cv (of_nat current_c * old_cov_mean)%Q old_cov_std in
        if current_c =? 0 then l
        else (l + norm_logpdf (cv / of_nat current_c)%Q single_cov_mean single_cov_std)%Q
    end in
  let old_like_cache := <[v_name := old_like]> old_like_cache in
  '(new_cov_mean, new_cov_std) ← get_cov_mean_std (this_path ++ [(v_name, v_end)]) None;
  let new_like :=
    let l := norm_logpdf cv (of_nat (current_c + 1) * new_cov_mean)%Q new_cov_std in
    if current_c =? 0 then l
    else (l + norm_logpdf (cv / of_nat (current_c + 1))%Q single_cov_mean single_cov_std)%Q in
  let log_like_ratio := (log_like_ratio + (new_like - old_like) * of_nat v_length)%Q in
  mret (this_path ++ [(v_name, v_end)], new_cov_mean, new_cov_std, log_like_ratio,
        old_like_cache, log_like_ratio_list ++ [log_like_ratio]).

(** [accumulated_v_lengths]: entry [i] is [sum(v_lengths[:i + 1])]. *)
Definition accumulated_lengths (v_lengths : list nat) : list nat :=
  imap (fun i _ => sum_list (take (S i) v_lengths)) v_lengths.

Definition cal_multiplicity_like (this_path proposed_extension : path)
    (current_v_counts : option (gmap string nat))
    (old_cov_mean old_cov_std single_cov_mean single_cov_std : option Q)
    (logarithm : bool) : M (list Q) :=
  let current_v_counts :=
    match current_v_counts with
    | Some d => if decide (d = ∅) then counts_in this_path proposed_extension else d
    | None => counts_in this_path proposed_extension
    end in
  '(old_cov_mean, old_cov_std) ←
    (if truthy old_cov_mean && truthy old_cov_std
     then mret (default 0%Q old_cov_mean, default 0%Q old_cov_std)
     else get_cov_mean_std this_path None);
  '(single_cov_mean, single_cov_std) ←
    (if truthy single_cov_mean && truthy single_cov_std
     then mret (default 0%Q single_cov_mean, default 0%Q single_cov_std)
     else get_cov_mean_of_single_std this_path);
  (* proposed_lengths *)
  v_lengths ← mapM (fun ve => vx ← lift_opt KeyError (vertex_lookup ve.1); mret (len vx))
                proposed_extension;
  '(_, _, _, _, _, log_like_ratio_list) ←
    foldM (like_step current_v_counts single_cov_mean single_cov_std)
          (this_path, old_cov_mean, old_cov_std, 0%Q, ∅, [])
          (zip proposed_extension v_lengths);
  (* de-weight the log likes *)
  let log_like_ratio_list :=
    zip_with (fun llr acc => (llr / of_nat acc)%Q) log_like_ratio_list
             (accumulated_lengths v_lengths) in
  mret (if logarithm then log_like_ratio_list else np_exp <$> log_like_ratio_list).

(** *** The traverser (lines 394-647, 744-809) *)

(** [population[i]] for an index drawn by the random object. *)
Definition pick {A} (l : list A) (i : nat) : M A := lift_opt IndexError (l !! i).

(** [self.__random.choices(population, weights=weights)[0]], as an index. *)
Definition choices_0 (n : nat) (weights : list Q) : M nat :=
  ids ← with_random (rng_choices n weights 1);
  lift_opt IndexError (head ids).

Definition get_local_max_alignment_len : M Z :=
  lmal ← gets local_max_alignment_len; lift_opt TypeError lmal.

(** The acceptance loop
    [for rev_go, like_ratio in enumerate(like_ratio_list[::-1])] with its
    [else] clause; [rev_likes] is what is left of the reversed list. *)
Fixpoint acceptance_loop (extend : path -> bool -> M path)
    (this_path proposed_extension : path) (not_do_reverse : bool)
    (rev_go : nat) (previous_like : Q) (rev_likes : list Q) : M (list (string * bool)) :=
  match rev_likes with
  | [] =>
      if not_do_reverse then mret this_path
      else extend (reverse_path this_path) true
  | like_ratio :: rest =>
      let longest_ex_len := length proposed_extension in
      let proposed_end := (Z.of_nat longest_ex_len - Z.of_nat rev_go)%Z in
      let draw_prob := ((like_ratio - previous_like) / (1 - previous_like))%Q in
      r ← with_random rng_random;
      if Qgt_bool draw_prob r then
        extend (this_path ++ py_prefix proposed_end proposed_extension) not_do_reverse
      else
        acceptance_loop extend this_path proposed_extension not_do_reverse
                        (S rev_go) like_ratio rest
  end.

(** The contraction as the specification words it (4.5, step 6): "From
    i = m down to 1, let draw = (L[i] - L[i+1]) / (1 - L[i+1]) with
    L[m+1] := 0.  If draw > rand() accept the prefix e[1..i] and recurse.
    If no prefix passes: if not yet reversed, reverse p and recurse; else
    return p."  [i] counts down from [m = length e]; the specification's
    [L[i]] is [nth (i - 1) L 0]. *)
Fixpoint spec_contraction (extend : path -> bool -> M path) (p e : path) (L : list Q)
    (reversed : bool) (i : nat) : M (list (string * bool)) :=
  match i with
  | 0 =>
      if reversed then mret p
      else extend (reverse_path p) true
  | S i' =>
      let L_i := nth i' L 0%Q in
      let L_next := if S i' =? length e then 0%Q else nth (S i') L 0%Q in
      let draw := ((L_i - L_next) / (1 - L_next))%Q in
      r ← with_random rng_random;
      if Qgt_bool draw r then extend (p ++ take (S i') e) reversed
      else spec_contraction extend p e L reversed i'
  end.

(** The first block of [__heuristic_check_multiplicity]: [None] when some
    vertex of the extension is new to the path (the extension is then
    accepted whole), else the counts. *)
Fixpoint scan_new_vertex (current_vs : list string) (extension : path)
    (current_v_counts : gmap string nat) : option (gmap string nat) :=
  match extension with
  | [] => Some current_v_counts
  | (v_name, _) :: rest =>
      let v_count := count_occ string_dec current_vs v_name in
      if v_count =? 0 then None
      else scan_new_vertex current_vs rest (<[v_name := v_count]> current_v_counts)
  end.

(** The same block when [current_v_counts] is passed in. *)
Fixpoint scan_given_counts (extension : path) (current_v_counts : gmap string nat)
    : M bool :=
  match extension with
  | [] => mret false
  | (v_name, _) :: rest =>
      c ← lift_opt KeyError (current_v_counts !! v_name);
      if c =? 0 then mret true else scan_given_counts rest current_v_counts
  end.

Definition heuristic_check_multiplicity (extend : path -> bool -> M path)
    (this_path proposed_extension : path) (not_do_reverse : bool)
    (current_v_counts : option (gmap string nat))
    (cached_like_ls : option (list Q)) : M (list (string * bool)) :=
  match proposed_extension with
  | [] => raise AssertionError
  | _ =>
      let given :=
        match current_v_counts with
        | Some d => if decide (d = ∅) then None else Some d
        | None => None
        end in
      counts ←
        match given with
        | None => mret (scan_new_vertex this_path.*1 proposed_extension ∅)
        | Some d =>
            new ← scan_given_counts proposed_extension d;
            mret (if new : bool then None else Some d)
        end;
      match counts with
      | None => extend (this_path ++ proposed_extension) not_do_reverse
      | Some current_v_counts =>
          like_ratio_list ←
            match cached_like_ls with
            | Some l => mret l
            | None => cal_multiplicity_like this_path proposed_extension
                        (Some current_v_counts) None None None None false
            end;
          acceptance_loop extend this_path proposed_extension not_do_reverse
                          0 0%Q (reverse like_ratio_list)
      end
  end.

(** The loop [for overlap_c_num in range(1, len(path) + 1)]: the sorted
    candidate sets with their overlap numbers. *)
Fixpoint collect_candidates (lmal : Z)
    (starting : gmap (list (string * bool)) (gset (nat * bool)))
    (this_path : path) (overlap_c_nums : list nat)
    : list (list (nat * bool) * nat) :=
  match overlap_c_nums with
  | [] => []
  | overlap_c_num :: rest =>
      let overlap_path := drop (length this_path - overlap_c_num) this_path in
      if (lmal <=? get_path_internal_length (overlap_path ++ [(""%string, true)]))%Z
      then []
      else
        match starting !! overlap_path with
        | Some st =>
            (sorted_candidates st, overlap_c_num)
            :: collect_candidates lmal starting this_path rest
        | None => collect_candidates lmal starting this_path rest
        end
  end.

(** [self.__read_paths_counter[self.read_paths[read_id]]] for each candidate. *)
Definition candidate_counts (candidates : list (nat * bool)) : M (list nat) :=
  mapM (fun '(read_id, strand) =>
    rps ← gets read_paths;
    counter ← gets read_paths_counter;
    rp ← pick rps read_id;
    lift_opt KeyError (counter !! rp)) candidates.

(** [exp(log(weights[go_c]) - abs(log(cov / current_ave_coverage)))]
    for [go_c, cov in enumerate(cdd_cov)]. *)
Definition inertia_weights (weights cdd_cov : list Q) (current_ave_coverage : Q)
    : M (list Q) :=
  mapM (fun '(go_c, cv) =>
    w ← pick weights go_c;
    mret (np_exp (np_log w - Qabs (np_log (cv / current_ave_coverage)))%Q))
    (imap (fun i c => (i, c)) cdd_cov).

(** Lines 442-460: the jump to a read that holds the whole path as a
    middle subpath.  [None]: the path is not a middle subpath. *)
Definition middle_jump (extend : path -> bool -> M path) (this_path : path)
    (current_ave_coverage : Q) : M (option (list (string * bool))) :=
  middle ← gets middle_subpath_to_readpaths;
  match middle !! this_path with
  | None => mret None
  | Some st =>
      let candidates := sorted_candidates st in
      weights ← candidate_counts candidates;
      let weights := harmony_weights (of_nat <$> weights) differ_f in
      weights ←
        (if Qeq_bool cov_inert 0 then mret weights
         else
           cdd_cov ← mapM (fun '(read_id, strand) =>
                        rps ← gets read_paths;
                        rp ← pick rps read_id;
                        get_cov_mean rp (Some this_path)) candidates;
           inertia_weights weights cdd_cov current_ave_coverage);
      i ← choices_0 (length candidates) weights;
      '(read_id, strand) ← pick candidates i;
      rps ← gets read_paths;
      rp ← pick rps read_id;
      let new_path := if strand : bool then rp else reverse_path rp in
      Some <$> extend new_path false
  end.

(** Lines 469-506: choose the next vertex among [next_connections]
    (non-empty); returns the chosen connection and [like_ls_cached]. *)
Definition choose_next_connection (this_path : path) (current_ave_coverage : Q)
    (next_connections : list (string * bool)) : M (string * bool * list Q) :=
  if 2 <? length next_connections then
    let candidates_next := sorted_connections next_connections in
    if negb hetero_chromosome then
      '(old_cov_mean, old_cov_std) ← get_cov_mean_std this_path None;
      '(single_cov_mean, single_cov_std) ← get_cov_mean_of_single_std this_path;
      loglike_lss ← mapM (B := list Q) (fun next_v : string * bool =>
          let current_v_counts : gmap string nat :=
            {[ next_v.1 := count_occ string_dec this_path.*1 next_v.1 ]} in
          cal_multiplicity_like this_path [next_v] (Some current_v_counts)
            (Some old_cov_mean) (Some old_cov_std)
            (Some single_cov_mean) (Some single_cov_std) true) candidates_next;
      let like_ls_cached := (fun l : list Q => np_exp <$> l) <$> loglike_lss in
      weights ← mapM (fun l : list Q => lift_opt IndexError (head l)) loglike_lss;
      w_max ← lift_opt ValueError (Qmax_list weights);
      let weights := (fun w => np_exp (w - w_max)%Q) <$> weights in
      chosen_cdd_id ← choices_0 (length candidates_next) weights;
      next ← pick candidates_next chosen_cdd_id;
      cached ← pick like_ls_cached chosen_cdd_id;
      mret (next, cached)
    else if negb (Qeq_bool cov_inert 0) then
      cdd_cov ← mapM (fun ne : string * bool =>
                   cc ← gets contig_coverages; lift_opt KeyError (cc !! ne.1))
                 candidates_next;
      let weights :=
        (fun cv => np_exp (- Qabs (np_log (cv / current_ave_coverage)))%Q) <$> cdd_cov in
      i ← choices_0 (length candidates_next) weights;
      next ← pick candidates_next i;
      mret (next, [])
    else
      i ← with_random (rng_choice (length candidates_next));
      next ← pick candidates_next i;
      mret (next, [])
  else
    (* list(next_connections)[0] *)
    next ← lift_opt IndexError (head next_connections);
    mret (next, []).

(** Lines 464-522: extension along the graph when no read overlaps. *)
Definition graph_extend (extend : path -> bool -> M path) (this_path : path)
    (not_do_reverse : bool) (current_ave_coverage : Q) : M (list (string * bool)) :=
  '(last_name, last_end) ← lift_opt IndexError (last this_path);
  vx ← lift_opt KeyError (vertex_lookup last_name);
  let next_connections := connections vx last_end in
  match next_connections with
  | _ :: _ =>
      '(next_name, next_end, like_ls_cached) ←
        choose_next_connection this_path current_ave_coverage next_connections;
      heuristic_check_multiplicity extend this_path [(next_name, negb next_end)]
        not_do_reverse None (Some like_ls_cached)
  | [] =>
      if not_do_reverse then mret this_path
      else extend (reverse_path this_path) true
  end.

(** Lines 533-553: flatten [candidate_ls_list] into [candidates],
    [candidates_ovl_n] and [weights], stopping once [decay_t] reads are used. *)
Fixpoint flatten_candidates (candidate_ls_list : list (list (nat * bool) * nat))
    (num_reads_used : nat) : M (list (nat * bool) * list nat * list Q) :=
  match candidate_ls_list with
  | [] => mret ([], [], [])
  | (same_ov_cdd, ovl_c_num) :: rest =>
      same_ov_w ← candidate_counts same_ov_cdd;
      let num_reads_used := num_reads_used + sum_list same_ov_w in
      let same_ov_w := harmony_weights (of_nat <$> same_ov_w) differ_f in
      let same_ov_w :=
        (fun w => np_exp (np_log w + np_log decay_f * of_nat ovl_c_num)%Q) <$> same_ov_w in
      if decay_t <=? num_reads_used then
        mret (same_ov_cdd, replicate (length same_ov_cdd) ovl_c_num, same_ov_w)
      else
        '(cs, os, ws) ← flatten_candidates rest num_reads_used;
        mret (same_ov_cdd ++ cs, replicate (length same_ov_cdd) ovl_c_num ++ os,
              same_ov_w ++ ws)
  end.

(** Lines 556-604: the proposal pool of the single-chromosome mode.
    Returns the new [candidates], [candidates_ovl_n], [weights] and
    [like_ls_cached]. *)
Definition reweight_by_pool (this_path : path)
    (candidates : list (nat * bool)) (candidates_ovl_n : list nat) (weights : list Q)
    : M (list (nat * bool) * list nat * list Q * list (list Q)) :=
  let pool_size := 10 in
  pool_ids ← with_random (rng_choices (length candidates) weights pool_size);
  let pool_ids_set : gset nat := list_to_set pool_ids in
  if size pool_ids_set =? 1 then
    remaining_id ← lift_opt KeyError (head (elements pool_ids_set));
    c ← pick candidates remaining_id;
    o ← pick candidates_ovl_n remaining_id;
    mret ([c], [o], [1%Q], [])
  else
    let ids := merge_sort le (elements pool_ids_set) in
    new_candidates ← mapM (pick candidates) ids;
    new_candidates_ovl_n ← mapM (pick candidates_ovl_n) ids;
    let new_weights := (fun i => of_nat (count_occ Nat.eq_dec pool_ids i)) <$> ids in
    '(old_cov_mean, old_cov_std) ← get_cov_mean_std this_path None;
    '(single_cov_mean, single_cov_std) ← get_cov_mean_of_single_std this_path;
    res ← mapM (B := Q * list Q) (fun '(go_c, (read_id, strand)) =>
        rps ← gets read_paths;
        read_path ← pick rps read_id;
        (* the reversed read is built and dropped when [strand] is false *)
        o ← pick new_candidates_ovl_n go_c;
        let cdd_extend := drop o read_path in
        like_ls ← cal_multiplicity_like this_path cdd_extend
                    (Some (counts_in this_path cdd_extend))
                    (Some old_cov_mean) (Some old_cov_std)
                    (Some single_cov_mean) (Some single_cov_std) false;
        w ← pick new_weights go_c;
        m ← lift_opt ValueError (Qmax_list like_ls);
        mret ((w * m)%Q, like_ls))
      (imap (fun i c => (i, c)) new_candidates);
    mret (new_candidates, new_candidates_ovl_n, res.*1, res.*2).

(** Lines 523-641: extension by a read that starts with a suffix of the path. *)
Definition read_extend (extend : path -> bool -> M path) (this_path : path)
    (not_do_reverse : bool) (current_ave_coverage : Q)
    (candidate_ls_list : list (list (nat * bool) * nat)) : M (list (string * bool)) :=
  '(read_id, strand, ovl_c_num, like_ls_cached) ←
    match candidate_ls_list with
    | [([(read_id, strand)], ovl_c_num)] =>
        mret (read_id, strand, ovl_c_num, [])
    | _ =>
        '(candidates, candidates_ovl_n, weights) ←
          flatten_candidates candidate_ls_list 0;
        '(candidates, candidates_ovl_n, weights, like_lss) ←
          (if negb hetero_chromosome then
             reweight_by_pool this_path candidates candidates_ovl_n weights
           else if negb (Qeq_bool cov_inert 0) then
             cdd_cov ← mapM (fun '(go_c, (r_id, r_strand)) =>
                 rps ← gets read_paths;
                 rp ← pick rps r_id;
                 o ← pick candidates_ovl_n go_c;
                 get_cov_mean (drop o rp) None)
               (imap (fun i c => (i, c)) candidates);
             weights ← inertia_weights weights cdd_cov current_ave_coverage;
             mret (candidates, candidates_ovl_n, weights, [])
           else mret (candidates, candidates_ovl_n, weights, []));
        chosen_cdd_id ← choices_0 (length candidates) weights;
        like_ls_cached ←
          match like_lss with
          | [] => mret []
          | _ => pick like_lss chosen_cdd_id
          end;
        '(read_id, strand) ← pick candidates chosen_cdd_id;
        ovl_c_num ← pick candidates_ovl_n chosen_cdd_id;
        mret (read_id, strand, ovl_c_num, like_ls_cached)
    end;
  rps ← gets read_paths;
  read_path ← pick rps read_id;
  let read_path := if strand : bool then read_path else reverse_path read_path in
  let new_extend := drop ovl_c_num read_path in
  heuristic_check_multiplicity extend this_path new_extend not_do_reverse
    None (Some like_ls_cached).

(** Lines 403-414: choose the seed read and its direction. *)
Definition seed_path (extend : path -> bool -> M path) : M (list (string * bool)) :=
  rps ← gets read_paths;
  counter ← gets read_paths_counter;
  read_p_freq_reciprocal ← mapM (fun r_p =>
      c ← lift_opt KeyError (counter !! r_p);
      if c =? 0 then raise ZeroDivisionError else mret (1 / of_nat c)%Q) rps;
  i ← choices_0 (length rps) read_p_freq_reciprocal;
  read_path ← pick rps i;
  r ← with_random rng_random;
  let read_path := if Qgt_bool r (1 # 2) then reverse_path read_path else read_path in
  extend read_path false.

(** The body of [__heuristic_extend_path]; [extend] stands for the
    recursive calls. *)
Definition extend_body (extend : path -> bool -> M path) (this_path : path)
    (not_do_reverse : bool) : M (list (string * bool)) :=
  match this_path with
  | [] => seed_path extend
  | _ =>
      let repeating_unit := roll_path this_path in
      stop ← (if length repeating_unit <? length this_path then
                 lmal ← get_local_max_alignment_len;
                 mret (lmal <=? get_path_internal_length this_path)%Z
               else mret false);
      if stop : bool then mret repeating_unit
      else
        current_ave_coverage ← get_cov_mean this_path None;
        lmal ← get_local_max_alignment_len;
        starting ← gets starting_subpath_to_readpaths;
        let candidate_ls_list :=
          collect_candidates lmal starting this_path (seq 1 (length this_path)) in
        match candidate_ls_list with
        | [] =>
            jumped ← middle_jump extend this_path current_ave_coverage;
            match jumped with
            | Some p => mret p
            | None => graph_extend extend this_path not_do_reverse current_ave_coverage
            end
        | _ => read_extend extend this_path not_do_reverse current_ave_coverage
                 candidate_ls_list
        end
  end.

(** [__heuristic_extend_path]; [fuel] bounds the depth of the recursion. *)
Fixpoint heuristic_extend_path (fuel : nat) (this_path : path) (not_do_reverse : bool)
    : M (list (string * bool)) :=
  match fuel with
  | 0 => timeout
  | S fuel' => extend_body (heuristic_extend_path fuel') this_path not_do_reverse
  end.

Definition get_single_traversal (fuel : nat) : M (list (string * bool)) :=
  p ← heuristic_extend_path fuel [] false;
  mret (get_standardized_circular_path (roll_path p)).

(** *** Hetero-unit decomposition (lines 344-392) *)

(** Modelled from the spec: [traversome.utils.find_greatest_common_divisor]
    is missing from the sources; the spec calls its result "the GCD g of
    per-segment counts". *)
Definition find_greatest_common_divisor (number_list : list nat) : nat :=
  foldr Nat.gcd 0 number_list.

(** [get_v_counts]: occurrences of every graph vertex, in table order. *)
Definition get_v_counts (names : list string) : list nat :=
  (fun kv => count_occ string_dec names kv.1) <$> vertex_info.

(** [v_to_id[v_name]]. *)
Definition v_to_id (v_name : string) : option nat :=
  fst <$> list_find (fun kv => kv.1 = v_name) vertex_info.

(** [l[z:]] for a possibly negative bound [z]. *)
Definition py_suffix {A} (z : Z) (l : list A) : list A :=
  if (z <? 0)%Z then drop (length l - Z.to_nat (- z)) l else drop (Z.to_nat z) l.

(** [l[a:b]] for bounds that are not negative. *)
Definition slice {A} (a b : nat) (l : list A) : list A := take (b - a) (drop a l).

(** The test of the search loop: the window and the [gcd - 1] units after
    it all have the composition [unit_counts]. *)
Definition units_match (unit_counts counts_check : list nat)
    (v_list_shuffled : list string) (unit_len gcd try_start : nat) : bool :=
  bool_decide (counts_check = unit_counts)
  && bool_decide (list_to_set (C := gset bool)
       ((fun go_u =>
           bool_decide (get_v_counts (slice (try_start + unit_len * go_u)
                                            (try_start + unit_len * (go_u + 1))
                                            v_list_shuffled) = unit_counts))
          <$> seq 1 (gcd - 1)) = {[ true ]}).

(** [for try_start in range(unit_len)]: the first offset that passes the
    test, the window counts being slid one vertex at each failure. *)
Fixpoint search_start (unit_counts : list nat) (v_list_shuffled : list string)
    (unit_len gcd : nat) (counts_check : list nat) (try_starts : list nat)
    : M (option nat) :=
  match try_starts with
  | [] => mret None
  | try_start :: rest =>
      if units_match unit_counts counts_check v_list_shuffled unit_len gcd try_start
      then mret (Some try_start)
      else
        v_out ← lift_opt IndexError (v_list_shuffled !! try_start);
        i ← lift_opt KeyError (v_to_id v_out);
        c_out ← lift_opt IndexError (counts_check !! i);
        let counts_check := <[i := c_out - 1]> counts_check in
        v_in ← lift_opt IndexError (v_list_shuffled !! (try_start + unit_len));
        j ← lift_opt KeyError (v_to_id v_in);
        c_in ← lift_opt IndexError (counts_check !! j);
        let counts_check := <[j := c_in + 1]> counts_check in
        search_start unit_counts v_list_shuffled unit_len gcd counts_check rest
  end.

(** The blocks cut from [path_shuffled] by the last loop, before the
    circularity test and the standardization. *)
Definition unit_blocks (path_shuffled : path) (try_start unit_len unit_copy_num gcd : nat)
    : list (list (string * bool)) :=
  (fun go_unit =>
     let go_from__ := try_start + unit_len * unit_copy_num * go_unit in
     let go_to__ := try_start + unit_len * unit_copy_num * (go_unit + 1) in
     slice go_from__ go_to__ path_shuffled)
  <$> seq 0 (gcd / unit_copy_num).

Definition decompose_hetero_units (circular_path : path) : M (list (list (string * bool))) :=
  let v_list := circular_path.*1 in
  let v_counts := get_v_counts v_list in
  let gcd := find_greatest_common_divisor v_counts in
  if gcd =? 1 then mret [circular_path]
  else if gcd =? 0 then raise ZeroDivisionError
  else
    let unit_counts := (fun v_count => v_count / gcd) <$> v_counts in
    let unit_len := length v_list / gcd in
    reseed_at ← (if unit_len =? 0 then raise ValueError
                  else with_random (rng_randint 0 (Z.of_nat unit_len - 1)));
    let from := (Z.of_nat (length v_list) - reseed_at)%Z in
    let v_list_shuffled := py_suffix from v_list ++ v_list ++ take unit_len v_list in
    let counts_check := get_v_counts (take unit_len v_list_shuffled) in
    found ← search_start unit_counts v_list_shuffled unit_len gcd counts_check
              (seq 0 unit_len);
    match found with
    | Some try_start =>
        let path_shuffled :=
          py_suffix from circular_path ++ circular_path ++ take unit_len circular_path in
        let unit_seq_len :=
          get_path_length (slice try_start (try_start + unit_len) path_shuffled) in
        lmal ← get_local_max_alignment_len;
        if (unit_seq_len =? 0)%Z then raise ZeroDivisionError
        else
          let unit_copy_num :=
            Z.to_nat (Z.min (Z.max (Z.quot (lmal - 2) unit_seq_len) 1) (Z.of_nat gcd)) in
          mret (get_standardized_circular_path
                  <$> filter (fun p => is_circular_path p = true)
                        (unit_blocks path_shuffled try_start unit_len unit_copy_num gcd))
    | None => mret [circular_path]
    end.

(** *** The single-process sampling loop (lines 223-259) *)

(** [for new_path in new_path_list]: count the walk, store it when it is
    new, and stop at the first walk that brings [count_valid] to
    [num_search].  Returns [count_valid]. *)
Fixpoint store_paths (new_path_list : list (list (string * bool))) (count_valid : nat)
    : M nat :=
  match new_path_list with
  | [] => mret count_valid
  | new_path :: rest =>
      let count_valid := count_valid + 1 in
      counts ← gets components_counts;
      match counts !! new_path with
      | Some c => modify (set_components_counts (<[new_path := c + 1]> counts))
      | None =>
          modify (set_components_counts (<[new_path := 1]> counts));;
          modify (fun s => set_components (components s ++ [new_path]) s)
      end;;
      if count_valid =? num_search then mret count_valid
      else store_paths rest count_valid
  end.

(** [invalid_search] for the traversal result [new_path]. *)
Definition invalid_search (new_path : path) : bool :=
  (force_circular && negb (is_circular_path new_path))
  || (negb hetero_chromosome && negb (is_fully_covered_by new_path)).

(** The [while count_valid < self.num_search] loop around a traversal
    [traverse]; [fuel] bounds the number of rounds, and [Timeout] means the
    loop is still running when the fuel is spent.  Returns
    [(count_search, count_valid)]. *)
Fixpoint search_loop (traverse : M (list (string * bool))) (fuel : nat)
    (count_search count_valid : nat) : M (nat * nat) :=
  if count_valid <? num_search then
    match fuel with
    | 0 => timeout
    | S fuel' =>
        new_path ← traverse;
        let count_search := count_search + 1 in
        if invalid_search new_path
        then search_loop traverse fuel' count_search count_valid
        else
          new_path_list ← (if length vertex_info * 2 <=? length new_path
                            then decompose_hetero_units new_path
                            else mret [new_path]);
          count_valid ← store_paths new_path_list count_valid;
          search_loop traverse fuel' count_search count_valid
    end
  else mret (count_search, count_valid).

(** [__gen_heuristic_paths_uni]: [rounds] bounds the rounds of the loop
    and [depth] the recursion of each traversal. *)
Definition gen_heuristic_paths_uni (rounds depth : nat) : M (nat * nat) :=
  search_loop (get_single_traversal depth) rounds 0 0.

(** [generate_heuristic_components] for [num_processes == 1]. *)
Definition generate_heuristic_components (rounds depth : nat) : M (nat * nat) :=
  indexed ← gets read_paths_counter_indexed;
  (if indexed : bool then mret tt else index_readpaths_subpaths true);;
  (if use_alignment_cov then estimate_contig_coverages_from_read_paths
   else use_contig_coverage_from_assembly_graph);;
  gen_heuristic_paths_uni rounds depth.

End Generator.

(** ** The collaborators, for running the generator on concrete graphs *)

(** The path helpers of [self.graph].  Class [Assembly] is not part of the
    sources at hand, so each helper below follows the specification. *)
Module AssemblyModel.

Definition flip (o : string * bool) : string * bool := (o.1, negb o.2).

(** Order of Python tuples [(str, bool)] and of sequences of them. *)
Definition oseg_ltb (a b : string * bool) : bool :=
  String.ltb a.1 b.1 || (String.eqb a.1 b.1 && negb a.2 && b.2).

Fixpoint path_ltb (p q : list (string * bool)) : bool :=
  match p, q with
  | [], [] => false
  | [], _ :: _ => true
  | _ :: _, [] => false
  | a :: p', b :: q' => oseg_ltb a b || (bool_decide (a = b) && path_ltb p' q')
  end.

Definition path_min (p q : list (string * bool)) : list (string * bool) :=
  if path_ltb q p then q else p.

(** Modelled from the spec: [Assembly.reverse_path] is missing from the
    sources.  "reverse(p) reverses order and flips every strand." *)
Definition reverse_path (p : list (string * bool)) : list (string * bool) :=
  flip <$> reverse p.

Definition rotations (p : list (string * bool)) : list (list (string * bool)) :=
  (fun i => drop i p ++ take i p) <$> seq 0 (length p).

(** Modelled from the spec: [Assembly.get_standardized_circular_path] is
    missing from the sources.  "Standardisation picks, among all rotations
    and {p, reverse(p)}, the lexicographically smallest representation." *)
Definition get_standardized_circular_path (p : list (string * bool))
    : list (string * bool) :=
  foldr path_min p (rotations p ++ rotations (reverse_path p)).

(** Modelled from the spec: [Assembly.get_standardized_path] is missing
    from the sources.  For an open path the choice is between the path and
    its reverse. *)
Definition get_standardized_path (p : list (string * bool)) : list (string * bool) :=
  path_min p (reverse_path p).

Section WithVertices.
Variable vertex_info : list (string * Vertex).

(** [neighbors(oriented)]: "oriented adjacencies off the chosen end". *)
Definition neighbors (o : string * bool) : list (string * bool) :=
  match find (fun kv => String.eqb kv.1 o.1) vertex_info with
  | Some kv => connections kv.2 o.2
  | None => []
  end.

(** Modelled from the spec: [Assembly.is_circular_path] is missing from
    the sources.  "A path is circular iff the reverse of its last
    oriented segment appears in the forward-neighbor set of its first
    oriented segment." *)
Definition is_circular_path (p : list (string * bool)) : bool :=
  match p, last p with
  | first :: _, Some lst => bool_decide (flip lst ∈ neighbors first)
  | _, _ => false
  end.

(** Modelled from the spec: [Assembly.contain_path] is missing from the
    sources.  "all consecutive OrientedSegment transitions exist as
    edges"; a transition from [a] to [b] is the edge that the traverser
    follows when it appends [b] after [a]. *)
Fixpoint contain_path (p : list (string * bool)) : bool :=
  match p with
  | a :: (b :: _) as p' => bool_decide (flip b ∈ neighbors a) && contain_path p'
  | _ => true
  end.

(** Modelled from the spec: [Assembly.is_fully_covered_by] is missing
    from the sources.  "true iff every graph segment appears at least
    once". *)
Definition is_fully_covered_by (p : list (string * bool)) : bool :=
  forallb (fun kv => bool_decide (kv.1 ∈ p.*1)) vertex_info.

Definition seg_len (o : string * bool) : Z :=
  match find (fun kv => String.eqb kv.1 o.1) vertex_info with
  | Some kv => Z.of_nat (len kv.2)
  | None => 0
  end.

(** Modelled from the spec: [Assembly.get_path_length] is missing from
    the sources; the summed length of the segments of the path. *)
Definition get_path_length (p : list (string * bool)) : Z :=
  foldr Z.add 0%Z (seg_len <$> p).

(** Modelled from the spec: [Assembly.get_path_internal_length] is
    missing from the sources.  It "excludes the two terminal-segment
    extents". *)
Definition get_path_internal_length (p : list (string * bool)) : Z :=
  get_path_length (drop 1 (take (length p - 1) p)).

(** Modelled from the spec: [Assembly.roll_path] is missing from the
    sources and the spec does not say how the repeat unit is found; the
    model covers paths without an internal repeat, which are returned as
    they are. *)
Definition roll_path (p : list (string * bool)) : list (string * bool) := p.

Definition assembly : Assembly :=
  Build_Assembly vertex_info get_standardized_path contain_path reverse_path
    roll_path get_standardized_circular_path is_circular_path
    is_fully_covered_by get_path_length get_path_internal_length.
End WithVertices.

End AssemblyModel.

(** A random object that replays a script of uniform draws from [0, 1). *)
Module ScriptedRandom.

Definition draw (script : list Q) : Q * list Q :=
  match script with
  | [] => (0%Q, [])
  | u :: rest => (u, rest)
  end.

(** [floor(u * n)]. *)
Definition scale (u : Q) (n : Z) : Z := Qfloor (u * inject_Z n).

(** The result is reduced into the range, whatever the script holds. *)
Definition randint (a b : Z) (script : list Q) : Z * list Q :=
  let '(u, rest) := draw script in
  ((a + scale u (b - a + 1) `mod` (b - a + 1))%Z, rest).

Definition choice (n : nat) (script : list Q) : nat * list Q :=
  let '(u, rest) := draw script in
  (Z.to_nat (scale u (Z.of_nat n) `mod` Z.of_nat n), rest).

(** [bisect(cum_weights, x, 0, n - 1)] *)
Fixpoint bisect (weights : list Q) (acc x : Q) (i hi : nat) : nat :=
  match weights with
  | [] => Nat.min i hi
  | w :: rest =>
      if Qle_bool (acc + w) x then bisect rest (acc + w)%Q x (S i) hi
      else Nat.min i hi
  end.

Fixpoint choices (n : nat) (weights : list Q) (k : nat) (script : list Q)
    : list nat * list Q :=
  match k with
  | 0 => ([], script)
  | S k' =>
      let '(u, rest) := draw script in
      let total := foldr Qplus 0%Q weights in
      let i := bisect weights 0%Q (u * total)%Q 0 (n - 1) in
      let '(ids, rest') := choices n weights k' rest in
      (i :: ids, rest')
  end.

Definition random_obj : RandomObj :=
  {| rng := list Q; rng_random := draw; rng_randint := randint;
     rng_choice := choice; rng_choices := choices |}.

End ScriptedRandom.

(** Rational stand-ins for the numeric imports, for examples whose results
    do not depend on them. *)
Module StandIn.

Definition numerics : Numerics :=
  {| np_exp := fun x => x;
     np_log := fun x => x;
     np_sqrt := fun x => x;
     norm_logpdf := fun x loc scale => 0%Q;
     harmony_weights := fun ws diff => ws |}.

End StandIn.

(** ** Example inputs *)

Module Examples.

Definition A_fwd : string * bool := ("A"%string, true).
Definition B_fwd : string * bool := ("B"%string, true).
Definition C_fwd : string * bool := ("C"%string, true).
Definition A_rev : string * bool := ("A"%string, false).
Definition B_rev : string * bool := ("B"%string, false).
Definition C_rev : string * bool := ("C"%string, false).

Definition vertex (l : nat) (c : Q) (tail head : list (string * bool)) : Vertex :=
  {| len := l; cov := c; connections := fun e => if e then tail else head |}.

(** The loop of scenario S1: A and B joined tail to head both ways. *)
Definition loop_vertices : list (string * Vertex) :=
  [("A"%string, vertex 100 30 [B_rev] [B_fwd]);
   ("B"%string, vertex 100 30 [A_rev] [A_fwd])].

(** The dead-end chain of scenario S4: C, B, A in a row, the tail of C
    joined to the head of B and the tail of B to the head of A. *)
Definition chain_vertices : list (string * Vertex) :=
  [("A"%string, vertex 100 30 [] [B_fwd]);
   ("B"%string, vertex 100 30 [A_rev] [C_fwd]);
   ("C"%string, vertex 100 30 [B_rev] [])].

(** Two vertices with every end joined to every end. *)
Definition all_ends : list (string * bool) := [A_rev; A_fwd; B_rev; B_fwd].
Definition dense_vertices : list (string * Vertex) :=
  [("A"%string, vertex 100 30 all_ends all_ends);
   ("B"%string, vertex 100 30 all_ends all_ends)].

Definition config (reads : list AlignRecord) (n : nat) (circular hetero : bool) : Config :=
  {| alignment := reads; num_search := n; num_processes := 1;
     force_circular := circular; hetero_chromosome := hetero;
     differ_f := 1; decay_f := 20; decay_t := 1000; cov_inert := 1;
     use_alignment_cov := false |}.

(** Scenario S4: the dead-end chain, one read along it, circular walks
    wanted. *)
Definition chain_assembly : Assembly := AssemblyModel.assembly chain_vertices.
Definition chain_config : Config :=
  config [ {| gaf_path := [C_fwd; B_fwd; A_fwd]; p_align_len := 250 |} ] 10 true true.

(** Scenario S3: the loop, and the walk that goes round it twice. *)
Definition loop_assembly : Assembly := AssemblyModel.assembly loop_vertices.
Definition loop_config : Config :=
  config [ {| gaf_path := [A_fwd; B_fwd; A_fwd]; p_align_len := 150 |} ] 2 true true.
Definition twice_round : list (string * bool) := [A_fwd; B_fwd; A_fwd; B_fwd].

(** The dense graph and a canonical circular walk on it whose halves can
    only be cut off the walk's own start. *)
Definition dense_assembly : Assembly := AssemblyModel.assembly dense_vertices.
Definition dense_config : Config := config [] 10 true true.
Definition dense_walk : list (string * bool) := [A_rev; A_rev; B_rev; B_rev].

(** A generator that is indexed and whose coverage table is filled:
    every vertex at coverage 30, reads no longer than 10. *)
Definition ready_self (script : list Q)
    : Self (R := ScriptedRandom.random_obj) :=
  set_local_max_alignment_len (Some 10%Z)
    (set_contig_coverages
       (list_to_map [("A"%string, 30%Q); ("B"%string, 30%Q); ("C"%string, 30%Q)])
       (init_self (R := ScriptedRandom.random_obj) script)).

(** The walk along the chain, as a traversal of the chain returns it: the
    chain from end to end, neither end joined to the other. *)
Definition chain_walk : list (string * bool) := [A_rev; B_rev; C_rev].

(** A fork: the tail of A is joined to the heads of B and of C. *)
Definition fork_vertices : list (string * Vertex) :=
  [("A"%string, vertex 100 30 [B_rev; C_rev] []);
   ("B"%string, vertex 100 30 [] [A_fwd]);
   ("C"%string, vertex 100 30 [] [A_fwd])].
Definition fork_assembly : Assembly := AssemblyModel.assembly fork_vertices.
(** The single-chromosome mode: [hetero_chromosome] is off. *)
Definition fork_config : Config := config [] 10 false false.

(** A read that the loop does not contain: A cannot follow A. *)
Definition stray_config : Config :=
  config [ {| gaf_path := [A_fwd; A_fwd]; p_align_len := 150 |} ] 2 true true.

(** The twist: the tail of A is joined to the tail of B, the head of A
    to itself and to the tail of B, and the tail of B to the head of B; each
    join is listed at both of its ends. *)
Definition twist_vertices : list (string * Vertex) :=
  [("A"%string, vertex 100 30 [B_fwd] [A_rev; B_fwd]);
   ("B"%string, vertex 100 30 [A_rev; A_fwd; B_rev] [B_fwd])].
Definition twist_assembly : Assembly := AssemblyModel.assembly twist_vertices.
(** One read along A-, A+, B-, B-, circular walks wanted, two of them. *)
Definition twist_config : Config :=
  config [ {| gaf_path := [A_rev; A_fwd; B_rev; B_rev]; p_align_len := 350 |} ]
    2 true true.

Section Chain.
#[local] Existing Instance chain_assembly.
#[local] Existing Instance chain_config.
#[local] Existing Instance ScriptedRandom.random_obj.
#[local] Existing Instance StandIn.numerics.

(** The chain's generator once [generate_heuristic_components] has
    indexed the read and copied the coverages; every draw of its random
    object is 0. *)
Definition chain_self : Self :=
  snd ((index_readpaths_subpaths true;;
        use_contig_coverage_from_assembly_graph) (init_self [])).
End Chain.

Section Twist.
#[local] Existing Instance twist_assembly.
#[local] Existing Instance twist_config.
#[local] Existing Instance ScriptedRandom.random_obj.
#[local] Existing Instance StandIn.numerics.

End Twist.

End Examples.

(** ** Frame conditions *)

Section Frames.
Context {R : RandomObj}.

(** The computation [m] leaves the attribute [f] of [self] as it found
    it, whatever its outcome. *)
Definition preserves {X A : Type} (f : Self -> X) (m : M A) : Prop :=
  forall s, f (m s).2 = f s.

(** [f] is an attribute that neither a draw from [self.__random] nor a
    [logger.error] call touches. *)
Definition read_only_attribute {X : Type} (f : Self -> X) : Prop :=
  (forall r s, f (set_random r s) = f s)
  /\ (forall l s, f (set_error_log l s) = f s).

End Frames.

(** The coverage table gives every graph segment a non-negative number. *)
Definition covers_all_segments {G : Assembly} (m : gmap string Q) : Prop :=
  forall v, v ∈ vertex_info.*1 -> exists c, m !! v = Some c /\ (0 <= c)%Q.

(** The circular walk [p] read cyclically: [m] segments from offset [k],
    for [k] up to twice and [m] up to once the length of [p]. *)
Definition cyclic_read {A} (p : list A) (k m : nat) : list A :=
  take m (drop k (p ++ p ++ p)).

(** The sampling loop has returned within [rounds] rounds. *)
Definition returns_within {G : Assembly} {R : RandomObj} {N : Numerics} {C : Config}
    (traverse : M (list (string * bool))) (rounds : nat) (s : Self) : Prop :=
  exists out, fst (search_loop traverse rounds 0 0 s) = Ok out.

(** [try_start] splits [v_list_shuffled]: the [gcd] windows of [unit_len]
    names that follow one another from [try_start] all have the composition
    [unit_counts]. *)
Definition splitting_offset {G : Assembly} (unit_counts : list nat)
    (v_list_shuffled : list string) (unit_len gcd try_start : nat) : Prop :=
  forall go_u, go_u < gcd ->
    get_v_counts (slice (try_start + unit_len * go_u) (try_start + unit_len * (go_u + 1))
                    v_list_shuffled) = unit_counts.

(** What [__decompose_hetero_units] returns for the walk [p] when the
    counts have a common divisor [g] other than 1: [g] is 2 or more and
    the length [u] of a unit is not 0.  With [reseed_at] the offset that the
    random object gives and
    [path_shuffled] the walk rotated by it: the walk as it is when no
    offset below [u] splits; otherwise, for the first offset [try_start]
    that splits and the number [c] of units per block that
    [local_max_alignment_len] allows, the standardized forms of the circular
    ones among the blocks cut from [path_shuffled]; cut one after the other,
    the blocks put together are the walk read cyclically from offset
    [try_start - reseed_at]. *)
Definition decomposition_shape {G : Assembly} {R : RandomObj} {N : Numerics} {C : Config}
    (p : list (string * bool)) (s : Self) (out : list (list (string * bool))) : Prop :=
  let v_list := p.*1 in
  let g := find_greatest_common_divisor (get_v_counts v_list) in
  let unit_counts := (fun v_count => v_count / g) <$> get_v_counts v_list in
  let u := length p / g in
  let reseed_at := (rng_randint 0 (Z.of_nat u - 1) (random s)).1 in
  let from := (Z.of_nat (length p) - reseed_at)%Z in
  let v_list_shuffled := py_suffix from v_list ++ v_list ++ take u v_list in
  let path_shuffled := py_suffix from p ++ p ++ take u p in
  let splits := splitting_offset unit_counts v_list_shuffled u g in
  2 <= g /\ 0 < u
  /\ (((forall t, t < u -> ~ splits t) /\ out = [p])
      \/ exists try_start lmal,
       try_start < u /\ splits try_start /\ (forall t, t < try_start -> ~ splits t)
       /\ local_max_alignment_len s = Some lmal
       /\ let unit_seq_len :=
            get_path_length (slice try_start (try_start + u) path_shuffled) in
          let c := Z.to_nat (Z.min (Z.max (Z.quot (lmal - 2) unit_seq_len) 1)
                                   (Z.of_nat g)) in
          let raw := unit_blocks path_shuffled try_start u c g in
          unit_seq_len <> 0%Z /\ 1 <= c <= g
          /\ out = get_standardized_circular_path
                     <$> filter (fun q => is_circular_path q = true) raw
          /\ concat raw = take (u * c * (g / c)) (drop try_start path_shuffled)
          /\ ((0 <= reseed_at < Z.of_nat u)%Z ->
              concat raw
              = cyclic_read p (try_start + length p - Z.to_nat reseed_at)
                            (u * c * (g / c)))).



(** The multiplicity of [v] that [__get_cov_mean] goes on with after the
    [if exclude_path:] block: that in the walk less that in the exclusion
    path, or that in the walk where the exclusion path has more. *)
Definition remaining_multiplicity (p ex : list (string * bool)) (v : string) : nat :=
  let in_walk := count_occ string_dec p.*1 v in
  let excluded := count_occ string_dec ex.*1 v in
  if in_walk <? excluded then in_walk else in_walk - excluded.

(** The vertices of the walk that are left with a multiplicity. *)
Definition remaining_vertices (p ex : list (string * bool)) : list string :=
  filter (fun v => remaining_multiplicity p ex v <> 0) (remove_dups p.*1).

(** The generator after [logger.error] was called for each of [records],
    in order. *)
Definition logged {R : RandomObj} (records : list LogRecord) (s : Self) : Self :=
  foldl (fun s r => set_error_log (error_log s ++ [r]) s) s records.
(** ** Reading the indexes *)

(** The records that the first loop of [index_readpaths_subpaths] keeps. *)
Definition kept_records {G : Assembly} {C : Config} (filter_by_graph : bool)
    : list AlignRecord :=
  List.filter (fun gaf_record =>
      negb filter_by_graph || contain_path (get_standardized_path (gaf_path gaf_record)))
    alignment.

(** Their standardized paths, one per kept record. *)
Definition kept_paths {G : Assembly} {C : Config} (filter_by_graph : bool)
    : list (list (string * bool)) :=
  (fun gaf_record => get_standardized_path (gaf_path gaf_record))
    <$> kept_records filter_by_graph.

Definition path_eq_dec (p q : list (string * bool)) : {p = q} + {p <> q} :=
  decide (p = q).

(** The read path in the direction [strand] names. *)
Definition oriented {G : Assembly} (strand : bool) (read_path : list (string * bool))
    : list (string * bool) :=
  if strand then read_path else reverse_path read_path.

(** [(read_id, strand) in self.__starting_subpath_to_readpaths[subpath]],
    false when the key is missing. *)
Definition indexed_start {R : RandomObj} (s : Self) (subpath : list (string * bool))
    (read_id : nat) (strand : bool) : Prop :=
  exists st, starting_subpath_to_readpaths s !! subpath = Some st
             /\ (read_id, strand) ∈ st.

(** The same for [self.__middle_subpath_to_readpaths]. *)
Definition indexed_middle {R : RandomObj} (s : Self) (subpath : list (string * bool))
    (read_id : nat) (strand : bool) : Prop :=
  exists st, middle_subpath_to_readpaths s !! subpath = Some st
             /\ (read_id, strand) ∈ st.

(** [self.read_paths] and [self.__read_paths_counter] hold the paths of
    [done], each once, with the number of times it occurs. *)
Definition counts_reads {R : RandomObj} (s : Self) (done : list (list (string * bool)))
    : Prop :=
  NoDup (read_paths s)
  /\ (forall p, p ∈ read_paths s <-> p ∈ done)
  /\ (forall p, read_paths_counter s !! p
                = if count_occ path_eq_dec done p =? 0 then None
                  else Some (count_occ path_eq_dec done p)).

(** [self.graph.vertex_info[v_name].len], 0 for a name outside the graph. *)
Definition vertex_len {G : Assembly} (v_name : string) : nat :=
  default 0 (len <$> vertex_lookup v_name).

(** [self.contig_coverages[v_name]], 0 for a missing key. *)
Definition table_cov {R : RandomObj} (s : Self) (v_name : string) : Q :=
  default 0%Q (contig_coverages s !! v_name).

(** The lengths of the segments of a path, added up over its positions. *)
Definition path_segment_total {G : Assembly} (p : list (string * bool)) : nat :=
  sum_list (vertex_len <$> p.*1).

(** [self.components] lists the keys of [self.components_counts], each
    once, and every count is at least one. *)
Definition components_in_sync {R : RandomObj} (s : Self) : Prop :=
  NoDup (components s)
  /\ (forall p, p ∈ components s <-> is_Some (components_counts s !! p))
  /\ (forall p c, components_counts s !! p = Some c -> 1 <= c).

(** The counts of the stored components, added up. *)
Definition walks_counted {R : RandomObj} (s : Self) : nat :=
  sum_list ((fun p => default 0 (components_counts s !! p)) <$> components s).

(** ** One step of the traverser, seen from its recursive call

    [extend] stands for the recursive call of [__heuristic_extend_path].
    [hands_over extend p not_do_reverse appended res]: whenever the step
    [res] returns a path, the path is [p] itself, returned because the
    reverse direction was done already, or it is what the recursive call
    returned, made on the reverse of [p] with [not_do_reverse=True], or made
    on [p] extended by some [ext] that satisfies [appended]. *)
Definition hands_over {G : Assembly} {R : RandomObj}
    (extend : list (string * bool) -> bool -> M (list (string * bool)))
    (p : list (string * bool)) (not_do_reverse : bool)
    (appended : list (string * bool) -> Prop)
    (res : outcome (list (string * bool)) * Self) : Prop :=
  forall out s', res = (Ok out, s') ->
    (not_do_reverse = true /\ out = p)
    \/ (exists s1, not_do_reverse = false
                   /\ extend (reverse_path p) true s1 = (Ok out, s'))
    \/ (exists ext s1, appended ext
                       /\ extend (p ++ ext) not_do_reverse s1 = (Ok out, s')).

(** [self.graph.vertex_info[last_name].connections[last_end]] for the last
    vertex of [p]; empty when there is none. *)
Definition next_connections_of {G : Assembly} (p : list (string * bool))
    : list (string * bool) :=
  match last p with
  | Some (last_name, last_end) =>
      match vertex_lookup last_name with
      | Some vx => connections vx last_end
      | None => []
      end
  | None => []
  end.

(** ** GraphAlignRecords.py: the record classes and the reader

    [int(...)] and [float(...)] on strings are the fields of the class
    [Builtins] ([None] is Python's [ValueError]); reading the file with
    [csv.reader] is outside the model, whose input is the rows the reader
    yields, each a list of strings. *)
Module GraphAlignRecords.
#[local] Open Scope string_scope.

Class Builtins := {
  py_int : string -> option Z;
  py_float : string -> option Q
}.

(** Python exceptions of the parsing code. *)
Inductive error :=
| IndexErr | KeyErr | ValueErr | ZeroDivisionErr | TypeErr | AttributeErr
| AssertionErr | UnsupportedFormat | OutOfFuel.

Inductive result (A : Type) :=
| Done (a : A)
| Fail (e : error).
#[global] Arguments Done {A} a.
#[global] Arguments Fail {A} e.

#[global] Instance result_ret : MRet result := fun A a => Done a.
#[global] Instance result_bind : MBind result := fun A B f m =>
  match m with
  | Done a => f a
  | Fail e => Fail e
  end.

#[global] Instance result_fmap : FMap result := fun A B f m =>
  match m with
  | Done a => Done (f a)
  | Fail e => Fail e
  end.

(** A lookup that raises [e] when it fails. *)
Definition orelse {A} (e : error) (o : option A) : result A :=
  match o with Some a => Done a | None => Fail e end.

(** A list comprehension whose items may raise. *)
Fixpoint traverse {A B} (f : A -> result B) (l : list A) : result (list B) :=
  match l with
  | [] => Done []
  | a :: l' => b ← f a; bs ← traverse f l'; Done (b :: bs)
  end.

(** [CONVERT_STRAND[key]]. *)
Definition CONVERT_STRAND (key : string) : option bool :=
  if String.eqb key "+" then Some true
  else if String.eqb key "-" then Some false
  else None.

(** [s.split(sep)] for a separator of one character. *)
Fixpoint split (sep : ascii) (s : string) : list string :=
  match s with
  | EmptyString => [EmptyString]
  | String c rest =>
      if Ascii.eqb c sep then EmptyString :: split sep rest
      else match split sep rest with
           | tok :: toks => String c tok :: toks
           | [] => [String c EmptyString]
           end
  end.

(** The character class of [CIGAR_ALPHA_REG = "([MIDNSHPX=])"]. *)
Definition is_cigar_alpha (c : ascii) : bool :=
  existsb (Ascii.eqb c) (list_ascii_of_string "MIDNSHPX=").

(** [re.split(CIGAR_ALPHA_REG, s)]: the texts between the matches, with
    the matched letters in between, as the pattern's group is capturing. *)
Fixpoint re_split (s : string) : list string :=
  match s with
  | EmptyString => [EmptyString]
  | String c rest =>
      if is_cigar_alpha c then EmptyString :: String c EmptyString :: re_split rest
      else match re_split rest with
           | tok :: toks => String c tok :: toks
           | [] => [String c EmptyString]
           end
  end.

(** [(s[:-1], s[-1])], [None] for the empty string. *)
Fixpoint unsnoc (s : string) : option (string * ascii) :=
  match s with
  | EmptyString => None
  | String c rest =>
      match unsnoc rest with
      | None => Some (EmptyString, c)
      | Some (init, z) => Some (String c init, z)
      end
  end.

(** A value of [self.optional_fields]. *)
Inductive field_value :=
| FInt (z : Z)
| FStr (s : string)
| FFloat (q : Q).

Section WithBuiltins.
Context {B : Builtins}.

(** [int(record_line_split[i])]. *)
Definition int_at (record_line_split : list string) (i : nat) : result Z :=
  field ← orelse IndexErr (record_line_split !! i);
  orelse ValueErr (py_int field).

(** The loop of [split_cigar_str] over [cigar_split], two items a round. *)
Fixpoint cigar_pairs (cigar_split : list string) : result (list (Z * string)) :=
  match cigar_split with
  | [] => Done []
  | [count] => _ ← orelse ValueErr (py_int count); Fail IndexErr
  | count :: op :: rest =>
      n ← orelse ValueErr (py_int count);
      ps ← cigar_pairs rest;
      Done ((n, op) :: ps)
  end.

(** [GAFRecord.split_cigar_str], from the value of the [cg] field. *)
Definition split_cigar_str (cg : field_value) : result (list (Z * string)) :=
  match cg with
  | FStr cigar_str => cigar_pairs (removelast (re_split cigar_str))
  | _ => Fail TypeErr
  end.

(** One round of [for flag_type_val in record_line_split[12:]]. *)
Definition read_optional_field (optional_fields : gmap string field_value)
    (flag_type_val : string) : result (gmap string field_value) :=
  match split ":" flag_type_val with
  | [op_flag; op_type; op_val] =>
      if String.eqb op_type "i" then
        z ← orelse ValueErr (py_int op_val);
        Done (<[op_flag := FInt z]> optional_fields)
      else if String.eqb op_type "Z" then
        Done (<[op_flag := FStr op_val]> optional_fields)
      else if String.eqb op_type "f" then
        q ← orelse ValueErr (py_float op_val);
        Done (<[op_flag := FFloat q]> optional_fields)
      else Done optional_fields
  | _ => Fail ValueErr
  end.

Fixpoint read_optional_fields (optional_fields : gmap string field_value)
    (fields : list string) : result (gmap string field_value) :=
  match fields with
  | [] => Done optional_fields
  | flag_type_val :: rest =>
      optional_fields ← read_optional_field optional_fields flag_type_val;
      read_optional_fields optional_fields rest
  end.

End WithBuiltins.

(** The attributes of a [GAFRecord]. *)
Module GAF.
Record t := {
  query_name : string;
  query_len : Z;
  q_start : Z;
  q_end : Z;
  q_strand : bool;
  path_str : string;
  path : list (string * bool);
  p_len : Z;
  p_start : Z;
  p_end : Z;
  p_align_len : Z;
  num_match : Z;
  align_len : Z;
  align_quality : Z;
  optional_fields : gmap string field_value;
  cigar : option (list (Z * string));
  identity : field_value
}.

(** [del self.path[0]] and [del self.path[-1]]. *)
Definition set_path (x : list (string * bool)) (r : t) : t :=
  {| query_name := query_name r; query_len := query_len r; q_start := q_start r;
     q_end := q_end r; q_strand := q_strand r; path_str := path_str r; path := x;
     p_len := p_len r; p_start := p_start r; p_end := p_end r;
     p_align_len := p_align_len r; num_match := num_match r; align_len := align_len r;
     align_quality := align_quality r; optional_fields := optional_fields r;
     cigar := cigar r; identity := identity r |}.
End GAF.

(** The attributes of a [SPATSVRecord]. *)
Module SPATSV.
Record t := {
  query_name : string;
  q_start : Z;
  q_end : Z;
  p_start : Z;
  query_len : Z;
  q_align_len : Z;
  path_str : string;
  path : list (string * bool);
  path_align_lengths : list Z;
  q_strand : bool;
  p_align_len : Z;
  p_end : Z;
  align_len : Z
}.

Definition set_path (x : list (string * bool)) (r : t) : t :=
  {| query_name := query_name r; q_start := q_start r; q_end := q_end r;
     p_start := p_start r; query_len := query_len r; q_align_len := q_align_len r;
     path_str := path_str r; path := x; path_align_lengths := path_align_lengths r;
     q_strand := q_strand r; p_align_len := p_align_len r; p_end := p_end r;
     align_len := align_len r |}.
End SPATSV.

(** [sep.join(l)]. *)
Fixpoint join (sep : ascii) (l : list string) : string :=
  match l with
  | [] => EmptyString
  | [tok] => tok
  | tok :: rest => tok ++ String sep (join sep rest)
  end.

(** A path as SPAligner writes it: each vertex name followed by its
    sign, with commas in between. *)
Definition spa_token (ve : string * bool) : string :=
  ve.1 ++ (if ve.2 then "+" else "-").
Definition spa_path_str (vertices : list (string * bool)) : string :=
  join "," (spa_token <$> vertices).

(** [c] does not occur in [s]. *)
Definition free_of (c : ascii) (s : string) : Prop :=
  ~ In c (list_ascii_of_string s).

(** A CIGAR string put together from its operations, each the text of a
    count and an operation letter, and a text [rest] after the last one. *)
Fixpoint cigar_text (ops : list (string * ascii)) (rest : string) : string :=
  match ops with
  | [] => rest
  | (count, op) :: ops' => count ++ String op (cigar_text ops' rest)
  end.

(** The text holds no operation letter. *)
Definition no_cigar_alpha (s : string) : Prop :=
  forall c, In c (list_ascii_of_string s) -> is_cigar_alpha c = false.

Section Records.
Context {B : Builtins}.

(** [GAFRecord.__init__(record_line_split, parse_cigar)]. *)
Definition GAFRecord_init (record_line_split : list string) (parse_cigar : bool)
    : result GAF.t :=
  query_name ← orelse IndexErr (record_line_split !! 0);
  query_len ← int_at record_line_split 1;
  q_start ← int_at record_line_split 2;
  q_end ← int_at record_line_split 3;
  strand ← orelse IndexErr (record_line_split !! 4);
  q_strand ← orelse KeyErr (CONVERT_STRAND strand);
  path_str ← orelse IndexErr (record_line_split !! 5);
  let path := GAFRecord.parse_gaf_path path_str in
  p_len ← int_at record_line_split 6;
  p_start ← int_at record_line_split 7;
  p_end ← int_at record_line_split 8;
  let p_align_len := (p_end - p_start)%Z in
  num_match ← int_at record_line_split 9;
  align_len ← int_at record_line_split 10;
  align_quality ← int_at record_line_split 11;
  optional_fields ← read_optional_fields ∅ (drop 12 record_line_split);
  cigar ← (if parse_cigar then
             match optional_fields !! "cg" with
             | Some cg => Some <$> split_cigar_str cg
             | None => Done (@None (list (Z * string)))
             end
           else Done None);
  (* the default of [dict.get] is computed before the lookup *)
  default_identity ← (if (align_len =? 0)%Z then Fail ZeroDivisionErr
                      else Done (FFloat (inject_Z num_match / inject_Z align_len)));
  let identity := default default_identity (optional_fields !! "id") in
  Done {| GAF.query_name := query_name; GAF.query_len := query_len;
          GAF.q_start := q_start; GAF.q_end := q_end; GAF.q_strand := q_strand;
          GAF.path_str := path_str; GAF.path := path; GAF.p_len := p_len;
          GAF.p_start := p_start; GAF.p_end := p_end; GAF.p_align_len := p_align_len;
          GAF.num_match := num_match; GAF.align_len := align_len;
          GAF.align_quality := align_quality; GAF.optional_fields := optional_fields;
          GAF.cigar := cigar; GAF.identity := identity |}.

(** [SPATSVRecord.parse_spa_tsv_path], from [self.path_str]. *)
Definition parse_spa_tsv_path (path_str : string) : result (list (string * bool)) :=
  traverse (fun v_str =>
      '(name, sign) ← orelse IndexErr (unsnoc v_str);
      strand ← orelse KeyErr (CONVERT_STRAND (String sign EmptyString));
      Done (name, strand))
    (split "," path_str).

(** [SPATSVRecord.__init__(record_line_split)]. *)
Definition SPATSVRecord_init (record_line_split : list string) : result SPATSV.t :=
  query_name ← orelse IndexErr (record_line_split !! 0);
  q_start ← int_at record_line_split 1;
  q_end ← int_at record_line_split 2;
  p_start ← int_at record_line_split 3;
  query_len ← int_at record_line_split 5;
  let q_align_len := (Z.abs (q_start - q_end) + 1)%Z in
  path_str ← orelse IndexErr (record_line_split !! 6);
  path ← parse_spa_tsv_path path_str;
  lengths ← orelse IndexErr (record_line_split !! 7);
  path_align_lengths ← traverse (fun _len_ => orelse ValueErr (py_int _len_))
                          (split "," lengths);
  let q_strand := (q_start <=? q_end)%Z in
  let p_align_len := foldr Z.add 0%Z path_align_lengths in
  let p_end := (p_start + p_align_len)%Z in
  let align_len := Z.max p_align_len q_align_len in
  Done {| SPATSV.query_name := query_name; SPATSV.q_start := q_start;
          SPATSV.q_end := q_end; SPATSV.p_start := p_start;
          SPATSV.query_len := query_len; SPATSV.q_align_len := q_align_len;
          SPATSV.path_str := path_str; SPATSV.path := path;
          SPATSV.path_align_lengths := path_align_lengths;
          SPATSV.q_strand := q_strand; SPATSV.p_align_len := p_align_len;
          SPATSV.p_end := p_end; SPATSV.align_len := align_len |}.

End Records.

(** The arguments of [GraphAlignRecords.__init__] besides the file;
    [assembly_graph] is [None] or the graph together with what its
    [overlap()] returns. *)
Record Options := {
  alignment_format : string;
  parse_cigar : bool;
  min_aligned_path_len : Z;
  min_align_len : Z;
  min_identity : Q;
  trim_overlap_with_graph : bool;
  assembly_graph : option (Assembly * option Z)
}.

(** [self.records] after the reading loop: all of one class. *)
Inductive records :=
| GAFRecords (rs : list GAF.t)
| SPATSVRecords (rs : list SPATSV.t).

(** The loops of the shape
    [go_r = 0; while go_r < len(self.records): ... del self.records[go_r] /
    go_r += 1]: [step] tells for the record at [go_r] whether it is deleted
    ([None]) or kept, possibly changed in place.  [fuel] bounds the rounds. *)
Fixpoint del_loop {A} (step : A -> result (option A)) (fuel : nat) (go_r : nat)
    (rs : list A) : result (list A) :=
  match rs !! go_r with
  | None => Done rs
  | Some r =>
      match fuel with
      | 0 => Fail OutOfFuel
      | S fuel' =>
          kept ← step r;
          match kept with
          | None => del_loop step fuel' go_r (delete go_r rs)
          | Some r' => del_loop step fuel' (S go_r) (<[go_r := r']> rs)
          end
      end
  end.

(** [x < self.min_identity] for a value of [optional_fields] or a float. *)
Definition identity_below (identity : field_value) (bound : Q) : result bool :=
  match identity with
  | FInt z => Done (negb (Qle_bool bound (inject_Z z)))
  | FFloat q => Done (negb (Qle_bool bound q))
  | FStr _ => Fail TypeErr
  end.

(** A value of [optional_fields] as a number, when it is one. *)
Definition field_number (v : field_value) : option Q :=
  match v with
  | FInt z => Some (inject_Z z)
  | FFloat q => Some q
  | FStr _ => None
  end.

(** What the three threshold filters let through. *)
Definition passes_thresholds (o : Options) {A} (p_align_len align_len : A -> Z)
    (identity : option (A -> field_value)) (r : A) : bool :=
  ((min_aligned_path_len o =? 0) || (min_aligned_path_len o <=? p_align_len r))%Z
  && ((min_align_len o <=? min_aligned_path_len o) || (min_align_len o <=? align_len r))%Z
  && match identity with
     | Some identity =>
         Qeq_bool (min_identity o) 0
         || match field_number (identity r) with
            | Some q => Qle_bool (min_identity o) q
            | None => false
            end
     | None => true
     end.

(** [r'] is [r] with at most one segment taken off each end of its path,
    and not all of them. *)
Definition trimmed_from (r r' : GAF.t) : Prop :=
  exists a b,
    a <= 1 /\ b <= 1
    /\ GAF.path r' = drop a (take (length (GAF.path r) - b) (GAF.path r))
    /\ r' = GAF.set_path (GAF.path r') r
    /\ (GAF.path r <> [] -> GAF.path r' <> []).

Section Reader.
Context {B : Builtins} (o : Options).

(** The three threshold filters, over the attributes they read;
    [identity] is [None] for the format that has none. *)
Definition threshold_filters {A} (p_align_len align_len : A -> Z)
    (identity : option (A -> field_value)) (fuel : nat) (rs : list A)
    : result (list A) :=
  rs ← (if (min_aligned_path_len o =? 0)%Z then Done rs
        else del_loop (fun r =>
               Done (if (p_align_len r <? min_aligned_path_len o)%Z then None else Some r))
             fuel 0 rs);
  rs ← (if (min_aligned_path_len o <? min_align_len o)%Z then
          del_loop (fun r =>
               Done (if (align_len r <? min_align_len o)%Z then None else Some r))
             fuel 0 rs
        else Done rs);
  match identity with
  | Some identity =>
      if Qeq_bool (min_identity o) 0 then Done rs
      else del_loop (fun r =>
             below ← identity_below (identity r) (min_identity o);
             Done (if below : bool then None else Some r))
           fuel 0 rs
  | None => Done rs
  end.

(** The body of the trimming loop for a GAF record. *)
Definition trim_gaf_record (graph : Assembly) (this_overlap : Z) (gaf_record : GAF.t)
    : result (option GAF.t) :=
  let path := GAF.path gaf_record in
  if (1 <? length path)%nat then
    '(head_v, _) ← orelse IndexErr (head path);
    '(tail_v, _) ← orelse IndexErr (last path);
    match vertex_lookup (G := graph) head_v, vertex_lookup (G := graph) tail_v with
    | Some head_vertex, Some tail_vertex =>
        let head_vertex_len := Z.of_nat (len head_vertex) in
        let tail_vertex_len := Z.of_nat (len tail_vertex) in
        let path :=
          if (head_vertex_len - GAF.p_start gaf_record <=? this_overlap)%Z
          then tail path else path in
        let path :=
          if (tail_vertex_len - (GAF.p_len gaf_record - GAF.p_end gaf_record - 1)
              <=? this_overlap)%Z
          then removelast path else path in
        match path with
        | [] => Done None
        | _ => Done (Some (GAF.set_path path gaf_record))
        end
    | _, _ => Done None
    end
  else Done (Some gaf_record).

(** The body of the trimming loop for a SPAligner record. *)
Definition trim_spa_tsv_record (graph : Assembly) (this_overlap : Z)
    (spa_tsv_record : SPATSV.t) : result (option SPATSV.t) :=
  let path := SPATSV.path spa_tsv_record in
  if (1 <? length path)%nat then
    '(head_v, _) ← orelse IndexErr (head path);
    match vertex_lookup (G := graph) head_v with
    | Some head_vertex =>
        let head_vertex_len := Z.of_nat (len head_vertex) in
        let path :=
          if (head_vertex_len - SPATSV.p_start spa_tsv_record <=? this_overlap)%Z
          then tail path else path in
        last_len ← orelse IndexErr (last (SPATSV.path_align_lengths spa_tsv_record));
        let path :=
          if (last_len <=? this_overlap)%Z then removelast path else path in
        match path with
        | [] => Done None
        | _ => Done (Some (SPATSV.set_path path spa_tsv_record))
        end
    | None => Done None
    end
  else Done (Some spa_tsv_record).

(** The block [if self.trim_overlap_with_graph: ... else: logger.warning];
    the boolean tells whether the warning was logged. *)
Definition trim_overlaps (fuel : nat) (rs : records) : result (records * bool) :=
  if trim_overlap_with_graph o then
    '(graph, check2) ← orelse AttributeErr (assembly_graph o);
    match check2 with
    | Some this_overlap =>
        if (this_overlap =? 0)%Z then Done (rs, false)
        else
          match rs with
          | GAFRecords rs =>
              rs ← del_loop (trim_gaf_record graph this_overlap) fuel 0 rs;
              Done (GAFRecords rs, false)
          | SPATSVRecords rs =>
              rs ← del_loop (trim_spa_tsv_record graph this_overlap) fuel 0 rs;
              Done (SPATSVRecords rs, false)
          end
    | None => Done (rs, false)
    end
  else Done (rs, true).

(** The reading loops over the rows that [csv.reader] yields. *)
Definition read_rows (rows : list (list string)) : result records :=
  if String.eqb (alignment_format o) "GAF" then
    GAFRecords <$> traverse (fun line_split => GAFRecord_init line_split (parse_cigar o)) rows
  else if String.eqb (alignment_format o) "SPA-TSV" then
    rs ← traverse (fun line_split =>
            field ← orelse IndexErr (line_split !! 1);
            if existsb (Ascii.eqb ",") (list_ascii_of_string field)
            then Done None
            else Some <$> SPATSVRecord_init line_split) rows;
    Done (SPATSVRecords (omap id rs))
  else Fail UnsupportedFormat.

(** [parse_alignment_file_single], from the rows of the file. *)
Definition parse_alignment_file_single (fuel : nat) (rows : list (list string))
    : result (records * bool) :=
  rs ← read_rows rows;
  rs ← match rs with
       | GAFRecords rs =>
           GAFRecords <$> threshold_filters GAF.p_align_len GAF.align_len
                            (Some GAF.identity) fuel rs
       | SPATSVRecords rs =>
           SPATSVRecords <$> threshold_filters SPATSV.p_align_len SPATSV.align_len
                               None fuel rs
       end;
  trim_overlaps fuel rs.

(** [GraphAlignRecords.__init__]: the format check, then the parsing. *)
Definition GraphAlignRecords_init (fuel : nat) (rows : list (list string))
    : result (records * bool) :=
  if String.eqb (alignment_format o) "GAF" || String.eqb (alignment_format o) "SPA-TSV"
  then parse_alignment_file_single fuel rows
  else Fail AssertionErr.

End Reader.

End GraphAlignRecords.
(** ** More example inputs *)

Module RunExamples.
Import Examples.

Section Loop.
#[local] Existing Instance loop_assembly.
#[local] Existing Instance loop_config.
#[local] Existing Instance ScriptedRandom.random_obj.
#[local] Existing Instance StandIn.numerics.

(** The loop's generator after [index_readpaths_subpaths]; every draw of
    its random object is 0. *)
Definition loop_indexed : Self :=
  snd (index_readpaths_subpaths true (init_self [])).

(** The same once the coverages are copied from the graph. *)
Definition loop_self : Self :=
  snd ((index_readpaths_subpaths true;;
        use_contig_coverage_from_assembly_graph) (init_self [])).

(** And once the sampler has run, three rounds of fuel for the loop and
    thirty levels for a traversal. *)
Definition loop_sampled : Self := snd (gen_heuristic_paths_uni 3 30 loop_self).
End Loop.

End RunExamples.

(** Lines of alignment files, and the records they give. *)
Module RecordExamples.
Import GraphAlignRecords.
#[local] Open Scope string_scope.

(** A stand-in for [int] on strings: decimal digits, with [-] in front
    for a negative number; blanks, [+] and underscores are not read. *)
Definition digit (c : ascii) : option Z :=
  let n := nat_of_ascii c in
  if ((48 <=? n) && (n <=? 57))%nat then Some (Z.of_nat (n - 48)) else None.

Fixpoint digits (acc : Z) (s : string) : option Z :=
  match s with
  | EmptyString => Some acc
  | String c rest => d ← digit c; digits (10 * acc + d)%Z rest
  end.

Definition decimal (s : string) : option Z :=
  match s with
  | EmptyString => None
  | String "-" EmptyString => None
  | String "-" rest => Z.opp <$> digits 0 rest
  | _ => digits 0 s
  end.

(** [float] on the same strings. *)
Definition decimal_builtins : Builtins :=
  {| py_int := decimal; py_float := fun s => inject_Z <$> decimal s |}.

Definition gaf_line_1 : list string :=
  ["read1"; "1000"; "0"; "900"; "+"; ">A<B"; "200"; "95"; "150"; "850"; "900"; "60";
   "NM:i:50"; "cg:Z:10M2I5="].
Definition gaf_line_2 : list string :=
  ["read2"; "500"; "10"; "400"; "-"; ">B"; "100"; "0"; "20"; "20"; "30"; "60"; "id:f:1"].
Definition gaf_line_3 : list string :=
  ["read3"; "800"; "0"; "700"; "+"; ">Z>A"; "300"; "0"; "290"; "650"; "700"; "60"].

Definition gaf_record_1 : GAF.t :=
  {| GAF.query_name := "read1"; GAF.query_len := 1000; GAF.q_start := 0;
     GAF.q_end := 900; GAF.q_strand := true; GAF.path_str := ">A<B";
     GAF.path := [("A", true); ("B", false)]; GAF.p_len := 200; GAF.p_start := 95;
     GAF.p_end := 150; GAF.p_align_len := 55; GAF.num_match := 850;
     GAF.align_len := 900; GAF.align_quality := 60;
     GAF.optional_fields := <["cg" := FStr "10M2I5="]> (<["NM" := FInt 50]> ∅);
     GAF.cigar := Some [(10%Z, "M"); (2%Z, "I"); (5%Z, "=")];
     GAF.identity := FFloat (inject_Z 850 / inject_Z 900) |}.

Definition gaf_record_2 : GAF.t :=
  {| GAF.query_name := "read2"; GAF.query_len := 500; GAF.q_start := 10;
     GAF.q_end := 400; GAF.q_strand := false; GAF.path_str := ">B";
     GAF.path := [("B", true)]; GAF.p_len := 100; GAF.p_start := 0;
     GAF.p_end := 20; GAF.p_align_len := 20; GAF.num_match := 20;
     GAF.align_len := 30; GAF.align_quality := 60;
     GAF.optional_fields := <["id" := FFloat (inject_Z 1)]> ∅;
     GAF.cigar := None;
     GAF.identity := FFloat (inject_Z 1) |}.

Definition gaf_record_3 : GAF.t :=
  {| GAF.query_name := "read3"; GAF.query_len := 800; GAF.q_start := 0;
     GAF.q_end := 700; GAF.q_strand := true; GAF.path_str := ">Z>A";
     GAF.path := [("Z", true); ("A", true)]; GAF.p_len := 300; GAF.p_start := 0;
     GAF.p_end := 290; GAF.p_align_len := 290; GAF.num_match := 650;
     GAF.align_len := 700; GAF.align_quality := 60;
     GAF.optional_fields := ∅;
     GAF.cigar := None;
     GAF.identity := FFloat (inject_Z 650 / inject_Z 700) |}.

(** The line of the comment in [SPATSVRecord.__init__], shortened. *)
Definition spa_line : list string :=
  ["name"; "0"; "2491"; "536"; "1142"; "2491"; "44+,24+,38-"; "909,4,1142"; "AGGT"].

Definition spa_record : SPATSV.t :=
  {| SPATSV.query_name := "name"; SPATSV.q_start := 0; SPATSV.q_end := 2491;
     SPATSV.p_start := 536; SPATSV.query_len := 2491; SPATSV.q_align_len := 2492;
     SPATSV.path_str := "44+,24+,38-";
     SPATSV.path := [("44", true); ("24", true); ("38", false)];
     SPATSV.path_align_lengths := [909; 4; 1142]%Z;
     SPATSV.q_strand := true; SPATSV.p_align_len := 2055; SPATSV.p_end := 2591;
     SPATSV.align_len := 2492 |}.

(** Thresholds on all three attributes, and trimming against the loop
    graph with an overlap of 10. *)
Definition strict_options : Options :=
  {| alignment_format := "GAF"; parse_cigar := true; min_aligned_path_len := 50;
     min_align_len := 100; min_identity := 9 # 10; trim_overlap_with_graph := true;
     assembly_graph := Some (Examples.loop_assembly, Some 10%Z) |}.

End RecordExamples.

(** * Properties *)

(** ** GAF path strings *)

Section GAFFacts.
Import GAFRecord.
#[local] Open Scope string_scope.

Lemma split_colon_0_stripped s : stripped s (split_colon_0 s).
Proof.
  induction s as [|c s [IHno IHeq]]; simpl.
  - split; [intros c []|now left].
  - destruct (Ascii.eqb_spec c ":"%char) as [->|Hc].
    + split; [intros c []|right; now exists s].
    + split.
      * simpl. intros x [<-|Hx]; [exact Hc|now apply IHno].
      * destruct IHeq as [Heq|[coords Heq]].
        -- left. now rewrite <- Heq.
        -- right. exists coords. exact (f_equal (String c) Heq).
Qed.

Lemma parse_segment_rule segment : token_rule segment (parse_segment segment).
Proof.
  destruct segment as [|c rest]; simpl.
  - right; right. repeat split; try discriminate; try (intros c []); now left.
  - destruct (Ascii.eqb_spec c ">"%char) as [->|Hgt].
    + left. exists rest. split; [reflexivity|]. split; [apply split_colon_0_stripped|reflexivity].
    + destruct (Ascii.eqb_spec c "<"%char) as [->|Hlt].
      * right; left. exists rest. split; [reflexivity|].
        split; [apply split_colon_0_stripped|reflexivity].
      * right; right. split; [intros r [= Hr]; contradiction|].
        split; [intros r [= Hr]; contradiction|].
        split; [apply (split_colon_0_stripped (String c rest))|reflexivity].
Qed.

(** Tokens found by the scan are never empty. *)
Lemma findall_from_nonempty cur s :
  (forall tok, cur = Some tok -> tok <> "") ->
  Forall (fun t => t <> "") (findall_from cur s).
Proof.
  revert cur. induction s as [|c s IH]; intros cur Hcur; simpl.
  - destruct cur as [tok|]; [|constructor].
    constructor; [now apply Hcur|constructor].
  - destruct cur as [tok|].
    + destruct (re_body c).
      * apply IH. intros t [= <-]. now destruct tok.
      * destruct (re_dot c).
        -- constructor; [now apply Hcur|]. apply IH. now intros t [= <-].
        -- constructor; [now apply Hcur|]. apply IH. discriminate.
    + destruct (re_dot c).
      * apply IH. now intros t [= <-].
      * apply IH. discriminate.
Qed.

Lemma append_empty_r tok : tok ++ "" = tok.
Proof.
  induction tok as [|a tok IH]; [reflexivity|]. exact (f_equal (String a) IH).
Qed.

Lemma append_snoc tok x body : (tok ++ String x "") ++ body = tok ++ String x body.
Proof.
  induction tok as [|a tok IH]; [reflexivity|]. exact (f_equal (String a) IH).
Qed.

Lemma findall_from_body tok body s :
  (forall x, In x (list_ascii_of_string body) -> re_body x = true) ->
  findall_from (Some tok) (body ++ s) = findall_from (Some (tok ++ body)) s.
Proof.
  revert tok. induction body as [|x body IH]; intros tok Hbody.
  - change ("" ++ s) with s. now rewrite append_empty_r.
  - change (String x body ++ s) with (String x (body ++ s)).
    cbn [findall_from]. rewrite Hbody by (simpl; now left).
    rewrite IH by (intros y Hy; apply Hbody; simpl; now right).
    now rewrite append_snoc.
Qed.

Lemma marker_starts_token c : c = ">"%char \/ c = "<"%char ->
  re_body c = false /\ re_dot c = true.
Proof. intros [->| ->]; split; reflexivity. Qed.

(** On a string made of well-formed tokens the scan returns the tokens. *)
Lemma findall_tokens tokens :
  Forall gaf_token tokens ->
  re_findall (concat_tokens tokens) = tokens.
Proof.
  unfold re_findall.
  assert (Hgen : forall tokens, Forall gaf_token tokens ->
            (findall_from None (concat_tokens tokens) = tokens)
            /\ (forall tok, findall_from (Some tok) (concat_tokens tokens) = tok :: tokens)).
  { clear tokens. induction 1 as [|t ts (c & body & -> & Hc & Hbody) _ [IH1 IH2]].
    - split; reflexivity.
    - destruct (marker_starts_token c Hc) as [Hb Hd].
      change (concat_tokens (String c body :: ts))
        with (String c (body ++ concat_tokens ts)).
      split; [|intros tok]; cbn [findall_from]; rewrite ?Hb, Hd;
        rewrite findall_from_body by assumption; rewrite IH2; reflexivity. }
  intros H. now apply Hgen.
Qed.

(** C9. For every GAF path string, each token found by the scan is turned
    into an oriented segment by the rule: a leading [>] gives
    [(name, True)], a leading [<] gives [(name, False)], no marker gives
    [(name, True)]; in each case [name] is the token's text (after the
    marker) up to its first colon, so it holds no colon.  Tokens are never
    empty, and a string written as a row of well-formed tokens is split
    into exactly these tokens. *)
Theorem parse_gaf_path_token_rule (path_str : string) :
  Forall2 token_rule (re_findall path_str) (parse_gaf_path path_str)
  /\ Forall (fun t => t <> "") (re_findall path_str)
  /\ (forall tokens, Forall gaf_token tokens ->
        parse_gaf_path (concat_tokens tokens) = map parse_segment tokens).
Proof.
  split; [|split].
  - unfold parse_gaf_path. induction (re_findall path_str); simpl; constructor.
    + apply parse_segment_rule.
    + assumption.
  - apply findall_from_nonempty. discriminate.
  - intros tokens H. unfold parse_gaf_path. now rewrite findall_tokens.
Qed.

Example parse_gaf_path_example :
  parse_gaf_path ">s1:10-20<s2>s3" = [("s1", true); ("s2", false); ("s3", true)].
Proof. reflexivity. Qed.

Example parse_gaf_path_unmarked :
  parse_gaf_path "s1>s2" = [("s1", true); ("s2", true)].
Proof. reflexivity. Qed.

End GAFFacts.

(** ** Indexing of the read paths *)

Section IndexFacts.
Context {G : Assembly} {R : RandomObj} {N : Numerics} {C : Config}.










(** Every call of the two indexing methods returns normally. *)
Lemma run_index_calls_ok calls s :
  exists s', forM_ run_index_call calls s = (Ok tt, s').
Proof.
  revert s. induction calls as [|c calls IH]; intros s.
  - now exists s.
  - cbn [forM_]. unfold mbind, M_bind.
    destruct c; cbn; apply IH.
Qed.

Lemma index_all_reads_ok (rps : list (nat * list (string * bool))) s :
  exists s',
    forM_ (fun '(read_id, this_read_path) =>
             forM_ run_index_call (read_index_calls read_id this_read_path)) rps s
    = (Ok tt, s').
Proof.
  revert s. induction rps as [|[i p] rps IH]; intros s.
  - now exists s.
  - cbn [forM_]. unfold mbind, M_bind.
    destruct (run_index_calls_ok (read_index_calls i p) s) as [s1 ->].
    apply IH.
Qed.

(** When no record is kept the first loop leaves [alignment_lengths] empty. *)
Lemma summarize_alignment_none (records : list AlignRecord) s :
  Forall (fun r => contain_path (get_standardized_path (gaf_path r)) = false) records ->
  foldM (fun alignment_lengths gaf_record =>
    let this_read_path := get_standardized_path (gaf_path gaf_record) in
    if true then
      if contain_path this_read_path then
        count_read_path this_read_path;;
        mret (alignment_lengths ++ [p_align_len gaf_record])
      else mret alignment_lengths
    else
      count_read_path this_read_path;;
      mret (alignment_lengths ++ [p_align_len gaf_record]))
    [] records s = (Ok [], s).
Proof.
  induction 1 as [|r records Hr _ IH]; [reflexivity|].
  cbn [foldM]. cbv zeta. rewrite Hr. unfold mbind, M_bind. cbn. exact IH.
Qed.

(** C10. Indexing needs at least one kept record: when [self.alignment]
    is empty, or when [filter_by_graph] is on and the graph contains none
    of the standardized paths, [index_readpaths_subpaths] raises
    [IndexError] (from [sorted(alignment_lengths)[-1]]) instead of
    returning. *)
Theorem index_without_records_raises (filter_by_graph : bool) (s : Self) :
  alignment = []
  \/ (filter_by_graph = true
      /\ Forall (fun r => contain_path (get_standardized_path (gaf_path r)) = false)
                alignment) ->
  fst (index_readpaths_subpaths filter_by_graph s) = Raise IndexError.
Proof.
  intros H. unfold index_readpaths_subpaths.
  assert (Hsum : forall s0, summarize_alignment filter_by_graph s0 = (Ok [], s0)).
  { intros s0. unfold summarize_alignment. destruct H as [-> | [-> Hall]].
    - reflexivity.
    - now apply summarize_alignment_none. }
  unfold mbind at 1, M_bind at 1. cbn [modify].
  unfold mbind at 1, M_bind at 1. rewrite Hsum.
  unfold mbind at 1, M_bind at 1. cbn [gets].
  unfold mbind at 1, M_bind at 1.
  match goal with
  | |- context [forM_ ?f ?l ?s0] =>
      destruct (index_all_reads_ok l s0) as [s1 Hs1]
  end.
  rewrite Hs1. reflexivity.
Qed.

End IndexFacts.

(** ** Running the method monad *)

Section MonadFacts.
Context {R : RandomObj}.

Lemma bind_run {A B} (m : M A) (k : A -> M B) (s : Self) :
  (m ≫= k) s
  = match m s with
    | (Ok a, s') => k a s'
    | (Raise e, s') => (Raise e, s')
    | (Timeout, s') => (Timeout, s')
    end.
Proof. reflexivity. Qed.

(** A comprehension whose items all return without touching the state. *)
Lemma mapM_pure {A B} (k : A -> M B) (P : A -> B -> Prop) (l : list A) (s : Self) :
  (forall a, a ∈ l -> exists b, k a s = (Ok b, s) /\ P a b) ->
  exists bs, mapM k l s = (Ok bs, s) /\ Forall2 P l bs.
Proof.
  induction l as [|a l IH]; intros Hk.
  - exists []. split; [reflexivity|constructor].
  - destruct (Hk a) as (b & Hb & HP); [left|].
    destruct IH as (bs & Hbs & HPs); [intros a' Ha'; apply Hk; now right|].
    exists (b :: bs). split; [|now constructor].
    cbn [mapM]. rewrite bind_run, Hb, bind_run, Hbs. reflexivity.
Qed.

End MonadFacts.

(** ** The traverser *)

Section TraverserFacts.
Context {G : Assembly} {R : RandomObj} {N : Numerics} {C : Config}.

Lemma scan_new_vertex_all_seen (current_vs : list string) (extension : path)
    (counts : gmap string nat) :
  (forall v, v ∈ extension.*1 -> v ∈ current_vs) ->
  exists counts', scan_new_vertex current_vs extension counts = Some counts'.
Proof.
  revert counts. induction extension as [|[v e] extension IH]; intros counts Hseen.
  - now eexists.
  - cbn [scan_new_vertex].
    assert (Hv : v ∈ current_vs) by (apply Hseen; cbn; left).
    apply list_elem_of_In, (count_occ_In string_dec) in Hv.
    destruct (Nat.eqb_spec (count_occ string_dec current_vs v) 0) as [H0|_]; [lia|].
    apply IH. intros w Hw. apply Hseen. cbn. now right.
Qed.

Lemma py_prefix_nat {A} (n : nat) (l : list A) : py_prefix (Z.of_nat n) l = take n l.
Proof.
  unfold py_prefix. destruct (Z.ltb_spec (Z.of_nat n) 0) as [H|_]; [lia|].
  now rewrite Nat2Z.id.
Qed.

(** The source's loop over the reversed list, started where [i] entries
    are left, is the specification's countdown from [i]. *)
Lemma acceptance_loop_countdown (extend : path -> bool -> M path) (p e : path)
    (L : list Q) (not_do_reverse : bool) (i : nat) (s : Self) :
  length L = length e -> i <= length e ->
  acceptance_loop extend p e not_do_reverse (length e - i)
    (if i =? length e then 0%Q else nth i L 0%Q) (reverse (take i L)) s
  = spec_contraction extend p e L not_do_reverse i s.
Proof.
  intros HL. revert s. induction i as [|i IH]; intros s Hi.
  - reflexivity.
  - assert (Hlt : i < length L) by lia.
    destruct (lookup_lt_is_Some_2 L i Hlt) as [x Hx].
    rewrite (take_S_r L i x Hx), reverse_snoc.
    assert (Hnth : nth i L 0%Q = x) by (now apply nth_lookup_Some with (d := 0%Q) in Hx).
    cbn [acceptance_loop spec_contraction]. rewrite Hnth.
    replace (Z.of_nat (length e) - Z.of_nat (length e - S i))%Z
      with (Z.of_nat (S i)) by lia.
    rewrite py_prefix_nat.
    unfold mbind, M_bind. destruct (with_random rng_random s) as [[r| |] s1]; try reflexivity.
    destruct (Qgt_bool _ r); [reflexivity|].
    replace (S (length e - S i)) with (length e - i) by lia.
    rewrite <- IH by lia.
    destruct (Nat.eqb_spec i (length e)) as [Heq|_]; [lia|]. now rewrite Hnth.
Qed.

(** C1. In [__heuristic_check_multiplicity], for a non-empty extension
    [e] of length m none of whose vertices is new to the walk, and a
    likelihood-ratio vector [L] of length m, the acceptance loop is the
    countdown of the specification: for i = m down to 1 it draws a fresh
    uniform number and compares it with
    (L[i] - L[i+1]) / (1 - L[i+1]), L[m+1] = 0; at the first draw that is
    exceeded the walk is extended by exactly e[1..i] and the extension
    recurses; when no prefix is accepted the walk is reversed and the
    extension recurses if the other end was not tried yet, otherwise the
    walk is returned unchanged. *)
Theorem check_multiplicity_contraction (extend : path -> bool -> M path)
    (p e : path) (L : list Q) (not_do_reverse : bool) (s : Self) :
  e <> [] ->
  length L = length e ->
  (forall v, v ∈ e.*1 -> v ∈ p.*1) ->
  heuristic_check_multiplicity extend p e not_do_reverse None (Some L) s
  = spec_contraction extend p e L not_do_reverse (length e) s.
Proof.
  intros Hne HL Hseen. unfold heuristic_check_multiplicity.
  destruct e as [|o e']; [contradiction|].
  destruct (scan_new_vertex_all_seen p.*1 (o :: e') ∅ Hseen) as [counts Hcounts].
  unfold mbind at 1, M_bind at 1. cbn [mret M_ret]. rewrite Hcounts.
  unfold mbind at 1, M_bind at 1. cbn [mret M_ret].
  rewrite <- acceptance_loop_countdown by (assumption || lia).
  rewrite Nat.sub_diag, Nat.eqb_refl, <- HL, firstn_all. reflexivity.
Qed.

(** The shortcut that precedes the loop: an extension with a vertex that
    the walk does not hold yet is accepted whole. *)
Lemma check_multiplicity_new_vertex (extend : path -> bool -> M path)
    (p e : path) (cached : option (list Q)) (not_do_reverse : bool) (s : Self) :
  e <> [] ->
  (exists v, v ∈ e.*1 /\ v ∉ p.*1) ->
  heuristic_check_multiplicity extend p e not_do_reverse None cached s
  = extend (p ++ e) not_do_reverse s.
Proof.
  intros Hne (v & Hv & Hnew). unfold heuristic_check_multiplicity.
  destruct e as [|o e']; [contradiction|].
  assert (Hscan : forall counts, scan_new_vertex p.*1 (o :: e') counts = None).
  { revert Hv. generalize (o :: e'). clear -Hnew.
    induction l as [|[w b] l IH]; intros Hv counts; [inversion Hv|].
    cbn [scan_new_vertex].
    destruct (Nat.eqb_spec (count_occ string_dec p.*1 w) 0) as [_|Hw]; [reflexivity|].
    apply IH. cbn in Hv. apply elem_of_cons in Hv as [->|Hv]; [|exact Hv].
    exfalso. apply Hnew, list_elem_of_In, (count_occ_In string_dec). lia. }
  unfold mbind, M_bind. cbn [mret M_ret]. now rewrite Hscan.
Qed.

(** With an empty cached list, as the caller passes it whenever it did
    not compute likelihoods, no prefix is ever tried. *)
Lemma check_multiplicity_empty_cache (extend : path -> bool -> M path)
    (p e : path) (not_do_reverse : bool) (s : Self) :
  e <> [] ->
  (forall v, v ∈ e.*1 -> v ∈ p.*1) ->
  heuristic_check_multiplicity extend p e not_do_reverse None (Some []) s
  = (if not_do_reverse then mret p else extend (reverse_path p) true) s.
Proof.
  intros Hne Hseen. unfold heuristic_check_multiplicity.
  destruct e as [|o e']; [contradiction|].
  destruct (scan_new_vertex_all_seen p.*1 (o :: e') ∅ Hseen) as [counts Hcounts].
  unfold mbind, M_bind. cbn [mret M_ret]. now rewrite Hcounts.
Qed.

(** *** Extension along the graph *)

(** A single neighbor is proposed as it is, without any draw. *)
Lemma choose_single_connection (p : path) (ave : Q) (a : string * bool) (s : Self) :
  choose_next_connection p ave [a] s = (Ok (a, []), s).
Proof. reflexivity. Qed.

(** With exactly two neighbors the test [len(next_connections) > 2] fails
    and the first connection of the set is taken as it is. *)
Lemma choose_first_of_two (p : path) (ave : Q) (a b : string * bool) (s : Self) :
  choose_next_connection p ave [a; b] s = (Ok (a, []), s).
Proof. reflexivity. Qed.

(** The whole graph step for one and for two neighbors: the flipped first
    connection goes to the multiplicity check with an empty cached list. *)
Lemma graph_extend_few_connections (extend : path -> bool -> M path) (p : path)
    (not_do_reverse : bool) (ave : Q) (last_name : string) (last_end : bool)
    (vx : Vertex) (a : string * bool) (others : list (string * bool)) (s : Self) :
  last p = Some (last_name, last_end) ->
  vertex_lookup last_name = Some vx ->
  connections vx last_end = a :: others ->
  length others <= 1 ->
  graph_extend extend p not_do_reverse ave s
  = heuristic_check_multiplicity extend p [(a.1, negb a.2)] not_do_reverse
      None (Some []) s.
Proof.
  intros Hlast Hvx Hconn Hlen. unfold graph_extend.
  rewrite Hlast. unfold mbind at 1, M_bind at 1. cbn [lift_opt mret M_ret].
  rewrite Hvx. unfold mbind at 1, M_bind at 1. cbn [lift_opt mret M_ret].
  rewrite Hconn.
  destruct others as [|b [|c others]]; cbn in Hlen; try lia; destruct a; reflexivity.
Qed.

(** C2 (the code at the failing input). When the last oriented vertex of
    the walk has exactly two connections [a] and [b], the graph step
    proposes the first of them: it goes to the multiplicity check with the
    one-segment extension made of [a] (its end flipped) and an empty cached
    list.  No likelihood is computed and the random object is not
    consulted, whatever [hetero_chromosome] is, so [b] is never proposed. *)
Theorem two_connections_first_taken (extend : path -> bool -> M path) (p : path)
    (not_do_reverse : bool) (ave : Q) (last_name : string) (last_end : bool)
    (vx : Vertex) (a b : string * bool) (s : Self) :
  last p = Some (last_name, last_end) ->
  vertex_lookup last_name = Some vx ->
  connections vx last_end = [a; b] ->
  choose_next_connection p ave (connections vx last_end) s = (Ok (a, []), s)
  /\ graph_extend extend p not_do_reverse ave s
     = heuristic_check_multiplicity extend p [(a.1, negb a.2)] not_do_reverse
         None (Some []) s.
Proof.
  intros Hlast Hvx Hconn. split.
  - rewrite Hconn. apply choose_first_of_two.
  - apply (graph_extend_few_connections extend p not_do_reverse ave
             last_name last_end vx a [b] s Hlast Hvx Hconn).
    cbn. lia.
Qed.

End TraverserFacts.

(** ** What a traversal leaves untouched *)

Section FrameFacts.
Context {G : Assembly} {R : RandomObj} {N : Numerics} {C : Config}.
Context {X : Type} (f : Self -> X) (Hf : read_only_attribute f).

Lemma preserves_mret {A} (a : A) : preserves f (mret a).
Proof. intros s. reflexivity. Qed.

Lemma preserves_raise {A} (e : exn) : preserves f (raise (A := A) e).
Proof. intros s. reflexivity. Qed.

Lemma preserves_timeout {A} : preserves f (timeout (A := A)).
Proof. intros s. reflexivity. Qed.

Lemma preserves_gets {A} (g : Self -> A) : preserves f (gets g).
Proof. intros s. reflexivity. Qed.

Lemma preserves_lift_opt {A} (e : exn) (o : option A) : preserves f (lift_opt e o).
Proof. destruct o; intros s; reflexivity. Qed.

Lemma preserves_bind {A B} (m : M A) (k : A -> M B) :
  preserves f m -> (forall a, preserves f (k a)) -> preserves f (m ≫= k).
Proof.
  intros Hm Hk s. unfold mbind, M_bind. specialize (Hm s).
  destruct (m s) as [[a| |] s1]; cbn in *; [|assumption..].
  now rewrite Hk.
Qed.

Lemma preserves_fmap {A B} (g : A -> B) (m : M A) :
  preserves f m -> preserves f (g <$> m).
Proof.
  intros Hm. unfold fmap, M_fmap. apply preserves_bind; [assumption|].
  intros a. apply preserves_mret.
Qed.

Lemma preserves_with_random {A} (g : rng -> A * rng) : preserves f (with_random g).
Proof using Hf.
  intros s. unfold with_random. destruct (g (random s)) as [a r]. apply Hf.
Qed.

Lemma preserves_logger_error (r : LogRecord) : preserves f (logger_error r).
Proof using Hf. intros s. apply Hf. Qed.

Lemma preserves_mapM {A B} (k : A -> M B) (l : list A) :
  (forall a, preserves f (k a)) -> preserves f (mapM k l).
Proof.
  intros Hk. induction l as [|a l IH]; cbn [mapM].
  - apply preserves_mret.
  - apply preserves_bind; [apply Hk|]. intros b.
    apply preserves_bind; [apply IH|]. intros bs. apply preserves_mret.
Qed.

Lemma preserves_foldM {A B} (k : B -> A -> M B) (l : list A) (b : B) :
  (forall b a, preserves f (k b a)) -> preserves f (foldM k b l).
Proof.
  intros Hk. revert b. induction l as [|a l IH]; intros b; cbn [foldM].
  - apply preserves_mret.
  - apply preserves_bind; [apply Hk|]. intros b'. apply IH.
Qed.

Lemma preserves_forM_ {A} (k : A -> M unit) (l : list A) :
  (forall a, preserves f (k a)) -> preserves f (forM_ k l).
Proof.
  intros Hk. induction l as [|a l IH]; cbn [forM_].
  - apply preserves_mret.
  - apply preserves_bind; [apply Hk|]. intros _. apply IH.
Qed.

(** One step of a frame proof: peel a bind, close a leaf, or split on
    the value that the program branches on. *)
Ltac frame_step :=
  match goal with
  | |- preserves _ (mret _) => apply preserves_mret
  | |- preserves _ (raise _) => apply preserves_raise
  | |- preserves _ timeout => apply preserves_timeout
  | |- preserves _ (gets _) => apply preserves_gets
  | |- preserves _ (lift_opt _ _) => apply preserves_lift_opt
  | |- preserves _ (with_random _) => apply preserves_with_random
  | |- preserves _ (logger_error _) => apply preserves_logger_error
  | |- preserves _ (_ ≫= _) => apply preserves_bind; [|intros ?]
  | |- preserves _ (_ <$> _) => apply preserves_fmap
  | |- preserves _ (mapM _ _) => apply preserves_mapM; intros ?
  | |- preserves _ (foldM _ _ _) => apply preserves_foldM; intros ? ?
  | |- preserves _ (forM_ _ _) => apply preserves_forM_; intros ?
  | H : forall p b, preserves _ (?extend p b) |- preserves _ (?extend _ _) => apply H
  | |- preserves _ (match ?x with _ => _ end) => destruct x
  | |- preserves _ (let '(_, _) := ?x in _) => destruct x
  end.

Ltac frame := repeat frame_step.

Lemma preserves_check_path p : preserves f (check_path p).
Proof using Hf. unfold check_path. frame. Qed.

Lemma preserves_weighted_mean_std a w : preserves f (weighted_mean_std a w).
Proof using Hf. unfold weighted_mean_std. frame. Qed.

Lemma preserves_exclude_counts p ex m : preserves f (exclude_counts p ex m).
Proof using Hf. unfold exclude_counts. frame. Qed.

Lemma preserves_get_cov_mean_std p ex : preserves f (get_cov_mean_std p ex).
Proof using Hf.
  unfold get_cov_mean_std. frame;
    auto using preserves_check_path, preserves_exclude_counts,
               preserves_weighted_mean_std.
Qed.

Lemma preserves_get_cov_mean p ex : preserves f (get_cov_mean p ex).
Proof using Hf. unfold get_cov_mean. frame. apply preserves_get_cov_mean_std. Qed.

Lemma preserves_get_cov_mean_of_single_std p :
  preserves f (get_cov_mean_of_single_std p).
Proof using Hf.
  unfold get_cov_mean_of_single_std. frame;
    auto using preserves_check_path, preserves_weighted_mean_std.
Qed.

Lemma preserves_like_step counts m sd st item :
  preserves f (like_step counts m sd st item).
Proof using Hf.
  unfold like_step. destruct st as [[[[[? ?] ?] ?] ?] ?]. destruct item as [[? ?] ?].
  frame; auto using preserves_get_cov_mean_std.
Qed.

Lemma preserves_cal_multiplicity_like p e counts om os sm ss lg :
  preserves f (cal_multiplicity_like p e counts om os sm ss lg).
Proof using Hf.
  unfold cal_multiplicity_like. frame;
    auto using preserves_get_cov_mean_std, preserves_get_cov_mean_of_single_std,
               preserves_like_step.
Qed.

Lemma preserves_pick {A} (l : list A) i : preserves f (pick l i).
Proof. unfold pick. frame. Qed.

Lemma preserves_choices_0 n w : preserves f (choices_0 n w).
Proof using Hf. unfold choices_0. frame. Qed.

Lemma preserves_get_local_max_alignment_len : preserves f get_local_max_alignment_len.
Proof. unfold get_local_max_alignment_len. frame. Qed.

Create HintDb frame.
Hint Resolve preserves_check_path preserves_weighted_mean_std
  preserves_exclude_counts preserves_get_cov_mean_std preserves_get_cov_mean
  preserves_get_cov_mean_of_single_std preserves_like_step
  preserves_cal_multiplicity_like preserves_pick preserves_choices_0
  preserves_get_local_max_alignment_len : frame.

Section WithExtend.
Variable extend : path -> bool -> M (list (string * bool)).
Hypothesis Hextend : forall p b, preserves f (extend p b).

Lemma preserves_acceptance_loop p e ndr rev_go prev rev_likes :
  preserves f (acceptance_loop extend p e ndr rev_go prev rev_likes).
Proof using Hf Hextend.
  revert rev_go prev. induction rev_likes as [|x l IH]; intros rev_go prev;
    cbn [acceptance_loop]; frame; auto.
Qed.

Lemma preserves_scan_given_counts e counts :
  preserves f (scan_given_counts e counts).
Proof.
  induction e as [|[v b] e IH]; cbn [scan_given_counts]; frame; auto.
Qed.

Lemma preserves_heuristic_check_multiplicity p e ndr counts cached :
  preserves f (heuristic_check_multiplicity extend p e ndr counts cached).
Proof using Hf Hextend.
  unfold heuristic_check_multiplicity. frame;
    auto using preserves_scan_given_counts, preserves_acceptance_loop with frame.
Qed.

Lemma preserves_candidate_counts cands : preserves f (candidate_counts cands).
Proof. unfold candidate_counts. frame; auto with frame. Qed.

Lemma preserves_inertia_weights w c ave : preserves f (inertia_weights w c ave).
Proof. unfold inertia_weights. frame; auto with frame. Qed.

Lemma preserves_middle_jump p ave : preserves f (middle_jump extend p ave).
Proof using Hf Hextend.
  unfold middle_jump. frame;
    auto using preserves_candidate_counts, preserves_inertia_weights with frame.
Qed.

Lemma preserves_choose_next_connection p ave conns :
  preserves f (choose_next_connection p ave conns).
Proof using Hf. unfold choose_next_connection. frame; auto with frame. Qed.

Lemma preserves_graph_extend p ndr ave : preserves f (graph_extend extend p ndr ave).
Proof using Hf Hextend.
  unfold graph_extend. frame;
    auto using preserves_choose_next_connection,
               preserves_heuristic_check_multiplicity with frame.
Qed.

Lemma preserves_flatten_candidates l n : preserves f (flatten_candidates l n).
Proof.
  revert n. induction l as [|[cdd ovl] l IH]; intros n; cbn [flatten_candidates];
    frame; auto using preserves_candidate_counts.
Qed.

Lemma preserves_reweight_by_pool p cands ovl w :
  preserves f (reweight_by_pool p cands ovl w).
Proof using Hf. unfold reweight_by_pool. frame; auto with frame. Qed.

Lemma preserves_read_extend p ndr ave l : preserves f (read_extend extend p ndr ave l).
Proof using Hf Hextend.
  unfold read_extend. frame;
    auto using preserves_flatten_candidates, preserves_reweight_by_pool,
               preserves_inertia_weights,
               preserves_heuristic_check_multiplicity with frame.
Qed.

Lemma preserves_seed_path : preserves f (seed_path extend).
Proof using Hf Hextend. unfold seed_path. frame; auto with frame. Qed.

Lemma preserves_extend_body p ndr : preserves f (extend_body extend p ndr).
Proof using Hf Hextend.
  unfold extend_body. frame;
    auto using preserves_seed_path, preserves_middle_jump, preserves_graph_extend,
               preserves_read_extend with frame.
Qed.
End WithExtend.

(** A traversal changes nothing of [self] but the random state and the
    error log. *)
Lemma preserves_heuristic_extend_path fuel p ndr :
  preserves f (heuristic_extend_path fuel p ndr).
Proof using Hf.
  revert p ndr. induction fuel as [|fuel IH]; intros p ndr; cbn [heuristic_extend_path].
  - apply preserves_timeout.
  - now apply preserves_extend_body.
Qed.

Lemma preserves_get_single_traversal fuel : preserves f (get_single_traversal fuel).
Proof using Hf.
  unfold get_single_traversal. apply preserves_bind.
  - apply preserves_heuristic_extend_path.
  - intros p. apply preserves_mret.
Qed.

Lemma preserves_search_start uc vs ul g cc ts :
  preserves f (search_start uc vs ul g cc ts).
Proof.
  revert cc. induction ts as [|t ts IH]; intros cc; cbn [search_start]; frame; auto.
Qed.

Lemma preserves_decompose_hetero_units p : preserves f (decompose_hetero_units p).
Proof using Hf.
  unfold decompose_hetero_units. frame;
    auto using preserves_search_start with frame.
Qed.

End FrameFacts.

(** ** The coverage table *)

Section CoverageFacts.
Context {G : Assembly} {R : RandomObj} {N : Numerics} {C : Config}.

Lemma contig_coverages_read_only : read_only_attribute contig_coverages.
Proof. split; reflexivity. Qed.

Lemma preserves_modify {X} (f : Self -> X) (g : Self -> Self) :
  (forall s, f (g s) = f s) -> preserves f (modify g).
Proof. intros H s. apply H. Qed.

(** A loop keeps what each of its rounds keeps. *)
Lemma forM__invariant {A} (P : Self -> Prop) (k : A -> M unit) (l : list A) :
  (forall a s, P s -> P (k a s).2) -> forall s, P s -> P (forM_ k l s).2.
Proof.
  intros Hk. induction l as [|a l IH]; intros s Hs; [exact Hs|].
  cbn [forM_]. unfold mbind, M_bind. specialize (Hk a s Hs).
  destruct (k a s) as [[[]| |] s1]; cbn in *; auto.
Qed.

Lemma use_graph_coverage_covers s :
  Forall (fun kv => (0 <= cov kv.2)%Q) vertex_info ->
  covers_all_segments (contig_coverages (use_contig_coverage_from_assembly_graph s).2).
Proof.
  intros Hcov v Hv. cbn.
  destruct (list_to_map (M := gmap string Q) ((fun kv => (kv.1, cov kv.2)) <$> vertex_info) !! v)
    as [c|] eqn:E.
  - exists c. split; [reflexivity|].
    apply elem_of_list_to_map_2, list_elem_of_fmap in E as ([w vx] & [= -> ->] & Hin).
    rewrite Forall_forall in Hcov. exact (Hcov _ Hin).
  - apply not_elem_of_list_to_map_2 in E. exfalso. apply E.
    rewrite <- list_fmap_compose. exact Hv.
Qed.

Lemma estimate_coverage_covers s :
  covers_all_segments (contig_coverages (estimate_contig_coverages_from_read_paths s).2).
Proof.
  unfold estimate_contig_coverages_from_read_paths.
  unfold mbind at 1, M_bind at 1. cbn [modify].
  unfold mbind at 1, M_bind at 1. cbn [gets].
  apply (forM__invariant (fun s => covers_all_segments (contig_coverages s))).
  - intros read_path s1 H1.
    apply (forM__invariant (fun s => covers_all_segments (contig_coverages s))); [|exact H1].
    intros [v_name v_end] s2 H2. unfold mbind, M_bind. cbn [gets].
    destruct (contig_coverages s2 !! v_name) as [c|] eqn:E; [|exact H2].
    cbn. intros v Hv. destruct (decide (v = v_name)) as [->|Hne].
    + exists (c + 1)%Q. rewrite lookup_insert_eq. split; [reflexivity|].
      destruct (H2 v_name Hv) as (c' & Hc' & Hpos). rewrite E in Hc'.
      injection Hc' as <-. lra.
    + rewrite lookup_insert_ne by congruence. now apply H2.
  - cbn. intros v Hv.
    destruct (list_to_map (M := gmap string Q) ((fun kv => (kv.1, 0%Q)) <$> vertex_info) !! v)
      as [c|] eqn:E.
    + exists c. split; [reflexivity|].
      apply elem_of_list_to_map_2, list_elem_of_fmap in E as ([w vx] & [= -> ->] & Hin). lra.
    + apply not_elem_of_list_to_map_2 in E. exfalso. apply E.
      rewrite <- list_fmap_compose. exact Hv.
Qed.

Lemma preserves_cov_store_paths l cv : preserves contig_coverages (store_paths l cv).
Proof.
  revert cv. induction l as [|p l IH]; intros cv; cbn [store_paths].
  - apply preserves_mret.
  - apply preserves_bind; [apply preserves_gets|]. intros counts.
    apply preserves_bind.
    + destruct (counts !! p).
      * now apply preserves_modify.
      * apply preserves_bind; [now apply preserves_modify|].
        intros _. now apply preserves_modify.
    + intros _. destruct (_ =? _); [apply preserves_mret|apply IH].
Qed.

Lemma preserves_cov_search_loop traverse fuel cs cv :
  preserves contig_coverages traverse ->
  preserves contig_coverages (search_loop traverse fuel cs cv).
Proof.
  intros Ht. revert cs cv. induction fuel as [|fuel IH]; intros cs cv;
    cbn [search_loop]; destruct (cv <? num_search); try apply preserves_mret.
  - apply preserves_timeout.
  - apply preserves_bind; [exact Ht|]. intros p.
    destruct (invalid_search p); [apply IH|].
    apply preserves_bind.
    + destruct (_ <=? _); [|apply preserves_mret].
      apply preserves_decompose_hetero_units, contig_coverages_read_only.
    + intros l. apply preserves_bind; [apply preserves_cov_store_paths|].
      intros cv'. apply IH.
Qed.

Lemma preserves_cov_gen_heuristic_paths_uni rounds depth :
  preserves contig_coverages (gen_heuristic_paths_uni rounds depth).
Proof.
  apply preserves_cov_search_loop, preserves_get_single_traversal,
    contig_coverages_read_only.
Qed.

Lemma preserves_cov_index_readpaths_subpaths flt :
  preserves contig_coverages (index_readpaths_subpaths flt).
Proof.
  assert (Hcount : forall p, preserves contig_coverages (count_read_path p)).
  { intros p. unfold count_read_path.
    apply preserves_bind; [apply preserves_gets|]. intros counter.
    destruct (counter !! p); [now apply preserves_modify|].
    apply preserves_bind; [now apply preserves_modify|].
    intros _. now apply preserves_modify. }
  unfold index_readpaths_subpaths.
  apply preserves_bind; [now apply preserves_modify|]. intros _.
  apply preserves_bind.
  { unfold summarize_alignment. apply preserves_foldM. intros lens rec.
    destruct flt; [destruct (contain_path _)|];
      try apply preserves_mret;
      (apply preserves_bind; [apply Hcount|intros _; apply preserves_mret]). }
  intros lens. apply preserves_bind; [apply preserves_gets|]. intros rps.
  apply preserves_bind.
  { apply preserves_forM_. intros [i p]. apply preserves_forM_.
    intros []; now apply preserves_modify. }
  intros _. apply preserves_bind; [apply preserves_lift_opt|]. intros lmal.
  apply preserves_bind; [now apply preserves_modify|].
  intros _. now apply preserves_modify.
Qed.

(** Both ways of filling the table return. *)
Lemma populator_returns (s : Self) :
  ((if use_alignment_cov then estimate_contig_coverages_from_read_paths
    else use_contig_coverage_from_assembly_graph) s).1 = Ok tt.
Proof.
  destruct use_alignment_cov; [|reflexivity].
  unfold estimate_contig_coverages_from_read_paths.
  rewrite bind_run. cbn [modify]. rewrite bind_run. cbn [gets].
  generalize (set_contig_coverages
    (list_to_map ((fun kv => (kv.1, 0%Q)) <$> vertex_info)) s) at 2 as s2.
  induction (read_paths _) as [|rp rps IH]; intros s2; [reflexivity|].
  cbn [forM_]. rewrite bind_run.
  assert (Hin : exists s3, forM_ (fun '(v_name, v_end) =>
             cc ← gets contig_coverages;
             match cc !! v_name with
             | Some c => modify (set_contig_coverages (<[v_name := (c + 1)%Q]> cc))
             | None => mret tt
             end) rp s2 = (Ok tt, s3)).
  { clear IH. revert s2. induction rp as [|[v e] rp IHrp]; intros s2;
      [eexists; reflexivity|].
    cbn [forM_]. rewrite !bind_run. cbn [gets].
    destruct (contig_coverages s2 !! v); cbn; apply IHrp. }
  destruct Hin as [s3 ->]. apply IH.
Qed.

(** C8. [contig_coverages] gives every graph segment a non-negative
    number once either populator has run (for the copy from the graph:
    when the graph's coverages are non-negative).  A generation run fills
    it exactly once, at its start: indexing, when it is needed, leaves the
    table as it was; if indexing raises, the run raises with it; otherwise
    the populator is called on the state that indexing left, it returns,
    and the rest of the run is the sampling loop on the state that the
    populator left, which ends with the table that the populator wrote.
    No traversal operation changes the table: the heuristic extension,
    the multiplicity likelihood, the two coverage-mean accessors and the
    whole sampling loop leave it as they found it, whatever their
    outcome. *)
Theorem contig_coverages_populated_then_read_only :
  Forall (fun kv => (0 <= cov kv.2)%Q) vertex_info ->
  (forall s, covers_all_segments
               (contig_coverages (use_contig_coverage_from_assembly_graph s).2))
  /\ (forall s, covers_all_segments
                  (contig_coverages (estimate_contig_coverages_from_read_paths s).2))
  /\ (forall rounds depth s,
        let indexing :=
          if read_paths_counter_indexed s then mret tt
          else index_readpaths_subpaths true in
        let populator :=
          if use_alignment_cov then estimate_contig_coverages_from_read_paths
          else use_contig_coverage_from_assembly_graph in
        let run := generate_heuristic_components rounds depth s in
        contig_coverages (indexing s).2 = contig_coverages s
        /\ match (indexing s).1 with
           | Ok _ =>
               (populator (indexing s).2).1 = Ok tt
               /\ run = gen_heuristic_paths_uni rounds depth (populator (indexing s).2).2
               /\ contig_coverages run.2
                  = contig_coverages (populator (indexing s).2).2
               /\ covers_all_segments (contig_coverages run.2)
           | Raise e => run = (Raise e, (indexing s).2)
           | Timeout => run = (Timeout, (indexing s).2)
           end)
  /\ (forall fuel p ndr, preserves contig_coverages (heuristic_extend_path fuel p ndr))
  /\ (forall p e counts om os sm ss lg,
        preserves contig_coverages (cal_multiplicity_like p e counts om os sm ss lg))
  /\ (forall p ex, preserves contig_coverages (get_cov_mean_std p ex))
  /\ (forall p, preserves contig_coverages (get_cov_mean_of_single_std p))
  /\ (forall rounds depth,
        preserves contig_coverages (gen_heuristic_paths_uni rounds depth)).
Proof.
  intros Hcov.
  assert (Hpop : forall s, covers_all_segments
            (contig_coverages
               ((if use_alignment_cov then estimate_contig_coverages_from_read_paths
                 else use_contig_coverage_from_assembly_graph) s).2)).
  { intros s. destruct use_alignment_cov;
      [apply estimate_coverage_covers|now apply use_graph_coverage_covers]. }
  split; [intros s; now apply use_graph_coverage_covers|].
  split; [intros s; apply estimate_coverage_covers|].
  split.
  { intros rounds depth s. cbv zeta. split.
    - destruct (read_paths_counter_indexed s); [reflexivity|].
      apply preserves_cov_index_readpaths_subpaths.
    - unfold generate_heuristic_components.
      rewrite bind_run. cbn [gets]. rewrite bind_run.
      destruct ((if read_paths_counter_indexed s then mret tt
                 else index_readpaths_subpaths true) s) as [[[]| |] s1];
        cbn [fst snd]; try reflexivity.
      rewrite bind_run.
      pose proof (populator_returns s1) as Hret.
      pose proof (Hpop s1) as Hcovers.
      destruct ((if use_alignment_cov then estimate_contig_coverages_from_read_paths
                 else use_contig_coverage_from_assembly_graph) s1) as [o s2].
      cbn [fst snd] in Hret, Hcovers |- *. subst o.
      split; [reflexivity|]. split; [reflexivity|].
      pose proof (preserves_cov_gen_heuristic_paths_uni rounds depth s2) as Hkeep.
      split; [exact Hkeep|]. now rewrite Hkeep. }
  split; [intros; apply preserves_heuristic_extend_path, contig_coverages_read_only|].
  split; [intros; apply preserves_cal_multiplicity_like, contig_coverages_read_only|].
  split; [intros; apply preserves_get_cov_mean_std, contig_coverages_read_only|].
  split; [intros; apply preserves_get_cov_mean_of_single_std, contig_coverages_read_only|].
  intros. apply preserves_cov_gen_heuristic_paths_uni.
Qed.

End CoverageFacts.

(** ** Coverage means *)

Section CoverageMeanFacts.
Context {G : Assembly} {R : RandomObj} {N : Numerics} {C : Config}.

Lemma dict_counts_lookup (names : list string) (v : string) (c : nat) :
  dict_counts names !! v = Some c <-> v ∈ names /\ c = count_occ string_dec names v.
Proof.
  unfold dict_counts. split.
  - intros H. apply elem_of_list_to_map_2, list_elem_of_fmap in H as (w & [= -> ->] & Hin).
    now split.
  - intros [Hin ->].
    destruct (list_to_map (M := gmap string nat)
                ((fun v_n => (v_n, count_occ string_dec names v_n)) <$> names) !! v)
      as [c|] eqn:E.
    + apply elem_of_list_to_map_2, list_elem_of_fmap in E as (w & [= -> ->] & _).
      reflexivity.
    + apply not_elem_of_list_to_map_2 in E. exfalso. apply E.
      rewrite <- list_fmap_compose. now rewrite list_fmap_id.
Qed.

Lemma dict_counts_default (names : list string) (v : string) :
  default 0 (dict_counts names !! v) = count_occ string_dec names v.
Proof.
  destruct (dict_counts names !! v) as [c|] eqn:E.
  - apply dict_counts_lookup in E as [_ ->]. reflexivity.
  - destruct (decide (v ∈ names)) as [Hin|Hnin].
    + assert (H : dict_counts names !! v = Some (count_occ string_dec names v))
        by now apply dict_counts_lookup.
      congruence.
    + cbn. symmetry. apply count_occ_not_In. now rewrite <- list_elem_of_In.
Qed.

Lemma check_path_ok (p : path) (s : Self) :
  p <> [] -> (forall u, u ∈ p.*1 -> is_Some (vertex_lookup u)) ->
  check_path p s = (Ok tt, s).
Proof.
  intros Hne Hin. unfold check_path. destruct p as [|o p']; [contradiction|].
  assert (Hfind : find (fun ve : string * bool =>
                   negb (bool_decide (is_Some (vertex_lookup ve.1)))) (o :: p') = None).
  { revert Hin. generalize (o :: p'). induction l as [|[u b] l IH]; intros Hin;
      [reflexivity|].
    cbn [find]. rewrite bool_decide_eq_true_2 by (apply Hin; left).
    cbn. apply IH. intros w Hw. apply Hin. now right. }
  now rewrite Hfind.
Qed.

Lemma of_nat_pos (n : nat) : 0 < n -> (0 < of_nat n)%Q.
Proof. intros H. unfold of_nat, Qlt. cbn. lia. Qed.

End CoverageMeanFacts.

(** ** Decomposition and the sampling loop *)

Section GeneratorFacts.
Context {G : Assembly} {R : RandomObj} {N : Numerics} {C : Config}.

(** Blocks cut one after the other make up one longer block. *)
Lemma concat_slices {A} (l : list A) (a w m : nat) :
  concat ((fun k => slice (a + w * k) (a + w * (k + 1)) l) <$> seq 0 m)
  = take (w * m) (drop a l).
Proof.
  induction m as [|m IH].
  - now rewrite Nat.mul_0_r.
  - rewrite seq_S, fmap_app, concat_app, IH. cbn [fmap list_fmap concat].
    rewrite app_nil_r. unfold slice.
    replace (a + w * (0 + m + 1) - (a + w * (0 + m))) with w by lia.
    replace (a + w * (0 + m)) with (a + w * m) by lia.
    rewrite <- drop_drop, take_take_drop. f_equal. lia.
Qed.

Lemma concat_unit_blocks (ps : path) (ts u c g : nat) :
  concat (unit_blocks ps ts u c g) = take (u * c * (g / c)) (drop ts ps).
Proof. unfold unit_blocks. apply concat_slices. Qed.

(** [path_shuffled] agrees with the cyclic reading of the walk. *)
Lemma shuffled_cyclic {A} (p : list A) (r u ts m : nat) :
  r <= length p -> u <= length p -> ts < u -> m <= length p ->
  take m (drop ts (drop (length p - r) p ++ p ++ take u p))
  = cyclic_read p (ts + length p - r) m.
Proof.
  intros Hr Hu Hts Hm. unfold cyclic_read.
  replace (ts + length p - r) with ((length p - r) + ts) by lia.
  rewrite <- drop_drop, (drop_app_le p) by lia.
  rewrite !(app_assoc (drop (length p - r) p)).
  set (X := drop (length p - r) p ++ p).
  assert (HX : length X = r + length p).
  { subst X. rewrite length_app, length_drop. lia. }
  rewrite !drop_app_le by lia.
  rewrite !take_app, length_drop, HX. f_equal.
  rewrite take_take. f_equal. lia.
Qed.

(** Read over its whole length, the walk comes out rotated. *)
Lemma cyclic_read_rotation {A} (p : list A) (k : nat) :
  k < 2 * length p -> cyclic_read p k (length p) = rotate k p.
Proof.
  intros Hk. unfold cyclic_read, rotate.
  destruct (Nat.lt_ge_cases k (length p)) as [Hlt|Hge].
  - rewrite Nat.mod_small by lia.
    rewrite drop_app_le by lia.
    rewrite take_app, length_drop.
    rewrite (take_ge (drop k p)) by (rewrite length_drop; lia).
    f_equal. replace (length p - (length p - k)) with k by lia.
    rewrite take_app_le by lia. reflexivity.
  - assert (Hmod : k mod length p = k - length p).
    { symmetry. apply (Nat.mod_unique k (length p) 1); lia. }
    rewrite Hmod.
    rewrite drop_app_ge by lia.
    rewrite drop_app_le by lia.
    rewrite take_app, length_drop.
    rewrite (take_ge (drop (k - length p) p)) by (rewrite length_drop; lia).
    f_equal. f_equal. lia.
Qed.

(** *** The sliding window of the offset search *)

Lemma get_v_counts_lookup (l : list string) (k : nat) (kv : string * Vertex) :
  vertex_info !! k = Some kv ->
  get_v_counts l !! k = Some (count_occ string_dec l kv.1).
Proof. intros H. unfold get_v_counts. now rewrite list_lookup_fmap, H. Qed.

Lemma v_to_id_lookup (x : string) (i : nat) :
  v_to_id x = Some i -> exists kv, vertex_info !! i = Some kv /\ kv.1 = x.
Proof.
  unfold v_to_id. intros H.
  destruct (list_find (fun kv => kv.1 = x) vertex_info) as [[i' kv]|] eqn:E; [|discriminate].
  injection H as <-. apply list_find_Some in E as (Hi & Hx & _). now exists kv.
Qed.

Lemma vertex_index_unique (i k : nat) (kv kv' : string * Vertex) :
  NoDup vertex_info.*1 ->
  vertex_info !! i = Some kv -> vertex_info !! k = Some kv' -> kv.1 = kv'.1 -> i = k.
Proof.
  intros Hnd Hi Hk Heq.
  apply (NoDup_lookup _ i k kv.1 Hnd); rewrite list_lookup_fmap.
  - now rewrite Hi.
  - rewrite Hk. cbn. now rewrite Heq.
Qed.

(** Sliding the window by one vertex updates the counts as the loop does. *)
Lemma get_v_counts_slide (W : list string) (x_out x_in : string) (i j c_out c_in : nat) :
  NoDup vertex_info.*1 ->
  v_to_id x_out = Some i -> v_to_id x_in = Some j ->
  get_v_counts (x_out :: W) !! i = Some c_out ->
  <[i := c_out - 1]> (get_v_counts (x_out :: W)) !! j = Some c_in ->
  <[j := c_in + 1]> (<[i := c_out - 1]> (get_v_counts (x_out :: W)))
  = get_v_counts (W ++ [x_in]).
Proof.
  intros Hnd Hi Hj Hout Hin.
  destruct (v_to_id_lookup _ _ Hi) as (kvi & Hkvi & Hxi).
  destruct (v_to_id_lookup _ _ Hj) as (kvj & Hkvj & Hxj).
  rewrite (get_v_counts_lookup _ _ _ Hkvi) in Hout. injection Hout as <-.
  rewrite Hxi in Hin |- *. cbn [count_occ] in Hin |- *.
  destruct (string_dec x_out x_out) as [_|]; [|contradiction].
  replace (S (count_occ string_dec W x_out) - 1) with (count_occ string_dec W x_out)
    in Hin |- * by lia.
  assert (Hlen : length (get_v_counts (x_out :: W)) = length vertex_info)
    by (unfold get_v_counts; apply length_fmap).
  assert (Hi_lt : i < length vertex_info) by (eapply lookup_lt_Some, Hkvi).
  assert (Hj_lt : j < length vertex_info) by (eapply lookup_lt_Some, Hkvj).
  apply list_eq. intros k.
  destruct (vertex_info !! k) as [kv|] eqn:Hk.
  - rewrite (get_v_counts_lookup _ _ _ Hk), count_occ_app. cbn [count_occ].
    destruct (decide (k = j)) as [->|Hkj].
    + rewrite list_lookup_insert_eq by (rewrite length_insert; lia).
      rewrite Hk in Hkvj. injection Hkvj as ->. rewrite Hxj.
      destruct (string_dec x_in x_in) as [_|]; [|contradiction].
      f_equal. destruct (decide (j = i)) as [->|Hji].
      * rewrite list_lookup_insert_eq in Hin by lia. injection Hin as <-.
        rewrite Hk in Hkvi. injection Hkvi as <-. rewrite Hxj in Hxi. subst x_out. lia.
      * rewrite list_lookup_insert_ne in Hin by congruence.
        rewrite (get_v_counts_lookup _ _ _ Hk), Hxj in Hin. cbn [count_occ] in Hin.
        destruct (string_dec x_out x_in) as [Heq|_].
        -- exfalso. apply Hji. subst x_out.
           eapply (vertex_index_unique j i kvj kvi Hnd); congruence.
        -- injection Hin as <-. lia.
    + rewrite list_lookup_insert_ne by congruence.
      destruct (string_dec x_in kv.1) as [Heq|_].
      { exfalso. apply Hkj. eapply (vertex_index_unique k j kv kvj Hnd); congruence. }
      destruct (decide (k = i)) as [->|Hki].
      * rewrite list_lookup_insert_eq by lia.
        rewrite Hk in Hkvi. injection Hkvi as ->. rewrite Hxi. f_equal. lia.
      * rewrite list_lookup_insert_ne by congruence.
        rewrite (get_v_counts_lookup _ _ _ Hk). cbn [count_occ].
        destruct (string_dec x_out kv.1) as [Heq|_]; [|f_equal; lia].
        exfalso. apply Hki. eapply (vertex_index_unique k i kv kvi Hnd); congruence.
  - assert (Hge : length vertex_info <= k) by now apply lookup_ge_None.
    rewrite !lookup_ge_None_2; [reflexivity|..].
    + unfold get_v_counts. now rewrite length_fmap.
    + rewrite !length_insert, Hlen. exact Hge.
Qed.



Lemma slice_head {A} (l : list A) (t u : nat) (x : A) :
  l !! t = Some x -> 0 < u ->
  slice t (t + u) l = x :: take (u - 1) (drop (S t) l).
Proof.
  intros Hx Hu. unfold slice. replace (t + u - t) with (S (u - 1)) by lia.
  now rewrite (drop_S _ _ _ Hx).
Qed.

Lemma slice_next {A} (l : list A) (t u : nat) (y : A) :
  l !! (t + u) = Some y -> 0 < u ->
  slice (S t) (S t + u) l = take (u - 1) (drop (S t) l) ++ [y].
Proof.
  intros Hy Hu. unfold slice. replace (S t + u - S t) with ((u - 1) + 1) by lia.
  rewrite <- take_take_drop. f_equal. rewrite drop_drop.
  replace (S t + (u - 1)) with (t + u) by lia.
  now rewrite (drop_S _ _ _ Hy).
Qed.

Lemma units_match_true (uc cc : list nat) (vs : list string) (u g ts : nat) :
  units_match uc cc vs u g ts = true ->
  cc = uc /\
  forall go_u, 1 <= go_u < g ->
    get_v_counts (slice (ts + u * go_u) (ts + u * (go_u + 1)) vs) = uc.
Proof.
  unfold units_match. intros H. apply andb_prop in H as [H1 H2].
  apply bool_decide_eq_true in H1. apply bool_decide_eq_true in H2.
  split; [exact H1|]. intros go_u Hgo.
  set (f := fun go_u : nat => bool_decide
    (get_v_counts (slice (ts + u * go_u) (ts + u * (go_u + 1)) vs) = uc)) in *.
  assert (Hin : f go_u ∈ (list_to_set (f <$> seq 1 (g - 1)) : gset bool)).
  { apply elem_of_list_to_set, list_elem_of_fmap. exists go_u. split; [reflexivity|].
    apply elem_of_seq. lia. }
  rewrite H2 in Hin. apply elem_of_singleton in Hin.
  subst f. cbv beta in Hin. now apply bool_decide_eq_true in Hin.
Qed.

(** The window counts that the search loop slides are, at every offset it
    tries, the counts of the window at that offset; so the offset it
    returns starts [gcd] consecutive units of composition [unit_counts]. *)
Lemma search_start_sound (uc : list nat) (vs : list string) (u g m : nat) :
  NoDup vertex_info.*1 -> 0 < u ->
  forall (t : nat) (cc : list nat) (s s' : Self) (ts : nat),
    cc = get_v_counts (slice t (t + u) vs) ->
    search_start uc vs u g cc (seq t m) s = (Ok (Some ts), s') ->
    forall go_u, go_u < g ->
      get_v_counts (slice (ts + u * go_u) (ts + u * (go_u + 1)) vs) = uc.
Proof.
  intros Hnd Hu. induction m as [|m IH]; intros t cc s s' ts Hcc H; [discriminate|].
  cbn [seq search_start] in H.
  destruct (units_match uc cc vs u g t) eqn:Hm.
  - injection H as <- _. apply units_match_true in Hm as [Hm0 Hm].
    intros go_u Hgo. destruct go_u as [|go_u].
    + rewrite Nat.mul_0_r, Nat.add_0_r, Nat.mul_1_r. congruence.
    + apply Hm. lia.
  - rewrite bind_run in H.
    destruct (vs !! t) as [v_out|] eqn:Hout; cbn [lift_opt mret M_ret raise] in H;
      [|discriminate].
    rewrite bind_run in H.
    destruct (v_to_id v_out) as [i|] eqn:Hi; cbn [lift_opt mret M_ret raise] in H;
      [|discriminate].
    rewrite bind_run in H.
    destruct (cc !! i) as [c_out|] eqn:Hcout; cbn [lift_opt mret M_ret raise] in H;
      [|discriminate].
    rewrite bind_run in H.
    destruct (vs !! (t + u)) as [v_in|] eqn:Hin; cbn [lift_opt mret M_ret raise] in H;
      [|discriminate].
    rewrite bind_run in H.
    destruct (v_to_id v_in) as [j|] eqn:Hj; cbn [lift_opt mret M_ret raise] in H;
      [|discriminate].
    rewrite bind_run in H.
    destruct (<[i:=c_out - 1]> cc !! j) as [c_in|] eqn:Hcin;
      cbn [lift_opt mret M_ret raise] in H; [|discriminate].
    eapply (IH (S t)); [|exact H].
    rewrite (slice_next _ _ _ _ Hin Hu). subst cc.
    rewrite (slice_head _ _ _ _ Hout Hu) in Hcout, Hcin |- *.
    now apply get_v_counts_slide.
Qed.

(** X22. The offset search of [__decompose_hetero_units] (lines 367-378),
    which slides the counts of its window by one vertex at each failure
    instead of counting again, is sound: on a graph whose vertex names are
    distinct, when the search started at offset 0 with the counts of the
    first [unit_len] names stops at [try_start], each of the [gcd]
    consecutive windows of [unit_len] names from [try_start] on, the first
    one included, has the composition [unit_counts]. *)
Theorem search_start_offset_sound (uc : list nat) (vs : list string) (u g : nat)
    (s s' : Self) (ts : nat) :
  NoDup vertex_info.*1 -> 0 < u ->
  search_start uc vs u g (get_v_counts (take u vs)) (seq 0 u) s = (Ok (Some ts), s') ->
  forall go_u, go_u < g ->
    get_v_counts (slice (ts + u * go_u) (ts + u * (go_u + 1)) vs) = uc.
Proof.
  intros Hnd Hu H. eapply (search_start_sound uc vs u g u Hnd Hu 0); [|exact H].
  unfold slice. now rewrite Nat.add_0_l, Nat.sub_0_r, drop_0.
Qed.

Lemma find_gcd_le (l : list nat) (x : nat) :
  x ∈ l -> x <> 0 -> find_greatest_common_divisor l <= x.
Proof.
  intros Hin Hx. apply Nat.divide_pos_le; [lia|].
  induction l as [|y l IH]; [inversion Hin|].
  cbn. apply elem_of_cons in Hin as [->|Hin].
  - apply Nat.gcd_divide_l.
  - etransitivity; [apply Nat.gcd_divide_r|]. now apply IH.
Qed.

(** A failed test of the search loop means that the offset does not
    split, when there are two units or more. *)
Lemma units_match_false (uc : list nat) (vs : list string) (u g t : nat) :
  2 <= g ->
  units_match uc (get_v_counts (slice t (t + u) vs)) vs u g t = false ->
  ~ splitting_offset uc vs u g t.
Proof.
  intros Hg Hm Hsplit. unfold units_match in Hm.
  apply andb_false_iff in Hm as [Hm|Hm]; apply bool_decide_eq_false in Hm; apply Hm.
  - specialize (Hsplit 0 ltac:(lia)).
    now rewrite Nat.mul_0_r, Nat.add_0_r, Nat.mul_1_r in Hsplit.
  - apply set_eq. intros b. rewrite elem_of_list_to_set, list_elem_of_fmap, elem_of_singleton.
    split.
    + intros (go_u & -> & Hgo). apply elem_of_seq in Hgo.
      apply bool_decide_eq_true. apply Hsplit. lia.
    + intros ->. exists 1. split.
      * symmetry. apply bool_decide_eq_true. apply Hsplit. lia.
      * apply elem_of_seq. lia.
Qed.

(** The search returns the first offset that splits, or none when no
    offset that it tries splits; it leaves the generator as it was. *)
Lemma search_start_first (uc : list nat) (vs : list string) (u g m : nat) :
  NoDup vertex_info.*1 -> 0 < u -> 2 <= g ->
  forall (t : nat) (cc : list nat) (s s' : Self) (found : option nat),
    cc = get_v_counts (slice t (t + u) vs) ->
    search_start uc vs u g cc (seq t m) s = (Ok found, s') ->
    s' = s
    /\ match found with
       | Some ts => t <= ts < t + m /\ splitting_offset uc vs u g ts
                    /\ forall t', t <= t' < ts -> ~ splitting_offset uc vs u g t'
       | None => forall t', t <= t' < t + m -> ~ splitting_offset uc vs u g t'
       end.
Proof.
  intros Hnd Hu Hg. induction m as [|m IH]; intros t cc s s' found Hcc H.
  - cbn in H. injection H as <- <-. split; [reflexivity|]. intros t' Ht'. lia.
  - cbn [seq search_start] in H.
    destruct (units_match uc cc vs u g t) eqn:Hm.
    + injection H as <- <-. split; [reflexivity|]. split; [lia|].
      apply units_match_true in Hm as [Hm0 Hm]. split; [|intros t' Ht'; lia].
      intros go_u Hgo. destruct go_u as [|go_u].
      * rewrite Nat.mul_0_r, Nat.add_0_r, Nat.mul_1_r. congruence.
      * apply Hm. lia.
    + assert (Hnot : ~ splitting_offset uc vs u g t).
      { apply units_match_false; [exact Hg|]. now rewrite <- Hcc. }
      rewrite bind_run in H.
      destruct (vs !! t) as [v_out|] eqn:Hout; cbn [lift_opt mret M_ret raise] in H;
        [|discriminate].
      rewrite bind_run in H.
      destruct (v_to_id v_out) as [i|] eqn:Hi; cbn [lift_opt mret M_ret raise] in H;
        [|discriminate].
      rewrite bind_run in H.
      destruct (cc !! i) as [c_out|] eqn:Hcout; cbn [lift_opt mret M_ret raise] in H;
        [|discriminate].
      rewrite bind_run in H.
      destruct (vs !! (t + u)) as [v_in|] eqn:Hin; cbn [lift_opt mret M_ret raise] in H;
        [|discriminate].
      rewrite bind_run in H.
      destruct (v_to_id v_in) as [j|] eqn:Hj; cbn [lift_opt mret M_ret raise] in H;
        [|discriminate].
      rewrite bind_run in H.
      destruct (<[i:=c_out - 1]> cc !! j) as [c_in|] eqn:Hcin;
        cbn [lift_opt mret M_ret raise] in H; [|discriminate].
      destruct (IH (S t) (<[j:=c_in + 1]> (<[i:=c_out - 1]> cc)) s s' found)
        as [Hs Hfound]; [|exact H|].
      { rewrite (slice_next _ _ _ _ Hin Hu). subst cc.
        rewrite (slice_head _ _ _ _ Hout Hu) in Hcout, Hcin |- *.
        now apply get_v_counts_slide. }
      split; [exact Hs|]. destruct found as [ts|].
      * destruct Hfound as (Hts & Hsplit & Hleast). split; [lia|]. split; [exact Hsplit|].
        intros t' Ht'. destruct (decide (t' = t)) as [->|]; [exact Hnot|].
        apply Hleast. lia.
      * intros t' Ht'. destruct (decide (t' = t)) as [->|]; [exact Hnot|].
        apply Hfound. lia.
Qed.

(** C4 (as amended). On a graph whose vertex names are distinct, when the
    per-vertex counts of a walk have a common divisor g other than 1 and
    [__decompose_hetero_units] returns, it has rotated the walk by the
    random offset [reseed_at] and looked for the first offset [try_start]
    below the unit length from which g consecutive windows of one unit all
    have the composition counts/g.  When no offset splits, it returns the
    walk itself.  Otherwise it returns, in order, the standardized forms of
    those of the floor(g/c) blocks of c units cut from the rotated walk at
    [try_start] that are circular, c being
    min(max((local_max_alignment_len - 2) quot unit_seq_len, 1), g); the
    blocks as cut, taken together, are the walk read cyclically from offset
    [try_start - reseed_at], over c * floor(g/c) units. *)
Theorem decompose_emits_standardized_blocks (p : path) (s s' : Self)
    (out : list (list (string * bool))) :
  NoDup vertex_info.*1 ->
  decompose_hetero_units p s = (Ok out, s') ->
  find_greatest_common_divisor (get_v_counts p.*1) <> 1 ->
  decomposition_shape p s out.
Proof.
  intros Hnd Hrun Hg. unfold decomposition_shape. unfold decompose_hetero_units in Hrun.
  set (g := find_greatest_common_divisor (get_v_counts p.*1)) in *.
  rewrite length_fmap in Hrun.
  set (u := length p / g) in *.
  destruct (Nat.eqb_spec g 1) as [|_]; [contradiction|].
  destruct (Nat.eqb_spec g 0) as [|Hg0]; [discriminate|].
  rewrite bind_run in Hrun.
  destruct (Nat.eqb_spec u 0) as [|Hu0]; [discriminate|].
  unfold with_random in Hrun.
  destruct (rng_randint 0 (Z.of_nat u - 1) (random s)) as [reseed_at r1] eqn:Hrand.
  cbn [fst] in *.
  rewrite bind_run in Hrun.
  match type of Hrun with
  | context [search_start ?a ?b ?c ?d ?e ?f ?s0] =>
      destruct (search_start a b c d e f s0) as [[found| |] s2] eqn:Hsearch
  end; try discriminate.
  apply (search_start_first _ _ u g u Hnd ltac:(lia) ltac:(lia) 0) in Hsearch
    as [-> Hfound].
  2:{ unfold slice. now rewrite Nat.add_0_l, Nat.sub_0_r, drop_0. }
  split; [lia|]. split; [lia|].
  destruct found as [ts|].
  2:{ injection Hrun as <- _. left. split; [|reflexivity].
      intros t Ht. apply Hfound. lia. }
  destruct Hfound as (Hts & Hsplit & Hleast).
  rewrite bind_run in Hrun. unfold get_local_max_alignment_len in Hrun.
  rewrite bind_run in Hrun. cbn [gets local_max_alignment_len set_random] in Hrun.
  destruct (local_max_alignment_len s) as [lmal|] eqn:Hl; [|discriminate].
  cbn [lift_opt mret M_ret] in Hrun.
  destruct (Z.eqb_spec
    (get_path_length
       (slice ts (ts + u)
          (py_suffix (Z.of_nat (length p) - reseed_at) p ++ p ++ take u p))) 0)
    as [|Hlen]; [discriminate|].
  injection Hrun as <- _. right.
  exists ts, lmal. split; [lia|]. split; [exact Hsplit|].
  split; [intros t Ht; apply Hleast; lia|]. split; [reflexivity|]. cbv zeta.
  match goal with
  | |- context [unit_blocks _ _ _ ?c _] => set (ucn := c)
  end.
  assert (Hc : 1 <= ucn <= g) by (subst ucn; lia).
  split; [exact Hlen|]. split; [exact Hc|].
  split; [reflexivity|]. split; [apply concat_unit_blocks|].
  intros Hr. rewrite concat_unit_blocks.
  pose proof (Nat.Div0.mul_div_le (length p) g) as Hug.
  pose proof (Nat.Div0.mul_div_le g ucn) as Hcg.
  unfold py_suffix.
  destruct (Z.ltb_spec (Z.of_nat (length p) - reseed_at) 0) as [Hneg|_]; [nia|].
  replace (Z.to_nat (Z.of_nat (length p) - reseed_at))
    with (length p - Z.to_nat reseed_at) by lia.
  apply shuffled_cyclic; nia.
Qed.

(** *** The circularity gate *)


Lemma store_paths_ok l cv s : exists cv' s', store_paths l cv s = (Ok cv', s').
Proof.
  revert cv s. induction l as [|w l IH]; intros cv s; [now eexists _, _|].
  cbn [store_paths]. rewrite bind_run. cbn [gets]. rewrite bind_run.
  destruct (components_counts s !! w); [|rewrite bind_run]; cbn [modify];
    (destruct (_ =? _); [now eexists _, _|apply IH]).
Qed.

(** A rejected traversal result changes the counters of searches only. *)
Lemma search_loop_rejected traverse fuel cs cv s p s1 :
  cv < num_search -> traverse s = (Ok p, s1) -> invalid_search p = true ->
  search_loop traverse (S fuel) cs cv s = search_loop traverse fuel (cs + 1) cv s1.
Proof.
  intros Hcv Ht Hp. cbn [search_loop].
  destruct (Nat.ltb_spec cv num_search) as [_|]; [|lia].
  now rewrite bind_run, Ht, Hp.
Qed.




(** The for loop over the walks of one traversal leaves [count_valid] at
    most at [num_search]. *)
Lemma store_paths_bound (l : list (list (string * bool))) (cv cv' : nat) (s s' : Self) :
  cv < num_search -> store_paths l cv s = (Ok cv', s') -> cv' <= num_search.
Proof.
  revert cv s. induction l as [|w l IH]; intros cv s Hcv Hrun.
  - injection Hrun as <- _. lia.
  - cbn [store_paths] in Hrun. rewrite bind_run in Hrun. cbn [gets] in Hrun.
    rewrite bind_run in Hrun.
    assert (Hstep : forall s0,
      (if cv + 1 =? num_search then mret (cv + 1) else store_paths l (cv + 1)) s0
      = (Ok cv', s') -> cv' <= num_search).
    { intros s0 H. destruct (Nat.eqb_spec (cv + 1) num_search) as [Heq|Hne].
      - injection H as <- _. lia.
      - eapply (IH (cv + 1)); [lia|exact H]. }
    destruct (components_counts s !! w).
    + cbn [modify] in Hrun. eapply Hstep, Hrun.
    + rewrite bind_run in Hrun. cbn [modify] in Hrun. eapply Hstep, Hrun.
Qed.

(** The sampling loop returns only with [count_valid] at [num_search]. *)
Lemma search_loop_returns_full (traverse : M (list (string * bool)))
    (fuel cs cv : nat) (s s' : Self) (out : nat * nat) :
  cv <= num_search ->
  search_loop traverse fuel cs cv s = (Ok out, s') -> out.2 = num_search.
Proof.
  revert cs cv s. induction fuel as [|fuel IH]; intros cs cv s Hcv Hrun;
    cbn [search_loop] in Hrun;
    destruct (Nat.ltb_spec cv num_search) as [Hlt|Hge];
    try discriminate;
    try (injection Hrun as <- _; cbn; lia).
  rewrite bind_run in Hrun.
  destruct (traverse s) as [[p| |] s1]; try discriminate.
  destruct (invalid_search p); [eapply IH; [|exact Hrun]; lia|].
  rewrite bind_run in Hrun.
  destruct ((if length vertex_info * 2 <=? length p then decompose_hetero_units p
             else mret [p]) s1) as [[l| |] s2]; try discriminate.
  rewrite bind_run in Hrun.
  destruct (store_paths l cv s2) as [[cv'| |] s3] eqn:Hst; try discriminate.
  eapply (IH _ cv'); [|exact Hrun]. eapply store_paths_bound; eassumption.
Qed.

(** C7 (as amended). The sampling loop of the generator has no budget of
    attempts.  On a set [reachable] of generator states that the traversal
    does not leave and on which every traversal returns a walk that the
    validity test rejects, the loop is still running after any number of
    rounds: it has counted that many searches and no valid walk, it goes
    on from there as it would from the start, and [components] and
    [components_counts] are as they were.  From any state at all, the loop
    returns only with [count_valid] equal to [num_search]: nothing else
    stops it and nothing is reported. *)
Theorem search_never_returns (depth : nat) (reachable : Self -> Prop) :
  0 < num_search ->
  (forall s, reachable s ->
     exists p s1, get_single_traversal depth s = (Ok p, s1)
                  /\ invalid_search p = true /\ reachable s1) ->
  (forall rounds s, reachable s ->
     exists s', gen_heuristic_paths_uni rounds depth s = (Timeout, s')
                /\ (forall more,
                      gen_heuristic_paths_uni (rounds + more) depth s
                      = search_loop (get_single_traversal depth) more rounds 0 s')
                /\ reachable s'
                /\ components s' = components s
                /\ components_counts s' = components_counts s)
  /\ (forall rounds s s' out,
        gen_heuristic_paths_uni rounds depth s = (Ok out, s') -> out.2 = num_search).
Proof.
  intros Hn Hrej. split.
  - unfold gen_heuristic_paths_uni. intros rounds.
    assert (Hgen : forall cs s, reachable s ->
              exists s', (forall more,
                            search_loop (get_single_traversal depth) (rounds + more) cs 0 s
                            = search_loop (get_single_traversal depth) more (cs + rounds)
                                0 s')
                         /\ reachable s'
                         /\ components s' = components s
                         /\ components_counts s' = components_counts s).
    { induction rounds as [|rounds IH]; intros cs s Hs.
      - exists s. split; [intros more; now rewrite Nat.add_0_r|auto].
      - destruct (Hrej s Hs) as (p & s1 & Ht & Hp & Hs1).
        destruct (IH (cs + 1) s1 Hs1) as (s' & Hrun & Hs' & Hc & Hcc).
        exists s'. split.
        + intros more. cbn [Nat.add].
          rewrite (search_loop_rejected _ (rounds + more) cs 0 s p s1 Hn Ht Hp), Hrun.
          f_equal. lia.
        + split; [exact Hs'|].
          pose proof (preserves_get_single_traversal components
                        ltac:(split; reflexivity) depth s) as H1.
          pose proof (preserves_get_single_traversal components_counts
                        ltac:(split; reflexivity) depth s) as H2.
          rewrite Ht in H1, H2. cbn [snd] in H1, H2. split; congruence. }
    intros s Hs. destruct (Hgen 0 s Hs) as (s' & Hrun & Hs' & Hc & Hcc).
    exists s'. split; [|split; [exact Hrun|auto]].
    rewrite <- (Nat.add_0_r rounds) at 1. rewrite Hrun. cbn [search_loop Nat.add].
    destruct (Nat.ltb_spec 0 num_search); [reflexivity|lia].
  - intros rounds s s' out Hrun. unfold gen_heuristic_paths_uni in Hrun.
    eapply search_loop_returns_full; [|exact Hrun]. lia.
Qed.

End GeneratorFacts.

(** ** The scenarios, run *)

Section ChainScenario.
Import Examples.
#[local] Existing Instance chain_assembly.
#[local] Existing Instance chain_config.
#[local] Existing Instance ScriptedRandom.random_obj.
#[local] Existing Instance StandIn.numerics.

(** On the dead-end chain a traversal returns the chain and leaves the
    generator as it was. *)
Lemma chain_traversal :
  get_single_traversal 20 chain_self = (Ok chain_walk, chain_self).
Proof. vm_compute. reflexivity. Qed.

Lemma chain_walk_rejected : invalid_search chain_walk = true.
Proof. vm_compute. reflexivity. Qed.

Lemma chain_search_times_out rounds count_search :
  search_loop (get_single_traversal 20) rounds count_search 0 chain_self
  = (Timeout, chain_self).
Proof.
  revert count_search. induction rounds as [|rounds IH]; intros cs.
  - reflexivity.
  - rewrite (search_loop_rejected _ rounds cs 0 chain_self chain_walk chain_self).
    + apply IH.
    + vm_compute. lia.
    + apply chain_traversal.
    + apply chain_walk_rejected.
Qed.

(** C7 (counterexample). Scenario S4: on the dead-end chain A, B, C with
    [force_circular] on, the sampling loop of the generator does not
    return within any number of rounds. *)
Lemma dead_end_chain_never_returns :
  ~ exists rounds, returns_within (get_single_traversal 20) rounds chain_self.
Proof.
  intros (rounds & out & H). rewrite chain_search_times_out in H. discriminate.
Qed.

(** The hypotheses of [search_never_returns] on the chain: the generator
    stays in the state that indexing left, and each traversal of depth 20
    returns the chain, which is not circular. *)
Lemma search_never_returns_witness :
  0 < num_search
  /\ (forall s : Self, s = chain_self ->
        exists p s1, get_single_traversal 20 s = (Ok p, s1)
                     /\ invalid_search p = true /\ s1 = chain_self)
  /\ exists s', gen_heuristic_paths_uni 7 20 chain_self = (Timeout, s')
                /\ (forall more,
                      gen_heuristic_paths_uni (7 + more) 20 chain_self
                      = search_loop (get_single_traversal 20) more 7 0 s')
                /\ s' = chain_self
                /\ components s' = components chain_self
                /\ components_counts s' = components_counts chain_self.
Proof.
  assert (H1 : 0 < num_search) by (vm_compute; lia).
  assert (H2 : forall s : Self, s = chain_self ->
            exists p s1, get_single_traversal 20 s = (Ok p, s1)
                         /\ invalid_search p = true /\ s1 = chain_self).
  { intros s ->. exists chain_walk, chain_self.
    split; [apply chain_traversal|]. split; [apply chain_walk_rejected|reflexivity]. }
  split; [exact H1|]. split; [exact H2|].
  exact (proj1 (search_never_returns 20 (fun s => s = chain_self) H1 H2)
           7 chain_self eq_refl).
Defined.

End ChainScenario.

Section LoopScenario.
Import Examples.
#[local] Existing Instance loop_assembly.
#[local] Existing Instance loop_config.
#[local] Existing Instance ScriptedRandom.random_obj.
#[local] Existing Instance StandIn.numerics.

(** The hypotheses of [check_multiplicity_contraction] on the loop: the
    walk A, B extended by A again, with ratio 1/2 and a draw of 1/4. *)
Lemma check_multiplicity_contraction_witness :
  [A_fwd] <> []
  /\ length [1 # 2]%Q = length [A_fwd]
  /\ (forall v, v ∈ [A_fwd].*1 -> v ∈ [A_fwd; B_fwd].*1)
  /\ heuristic_check_multiplicity (heuristic_extend_path 0) [A_fwd; B_fwd] [A_fwd]
       false None (Some [1 # 2]%Q) (ready_self [1 # 4]%Q)
     = spec_contraction (heuristic_extend_path 0) [A_fwd; B_fwd] [A_fwd] [1 # 2]%Q
         false 1 (ready_self [1 # 4]%Q).
Proof.
  assert (H1 : [A_fwd] <> []) by discriminate.
  assert (H2 : length [1 # 2]%Q = length [A_fwd]) by reflexivity.
  assert (H3 : forall v, v ∈ [A_fwd].*1 -> v ∈ [A_fwd; B_fwd].*1).
  { intros v Hv. apply list_elem_of_singleton in Hv as ->. left. }
  split; [exact H1|]. split; [exact H2|]. split; [exact H3|].
  exact (check_multiplicity_contraction (heuristic_extend_path 0) [A_fwd; B_fwd]
           [A_fwd] [1 # 2]%Q false (ready_self [1 # 4]%Q) H1 H2 H3).
Defined.

(** C6 (counterexample). The exclusion path holds A twice, the walk once:
    the call returns the mean 30 and only logs the excess. *)
Lemma excess_exclusion_returns_mean :
  count_occ string_dec [A_fwd].*1 "A"%string
    < count_occ string_dec [A_fwd; A_fwd].*1 "A"%string
  /\ get_cov_mean [A_fwd] (Some [A_fwd; A_fwd]) (ready_self [])
     = (Ok 30%Q,
        set_error_log [CannotExclude [A_fwd; A_fwd] [A_fwd] "A"%string] (ready_self [])).
Proof. split; [vm_compute; lia|vm_compute; reflexivity]. Qed.

(** The hypothesis of [contig_coverages_populated_then_read_only] on the
    loop, whose two coverages are 30: a run from a fresh generator is
    indexing, the copy of the coverages from the graph, then the sampling
    loop, and ends with a table that covers the two segments. *)
Lemma contig_coverages_populated_then_read_only_witness :
  Forall (fun kv => (0 <= cov kv.2)%Q) vertex_info
  /\ generate_heuristic_components 3 30 (init_self [])
     = gen_heuristic_paths_uni 3 30
         (use_contig_coverage_from_assembly_graph
            (index_readpaths_subpaths true (init_self [])).2).2
  /\ covers_all_segments
       (contig_coverages (generate_heuristic_components 3 30 (init_self [])).2).
Proof.
  assert (H1 : Forall (fun kv => (0 <= cov kv.2)%Q) vertex_info).
  { repeat constructor; vm_compute; discriminate. }
  split; [exact H1|].
  pose proof (proj2 (proj1 (proj2 (proj2 (contig_coverages_populated_then_read_only H1)))
                       3 30 (init_self []))) as H3.
  cbv zeta in H3.
  change ((use_contig_coverage_from_assembly_graph
             (index_readpaths_subpaths true (init_self [])).2).1 = Ok tt
          /\ generate_heuristic_components 3 30 (init_self [])
             = gen_heuristic_paths_uni 3 30
                 (use_contig_coverage_from_assembly_graph
                    (index_readpaths_subpaths true (init_self [])).2).2
          /\ contig_coverages (generate_heuristic_components 3 30 (init_self [])).2
             = contig_coverages
                 (use_contig_coverage_from_assembly_graph
                    (index_readpaths_subpaths true (init_self [])).2).2
          /\ covers_all_segments
               (contig_coverages (generate_heuristic_components 3 30 (init_self [])).2))
    in H3.
  exact (conj (proj1 (proj2 H3)) (proj2 (proj2 (proj2 H3)))).
Defined.

End LoopScenario.

Section StrayScenario.
Import Examples.
#[local] Existing Instance loop_assembly.
#[local] Existing Instance stray_config.
#[local] Existing Instance ScriptedRandom.random_obj.
#[local] Existing Instance StandIn.numerics.

(** The hypothesis of [index_without_records_raises]: the only read is
    not contained in the loop and is filtered out. *)
Lemma index_without_records_raises_witness :
  (alignment = []
   \/ (true = true
       /\ Forall (fun r => contain_path (get_standardized_path (gaf_path r)) = false)
                 alignment))
  /\ fst (index_readpaths_subpaths true (init_self [])) = Raise IndexError.
Proof.
  assert (H : alignment = []
              \/ (true = true
                  /\ Forall (fun r => contain_path (get_standardized_path (gaf_path r))
                                      = false) alignment)).
  { right. split; [reflexivity|]. repeat constructor. }
  split; [exact H|].
  exact (index_without_records_raises true (init_self []) H).
Defined.

End StrayScenario.

Section ForkScenario.
Import Examples.
#[local] Existing Instance fork_assembly.
#[local] Existing Instance fork_config.
#[local] Existing Instance ScriptedRandom.random_obj.
#[local] Existing Instance StandIn.numerics.

(** At the fork, in the single-chromosome mode, the step away from A
    proposes B whatever the random object would draw; C is out of reach. *)
Example fork_proposes_first :
  choose_next_connection [A_fwd] 30 [B_rev; C_rev] (ready_self [])
  = (Ok (B_rev, []), ready_self [])
  /\ choose_next_connection [A_fwd] 30 [B_rev; C_rev] (ready_self [9 # 10; 9 # 10]%Q)
     = (Ok (B_rev, []), ready_self [9 # 10; 9 # 10]%Q).
Proof. split; reflexivity. Qed.

(** The hypotheses of [two_connections_first_taken] at the fork. *)
Lemma two_connections_first_taken_witness :
  hetero_chromosome = false
  /\ last [A_fwd] = Some ("A"%string, true)
  /\ graph_extend (heuristic_extend_path 3) [A_fwd] false 30 (ready_self [9 # 10]%Q)
     = heuristic_check_multiplicity (heuristic_extend_path 3) [A_fwd] [B_fwd] false
         None (Some []) (ready_self [9 # 10]%Q).
Proof.
  split; [reflexivity|]. split; [reflexivity|].
  exact (proj2 (two_connections_first_taken (heuristic_extend_path 3) [A_fwd] false 30
                  "A"%string true (vertex 100 30 [B_rev; C_rev] []) B_rev C_rev
                  (ready_self [9 # 10]%Q) eq_refl eq_refl eq_refl)).
Defined.

End ForkScenario.

Section DenseScenario.
Import Examples.
#[local] Existing Instance dense_assembly.
#[local] Existing Instance dense_config.
#[local] Existing Instance ScriptedRandom.random_obj.
#[local] Existing Instance StandIn.numerics.

(** C4 (counterexample). The walk A-, A-, B-, B- on the dense graph is
    canonical and circular, its counts have the common divisor 2, and the
    search finds an offset; the step returns the block A-, B- twice, and
    the two blocks put together are not the walk. *)
Lemma dense_walk_blocks_differ :
  get_standardized_circular_path dense_walk = dense_walk
  /\ is_circular_path dense_walk = true
  /\ find_greatest_common_divisor (get_v_counts dense_walk.*1) = 2
  /\ fst (decompose_hetero_units dense_walk (ready_self []))
     = Ok [[A_rev; B_rev]; [A_rev; B_rev]]
  /\ concat [[A_rev; B_rev]; [A_rev; B_rev]] <> dense_walk.
Proof. vm_compute. repeat split; discriminate. Qed.

(** With reads long enough for both units the walk itself is returned. *)
Example dense_walk_returned_whole :
  fst (decompose_hetero_units dense_walk
         (set_local_max_alignment_len (Some 1000%Z) (ready_self [])))
  = Ok [dense_walk].
Proof. vm_compute. reflexivity. Qed.

(** The hypotheses of [decompose_emits_standardized_blocks] on the dense
    graph. *)
Lemma decompose_emits_standardized_blocks_witness :
  NoDup vertex_info.*1
  /\ decompose_hetero_units dense_walk (ready_self [])
     = (Ok [[A_rev; B_rev]; [A_rev; B_rev]], ready_self [])
  /\ find_greatest_common_divisor (get_v_counts dense_walk.*1) <> 1
  /\ decomposition_shape dense_walk (ready_self []) [[A_rev; B_rev]; [A_rev; B_rev]].
Proof.
  assert (H0 : NoDup vertex_info.*1).
  { apply (bool_decide_unpack _). vm_compute. reflexivity. }
  assert (H1 : decompose_hetero_units dense_walk (ready_self [])
               = (Ok [[A_rev; B_rev]; [A_rev; B_rev]], ready_self []))
    by (vm_compute; reflexivity).
  assert (H2 : find_greatest_common_divisor (get_v_counts dense_walk.*1) <> 1)
    by (vm_compute; discriminate).
  split; [exact H0|]. split; [exact H1|]. split; [exact H2|].
  exact (decompose_emits_standardized_blocks dense_walk (ready_self []) (ready_self [])
           [[A_rev; B_rev]; [A_rev; B_rev]] H0 H1 H2).
Defined.

End DenseScenario.

Section TwistScenario.
Import Examples.
#[local] Existing Instance twist_assembly.
#[local] Existing Instance twist_config.
#[local] Existing Instance ScriptedRandom.random_obj.
#[local] Existing Instance StandIn.numerics.



End TwistScenario.
(** ** The indexes after [index_readpaths_subpaths] *)

Section IndexContents.
Context {G : Assembly} {R : RandomObj} {N : Numerics} {C : Config}.

(** One indexing call adds its pair under its key and nothing else. *)
Lemma run_index_call_start (c : index_call) (s : Self) sp i b :
  indexed_start (run_index_call c s).2 sp i b
  <-> indexed_start s sp i b \/ c = IndexStart sp i b.
Proof.
  unfold indexed_start. destruct c as [sp0 i0 b0|sp0 i0 b0]; cbn.
  - destruct (starting_subpath_to_readpaths s !! sp0) as [st0|] eqn:E0.
    + destruct (decide (sp = sp0)) as [->|Hne].
      * rewrite lookup_insert_eq. split.
        -- intros (st & [= <-] & Hin). apply elem_of_union in Hin as [Hin|Hin].
           ++ left. eauto.
           ++ right. apply elem_of_singleton in Hin. now inversion Hin.
        -- intros [(st & Hst & Hin)|[= <- <-]].
           ++ rewrite E0 in Hst. injection Hst as <-. eexists. split; [reflexivity|].
              set_solver.
           ++ eexists. split; [reflexivity|]. set_solver.
      * rewrite lookup_insert_ne by congruence. split; [tauto|].
        intros [H|[= ? ? ?]]; [exact H|congruence].
    + destruct (decide (sp = sp0)) as [->|Hne].
      * rewrite lookup_insert_eq. split.
        -- intros (st & [= <-] & Hin). right.
           apply elem_of_singleton in Hin. now inversion Hin.
        -- intros [(st & Hst & Hin)|[= <- <-]]; [congruence|].
           eexists. split; [reflexivity|]. set_solver.
      * rewrite lookup_insert_ne by congruence. split; [tauto|].
        intros [H|[= ? ? ?]]; [exact H|congruence].
  - split; [tauto|]. intros [H|H]; [exact H|discriminate].
Qed.

Lemma run_index_call_middle (c : index_call) (s : Self) sp i b :
  indexed_middle (run_index_call c s).2 sp i b
  <-> indexed_middle s sp i b \/ c = IndexMiddle sp i b.
Proof.
  unfold indexed_middle. destruct c as [sp0 i0 b0|sp0 i0 b0]; cbn.
  - split; [tauto|]. intros [H|H]; [exact H|discriminate].
  - destruct (middle_subpath_to_readpaths s !! sp0) as [st0|] eqn:E0.
    + destruct (decide (sp = sp0)) as [->|Hne].
      * rewrite lookup_insert_eq. split.
        -- intros (st & [= <-] & Hin). apply elem_of_union in Hin as [Hin|Hin].
           ++ left. eauto.
           ++ right. apply elem_of_singleton in Hin. now inversion Hin.
        -- intros [(st & Hst & Hin)|[= <- <-]].
           ++ rewrite E0 in Hst. injection Hst as <-. eexists. split; [reflexivity|].
              set_solver.
           ++ eexists. split; [reflexivity|]. set_solver.
      * rewrite lookup_insert_ne by congruence. split; [tauto|].
        intros [H|[= ? ? ?]]; [exact H|congruence].
    + destruct (decide (sp = sp0)) as [->|Hne].
      * rewrite lookup_insert_eq. split.
        -- intros (st & [= <-] & Hin). right.
           apply elem_of_singleton in Hin. now inversion Hin.
        -- intros [(st & Hst & Hin)|[= <- <-]]; [congruence|].
           eexists. split; [reflexivity|]. set_solver.
      * rewrite lookup_insert_ne by congruence. split; [tauto|].
        intros [H|[= ? ? ?]]; [exact H|congruence].
Qed.

(** An indexing call returns and leaves the read paths and their counter
    alone. *)
Lemma run_index_call_frame (c : index_call) (s : Self) :
  (run_index_call c s).1 = Ok tt
  /\ read_paths (run_index_call c s).2 = read_paths s
  /\ read_paths_counter (run_index_call c s).2 = read_paths_counter s.
Proof. destruct c; cbn; auto. Qed.

Lemma run_index_calls_spec (cs : list index_call) (s : Self) :
  let s' := (forM_ run_index_call cs s).2 in
  (forM_ run_index_call cs s).1 = Ok tt
  /\ read_paths s' = read_paths s
  /\ read_paths_counter s' = read_paths_counter s
  /\ (forall sp i b, indexed_start s' sp i b
                     <-> indexed_start s sp i b \/ IndexStart sp i b ∈ cs)
  /\ (forall sp i b, indexed_middle s' sp i b
                     <-> indexed_middle s sp i b \/ IndexMiddle sp i b ∈ cs).
Proof.
  revert s. induction cs as [|c cs IH]; intros s; cbn zeta.
  - cbn. repeat split; auto; try tauto; intros [H|H]; auto; inversion H.
  - cbn [forM_]. rewrite bind_run.
    destruct (run_index_call_frame c s) as (Hok & Hrp & Hct).
    destruct (run_index_call c s) as [o s1] eqn:E1. cbn [fst snd] in *. subst o.
    destruct (IH s1) as (Hok' & Hrp' & Hct' & Hst & Hmid).
    split; [exact Hok'|]. split; [congruence|]. split; [congruence|]. split.
    + intros sp i b. rewrite Hst.
      pose proof (run_index_call_start c s sp i b) as H1. rewrite E1 in H1. cbn in H1.
      rewrite H1, elem_of_cons. split; intros [[?|?]|?] || intros [?|[?|?]]; auto.
    + intros sp i b. rewrite Hmid.
      pose proof (run_index_call_middle c s sp i b) as H1. rewrite E1 in H1. cbn in H1.
      rewrite H1, elem_of_cons. split; intros [[?|?]|?] || intros [?|[?|?]]; auto.
Qed.


(** The calls issued for one read, by kind. *)
Lemma start_call_of_read (read_id i : nat) (p sp : list (string * bool)) (b : bool) :
  IndexStart sp i b ∈ read_index_calls read_id p
  <-> i = read_id /\ exists k, 1 <= k < length p /\ sp = take k (oriented b p).
Proof.
  unfold read_index_calls. rewrite list_elem_of_In, in_flat_map. split.
  - intros (k & Hk & Hin). apply in_seq in Hk. apply in_app_or in Hin as [Hin|Hin].
    + unfold start_calls in Hin. cbn in Hin.
      destruct Hin as [[= <- <- <-]|[[= <- <- <-]|[]]];
        (split; [reflexivity|]; exists k; split; [lia|reflexivity]).
    + unfold middle_calls in Hin. apply in_flat_map in Hin as (g & _ & Hin).
      cbn in Hin. destruct Hin as [H|[H|[]]]; discriminate.
  - intros (-> & k & Hk & ->). exists k. split; [apply in_seq; lia|].
    apply in_or_app. left. unfold start_calls. destruct b; cbn; auto.
Qed.

Lemma middle_call_of_read (read_id i : nat) (p sp : list (string * bool)) (b : bool) :
  IndexMiddle sp i b ∈ read_index_calls read_id p
  <-> i = read_id
      /\ exists k go_sub, 1 <= k /\ 1 <= go_sub /\ go_sub + k < length p
                          /\ sp = take k (drop go_sub (oriented b p)).
Proof.
  unfold read_index_calls. rewrite list_elem_of_In, in_flat_map. split.
  - intros (k & Hk & Hin). apply in_seq in Hk. apply in_app_or in Hin as [Hin|Hin].
    + unfold start_calls in Hin. cbn in Hin. destruct Hin as [H|[H|[]]]; discriminate.
    + unfold middle_calls in Hin. apply in_flat_map in Hin as (g & Hg & Hin).
      apply in_seq in Hg. cbn in Hin.
      destruct Hin as [[= <- <- <-]|[[= <- <- <-]|[]]];
        (split; [reflexivity|]; exists k, g; repeat split; try lia; reflexivity).
  - intros (-> & k & g & Hk & Hg & Hlen & ->). exists k. split; [apply in_seq; lia|].
    apply in_or_app. right. unfold middle_calls. apply in_flat_map. exists g.
    split; [apply in_seq; lia|]. destruct b; cbn; auto.
Qed.

Lemma forM__app {A} (f : A -> M unit) (l1 l2 : list A) (s : Self) :
  forM_ f (l1 ++ l2) s = (forM_ f l1;; forM_ f l2) s.
Proof.
  revert s. induction l1 as [|a l1 IH]; intros s; [reflexivity|].
  cbn [forM_ app]. rewrite !bind_run. destruct (f a s) as [[[]| |] s1]; try reflexivity.
  rewrite IH. reflexivity.
Qed.

(** The second loop of [index_readpaths_subpaths] issues, read after
    read, the calls of each read. *)
Lemma index_loop_flat (rps : list (nat * list (string * bool))) (s : Self) :
  forM_ (fun '(read_id, this_read_path) =>
           forM_ run_index_call (read_index_calls read_id this_read_path)) rps s
  = forM_ run_index_call
      (flat_map (fun ip => read_index_calls ip.1 ip.2) rps) s.
Proof.
  revert s. induction rps as [|[i p] rps IH]; intros s; [reflexivity|].
  cbn [forM_ flat_map fst snd]. rewrite forM__app, !bind_run.
  destruct (forM_ run_index_call (read_index_calls i p) s) as [[[]| |] s1];
    try reflexivity.
  apply IH.
Qed.

(** The calls of the whole loop, by kind. *)
Lemma call_of_reads (rps : list (list (string * bool))) (c : index_call) :
  c ∈ flat_map (fun ip => read_index_calls ip.1 ip.2) (imap (fun i p => (i, p)) rps)
  <-> exists i p, rps !! i = Some p /\ c ∈ read_index_calls i p.
Proof.
  rewrite list_elem_of_In, in_flat_map. split.
  - intros ([i p] & Hin & Hc). apply list_elem_of_In, elem_of_lookup_imap in Hin
      as (i' & p' & [= -> ->] & Hl).
    exists i', p'. split; [exact Hl|]. now apply list_elem_of_In.
  - intros (i & p & Hl & Hc). exists (i, p). split; [|now apply list_elem_of_In].
    apply list_elem_of_In, elem_of_lookup_imap. eauto.
Qed.


(** *** The first loop *)

Lemma count_read_path_spec (p : list (string * bool)) (s : Self)
    (done : list (list (string * bool))) :
  counts_reads s done ->
  exists s1, count_read_path p s = (Ok tt, s1)
    /\ counts_reads s1 (done ++ [p])
    /\ starting_subpath_to_readpaths s1 = starting_subpath_to_readpaths s
    /\ middle_subpath_to_readpaths s1 = middle_subpath_to_readpaths s.
Proof.
  intros (Hnd & Hin & Hct). unfold count_read_path. rewrite bind_run. cbn [gets].
  assert (Hcount : forall q, count_occ path_eq_dec (done ++ [p]) q
            = count_occ path_eq_dec done q + (if path_eq_dec p q then 1 else 0)).
  { intros q. rewrite count_occ_app. cbn [count_occ].
    destruct (path_eq_dec p q); reflexivity. }
  pose proof (Hct p) as Hp.
  destruct (read_paths_counter s !! p) as [c|] eqn:E.
  - eexists. split; [reflexivity|]. unfold counts_reads. cbn. repeat split; auto.
    + intros Hq. apply elem_of_app. left. now apply Hin.
    + intros Hq. apply elem_of_app in Hq as [Hq|Hq]; [now apply Hin|].
      apply list_elem_of_singleton in Hq as ->. apply Hin.
      destruct (Nat.eqb_spec (count_occ path_eq_dec done p) 0) as [|Hn]; [discriminate|].
      apply list_elem_of_In. apply (count_occ_In path_eq_dec). lia.
    + intros q. rewrite Hcount. destruct (path_eq_dec p q) as [<-|Hne].
      * rewrite lookup_insert_eq.
        destruct (Nat.eqb_spec (count_occ path_eq_dec done p) 0) as [|Hn]; [discriminate|].
        injection Hp as ->.
        destruct (Nat.eqb_spec (count_occ path_eq_dec done p + 1) 0); [lia|reflexivity].
      * rewrite lookup_insert_ne by exact Hne. rewrite Hct. now rewrite Nat.add_0_r.
  - rewrite bind_run. cbn [modify]. eexists. split; [reflexivity|]. unfold counts_reads. cbn.
    assert (Hnew : p ∉ read_paths s).
    { intros Hq. apply Hin, list_elem_of_In, (count_occ_In path_eq_dec) in Hq.
      destruct (Nat.eqb_spec (count_occ path_eq_dec done p) 0); [lia|discriminate]. }
    repeat split; auto.
    + apply NoDup_app. split; [exact Hnd|]. split; [|apply NoDup_singleton].
      intros q Hq Hq'. apply list_elem_of_singleton in Hq' as ->. contradiction.
    + intros Hq. apply elem_of_app in Hq as [Hq|Hq]; apply elem_of_app;
        [left; now apply Hin|now right].
    + intros Hq. apply elem_of_app in Hq as [Hq|Hq]; apply elem_of_app;
        [left; now apply Hin|now right].
    + intros q. rewrite Hcount. destruct (path_eq_dec p q) as [<-|Hne].
      * rewrite lookup_insert_eq.
        destruct (Nat.eqb_spec (count_occ path_eq_dec done p) 0) as [->|]; [|discriminate].
        reflexivity.
      * rewrite lookup_insert_ne by exact Hne. rewrite Hct. now rewrite Nat.add_0_r.
Qed.

Lemma count_read_path_frame (p : list (string * bool)) (s : Self) :
  exists s1, count_read_path p s = (Ok tt, s1)
    /\ starting_subpath_to_readpaths s1 = starting_subpath_to_readpaths s
    /\ middle_subpath_to_readpaths s1 = middle_subpath_to_readpaths s.
Proof.
  unfold count_read_path. rewrite bind_run. cbn [gets].
  destruct (read_paths_counter s !! p); [|rewrite bind_run]; cbn [modify];
    eexists; (split; [reflexivity|]); cbn; auto.
Qed.

Lemma summarize_fold_frame (filter_by_graph : bool) (records : list AlignRecord) :
  forall (acc : list Z) (s : Self),
  exists s1,
    foldM (fun alignment_lengths gaf_record =>
      let this_read_path := get_standardized_path (gaf_path gaf_record) in
      if filter_by_graph then
        if contain_path this_read_path then
          count_read_path this_read_path;;
          mret (alignment_lengths ++ [p_align_len gaf_record])
        else mret alignment_lengths
      else
        count_read_path this_read_path;;
        mret (alignment_lengths ++ [p_align_len gaf_record]))
      acc records s
    = (Ok (acc ++ (p_align_len <$> List.filter (fun gaf_record =>
         negb filter_by_graph || contain_path (get_standardized_path (gaf_path gaf_record)))
         records)), s1)
    /\ starting_subpath_to_readpaths s1 = starting_subpath_to_readpaths s
    /\ middle_subpath_to_readpaths s1 = middle_subpath_to_readpaths s.
Proof.
  match goal with
  | |- forall acc s, exists s1, foldM ?f _ _ _ = _ /\ _ => set (step := f)
  end.
  assert (Hstep : forall acc r s,
    step acc r s
    = if negb filter_by_graph || contain_path (get_standardized_path (gaf_path r))
      then (count_read_path (get_standardized_path (gaf_path r));;
            mret (acc ++ [p_align_len r])) s
      else (Ok acc, s)).
  { intros acc r s. subst step. cbv beta zeta.
    destruct filter_by_graph, (contain_path _); reflexivity. }
  induction records as [|r records IH]; intros acc s.
  - exists s. cbn. rewrite !app_nil_r. auto.
  - cbn [foldM List.filter]. rewrite bind_run, Hstep.
    destruct (negb filter_by_graph || contain_path _).
    + destruct (count_read_path_frame (get_standardized_path (gaf_path r)) s)
        as (s1 & Hrun & Hst & Hmid).
      rewrite bind_run, Hrun. cbn [mret M_ret].
      destruct (IH (acc ++ [p_align_len r]) s1) as (s2 & -> & Hst2 & Hmid2).
      exists s2. cbn [fmap list_fmap]. rewrite <- !app_assoc. cbn [app].
      split; [reflexivity|]. split; congruence.
    + apply IH.
Qed.

Lemma summarize_alignment_frame (filter_by_graph : bool) (s : Self) :
  exists s1,
    summarize_alignment filter_by_graph s
    = (Ok (p_align_len <$> kept_records filter_by_graph), s1)
    /\ starting_subpath_to_readpaths s1 = starting_subpath_to_readpaths s
    /\ middle_subpath_to_readpaths s1 = middle_subpath_to_readpaths s.
Proof. exact (summarize_fold_frame filter_by_graph alignment [] s). Qed.

Lemma summarize_alignment_spec (filter_by_graph : bool) (records : list AlignRecord) :
  forall (acc : list Z) (s : Self) (done : list (list (string * bool))),
  counts_reads s done ->
  let kept := List.filter (fun gaf_record =>
      negb filter_by_graph || contain_path (get_standardized_path (gaf_path gaf_record)))
      records in
  exists s1,
    foldM (fun alignment_lengths gaf_record =>
      let this_read_path := get_standardized_path (gaf_path gaf_record) in
      if filter_by_graph then
        if contain_path this_read_path then
          count_read_path this_read_path;;
          mret (alignment_lengths ++ [p_align_len gaf_record])
        else mret alignment_lengths
      else
        count_read_path this_read_path;;
        mret (alignment_lengths ++ [p_align_len gaf_record]))
      acc records s
    = (Ok (acc ++ (p_align_len <$> kept)), s1)
    /\ counts_reads s1
         (done ++ ((fun gaf_record => get_standardized_path (gaf_path gaf_record))
                     <$> kept))
    /\ starting_subpath_to_readpaths s1 = starting_subpath_to_readpaths s
    /\ middle_subpath_to_readpaths s1 = middle_subpath_to_readpaths s.
Proof.
  match goal with
  | |- forall acc s done, _ -> let kept := _ in exists s1, foldM ?f _ _ _ = _ /\ _ =>
      set (step := f)
  end.
  assert (Hstep : forall acc r s,
    step acc r s
    = if negb filter_by_graph || contain_path (get_standardized_path (gaf_path r))
      then (count_read_path (get_standardized_path (gaf_path r));;
            mret (acc ++ [p_align_len r])) s
      else (Ok acc, s)).
  { intros acc r s. subst step. cbv beta zeta.
    destruct filter_by_graph, (contain_path _); reflexivity. }
  induction records as [|r records IH]; intros acc s done Hs; cbn zeta.
  - exists s. cbn. rewrite !app_nil_r. auto.
  - cbn [foldM List.filter]. rewrite bind_run, Hstep.
    destruct (negb filter_by_graph || contain_path _).
    + destruct (count_read_path_spec (get_standardized_path (gaf_path r)) s done Hs)
        as (s1 & Hrun & Hs1 & Hst & Hmid).
      rewrite bind_run, Hrun. cbn [mret M_ret].
      destruct (IH (acc ++ [p_align_len r]) s1 _ Hs1) as (s2 & -> & Hs2 & Hst2 & Hmid2).
      exists s2. cbn [fmap list_fmap]. rewrite <- !app_assoc in *. cbn [app] in *.
      split; [reflexivity|]. split; [exact Hs2|]. split; congruence.
    + apply IH, Hs.
Qed.

(** What a run of [index_readpaths_subpaths] that returns has done. *)
Lemma index_readpaths_subpaths_spec (filter_by_graph : bool) (s s' : Self) :
  index_readpaths_subpaths filter_by_graph s = (Ok tt, s') ->
  exists s1 lmal,
    summarize_alignment filter_by_graph (set_read_paths_counter ∅ s)
    = (Ok (p_align_len <$> kept_records filter_by_graph), s1)
    /\ starting_subpath_to_readpaths s1 = starting_subpath_to_readpaths s
    /\ middle_subpath_to_readpaths s1 = middle_subpath_to_readpaths s
    /\ (read_paths s = [] -> counts_reads s1 (kept_paths filter_by_graph))
    /\ last (merge_sort Z.le (p_align_len <$> kept_records filter_by_graph)) = Some lmal
    /\ local_max_alignment_len s' = Some lmal
    /\ read_paths s' = read_paths s1
    /\ read_paths_counter s' = read_paths_counter s1
    /\ (forall sp i b, indexed_start s' sp i b
          <-> indexed_start s1 sp i b
              \/ exists p, read_paths s1 !! i = Some p
                           /\ IndexStart sp i b ∈ read_index_calls i p)
    /\ (forall sp i b, indexed_middle s' sp i b
          <-> indexed_middle s1 sp i b
              \/ exists p, read_paths s1 !! i = Some p
                           /\ IndexMiddle sp i b ∈ read_index_calls i p).
Proof.
  unfold index_readpaths_subpaths. intros Hrun.
  rewrite bind_run in Hrun. cbn [modify] in Hrun. rewrite bind_run in Hrun.
  set (s0 := set_read_paths_counter ∅ s) in *.
  assert (Hsum : exists s1,
    summarize_alignment filter_by_graph s0
    = (Ok (p_align_len <$> kept_records filter_by_graph), s1)
    /\ starting_subpath_to_readpaths s1 = starting_subpath_to_readpaths s
    /\ middle_subpath_to_readpaths s1 = middle_subpath_to_readpaths s
    /\ (read_paths s = [] -> counts_reads s1 (kept_paths filter_by_graph))).
  { destruct (summarize_alignment_frame filter_by_graph s0) as (s1 & Hs1 & Hst & Hmid).
    exists s1. split; [exact Hs1|]. split; [exact Hst|]. split; [exact Hmid|].
    intros Hnil.
    assert (H0 : counts_reads s0 []).
    { split; [|split]; subst s0; cbn; [rewrite Hnil; constructor| |].
      - intros p. rewrite Hnil. tauto.
      - intros p. apply lookup_empty. }
    destruct (summarize_alignment_spec filter_by_graph alignment [] s0 [] H0)
      as (s1' & Hs1' & Hc & _).
    unfold summarize_alignment in Hs1. cbv zeta in Hs1, Hs1'.
    rewrite Hs1 in Hs1'. injection Hs1' as <-.
    exact Hc. }
  destruct Hsum as (s1 & Hs1 & Hst1 & Hmid1 & Hc1). rewrite Hs1 in Hrun.
  rewrite bind_run in Hrun. cbn [gets] in Hrun. rewrite bind_run in Hrun.
  rewrite index_loop_flat in Hrun.
  destruct (run_index_calls_spec
    (flat_map (fun ip => read_index_calls ip.1 ip.2)
       (imap (fun i p => (i, p)) (read_paths s1))) s1)
    as (Hok & Hrp & Hct & Hstart & Hmiddle).
  destruct (forM_ run_index_call _ s1) as [o s2]. cbn [fst snd] in *. subst o.
  rewrite bind_run in Hrun.
  destruct (last (merge_sort Z.le (p_align_len <$> kept_records filter_by_graph)))
    as [lmal|] eqn:Hlast; cbn [lift_opt mret M_ret raise] in Hrun; [|discriminate].
  rewrite bind_run in Hrun. cbn [modify] in Hrun. injection Hrun as <-.
  exists s1, lmal. cbn. repeat (split; [assumption || reflexivity|]). split.
  - intros sp i b. unfold indexed_start in *. cbn. rewrite Hstart.
    rewrite call_of_reads. split; (intros [H|H]; [now left|right]).
    + destruct H as (i' & p & Hl & Hc).
      pose proof (proj1 (start_call_of_read _ _ _ _ _) Hc) as [-> _]. eauto.
    + destruct H as (p & Hl & Hc). eauto.
  - intros sp i b. unfold indexed_middle in *. cbn. rewrite Hmiddle.
    rewrite call_of_reads. split; (intros [H|H]; [now left|right]).
    + destruct H as (i' & p & Hl & Hc).
      pose proof (proj1 (middle_call_of_read _ _ _ _ _) Hc) as [-> _]. eauto.
    + destruct H as (p & Hl & Hc). eauto.
Qed.


Lemma last_of_sorted (l : list Z) (m : Z) :
  StronglySorted Z.le l -> last l = Some m -> forall x, x ∈ l -> (x <= m)%Z.
Proof.
  induction 1 as [|y l Hl IH Hy]; intros Hlast x Hx; [inversion Hx|].
  destruct l as [|z l'].
  - cbn in Hlast. injection Hlast as <-. apply list_elem_of_singleton in Hx as ->. lia.
  - change (last (y :: z :: l')) with (last (z :: l')) in Hlast.
    apply elem_of_cons in Hx as [->|Hx]; [|now apply IH].
    rewrite Forall_forall in Hy. etransitivity; [apply (Hy z); left|].
    apply IH; [exact Hlast|left].
Qed.

(** X1. After [index_readpaths_subpaths] has run on a generator that held
    no read path, [self.read_paths] lists the standardized paths of the
    kept records without repetition, and [self.__read_paths_counter] gives
    each of them the number of kept records that have it (and has no other
    key). *)
Theorem read_paths_counted_once (filter_by_graph : bool) (s s' : Self) :
  read_paths s = [] ->
  index_readpaths_subpaths filter_by_graph s = (Ok tt, s') ->
  counts_reads s' (kept_paths filter_by_graph).
Proof.
  intros Hnil Hrun.
  destruct (index_readpaths_subpaths_spec filter_by_graph s s' Hrun)
    as (s1 & lmal & _ & _ & _ & Hc & _ & _ & Hrp & Hct & _).
  destruct (Hc Hnil) as (Hnd & Hin & Hcount).
  split; [|split].
  - now rewrite Hrp.
  - intros p. rewrite Hrp. apply Hin.
  - intros p. rewrite Hct. apply Hcount.
Qed.

(** X2. After [index_readpaths_subpaths] has run on a generator whose
    starting index was empty, [(read_id, strand)] is stored under a
    subpath exactly when the subpath is a proper, non-empty prefix of read
    [read_id] taken in direction [strand]: its first [k] segments for some
    [1 <= k < len(read)]. *)
Theorem starting_index_holds_proper_prefixes (filter_by_graph : bool) (s s' : Self) :
  starting_subpath_to_readpaths s = ∅ ->
  index_readpaths_subpaths filter_by_graph s = (Ok tt, s') ->
  forall subpath read_id strand,
    indexed_start s' subpath read_id strand
    <-> exists read_path k,
          read_paths s' !! read_id = Some read_path
          /\ 1 <= k < length read_path
          /\ subpath = take k (oriented strand read_path).
Proof.
  intros Hempty Hrun sp i b.
  destruct (index_readpaths_subpaths_spec filter_by_graph s s' Hrun)
    as (s1 & lmal & _ & Hst & _ & _ & _ & _ & Hrp & _ & Hstart & _).
  rewrite Hstart, Hrp. split.
  - intros [(st & Hl & _)|(p & Hl & Hc)].
    + rewrite Hst, Hempty, lookup_empty in Hl. discriminate.
    + apply start_call_of_read in Hc as (_ & k & Hk & ->). eauto.
  - intros (p & k & Hl & Hk & ->). right. exists p. split; [exact Hl|].
    apply start_call_of_read. eauto.
Qed.

(** X3. After [index_readpaths_subpaths] has run on a generator whose
    middle index was empty, [(read_id, strand)] is stored under a subpath
    exactly when the subpath is a block of consecutive segments of read
    [read_id], taken in direction [strand], that leaves out the first and
    the last segment: [read[go_sub : go_sub + k]] with [1 <= k],
    [1 <= go_sub] and [go_sub + k < len(read)]. *)
Theorem middle_index_holds_inner_blocks (filter_by_graph : bool) (s s' : Self) :
  middle_subpath_to_readpaths s = ∅ ->
  index_readpaths_subpaths filter_by_graph s = (Ok tt, s') ->
  forall subpath read_id strand,
    indexed_middle s' subpath read_id strand
    <-> exists read_path k go_sub,
          read_paths s' !! read_id = Some read_path
          /\ 1 <= k /\ 1 <= go_sub /\ go_sub + k < length read_path
          /\ subpath = take k (drop go_sub (oriented strand read_path)).
Proof.
  intros Hempty Hrun sp i b.
  destruct (index_readpaths_subpaths_spec filter_by_graph s s' Hrun)
    as (s1 & lmal & _ & _ & Hmid & _ & _ & _ & Hrp & _ & _ & Hmiddle).
  rewrite Hmiddle, Hrp. split.
  - intros [(st & Hl & _)|(p & Hl & Hc)].
    + rewrite Hmid, Hempty, lookup_empty in Hl. discriminate.
    + apply middle_call_of_read in Hc as (_ & k & g & Hk & Hg & Hlen & ->).
      exists p, k, g. auto.
  - intros (p & k & g & Hl & Hk & Hg & Hlen & ->). right. exists p. split; [exact Hl|].
    apply middle_call_of_read. split; [reflexivity|]. exists k, g. auto.
Qed.

(** X4. After [index_readpaths_subpaths], [self.local_max_alignment_len]
    is the largest [p_align_len] among the kept records: it is one of
    their lengths and none of them is larger. *)
Theorem local_max_alignment_len_is_maximum (filter_by_graph : bool) (s s' : Self) :
  index_readpaths_subpaths filter_by_graph s = (Ok tt, s') ->
  exists lmal,
    local_max_alignment_len s' = Some lmal
    /\ lmal ∈ p_align_len <$> kept_records filter_by_graph
    /\ forall r, r ∈ kept_records filter_by_graph -> (p_align_len r <= lmal)%Z.
Proof.
  intros Hrun.
  destruct (index_readpaths_subpaths_spec filter_by_graph s s' Hrun)
    as (s1 & lmal & _ & _ & _ & _ & Hlast & Hlmal & _).
  exists lmal. split; [exact Hlmal|].
  set (lens := p_align_len <$> kept_records filter_by_graph) in *.
  assert (Hperm : merge_sort Z.le lens ≡ₚ lens) by apply merge_sort_Permutation.
  assert (Hsorted : StronglySorted Z.le (merge_sort Z.le lens)).
  { apply StronglySorted_merge_sort; [intros x y z; lia|intros x y; lia]. }
  split.
  - rewrite <- Hperm. apply last_Some_elem_of, Hlast.
  - intros r Hr. apply (last_of_sorted _ _ Hsorted Hlast). rewrite Hperm.
    subst lens. apply list_elem_of_fmap. eauto.
Qed.

End IndexContents.
(** ** Coverage from the read paths *)

Section CoverageFromReads.
Context {G : Assembly} {R : RandomObj} {N : Numerics} {C : Config}.

Lemma of_nat_succ (n : nat) : (of_nat n + 1)%Q = of_nat (n + 1).
Proof.
  unfold of_nat, Qplus, inject_Z. cbn [Qnum Qden]. f_equal; lia.
Qed.

(** The table counts, for every vertex of the graph, the occurrences
    among [done]. *)
Lemma count_vertex_step (v_name : string) (v_end : bool) (done : list string)
    (s : Self) :
  (forall v, contig_coverages s !! v
             = if decide (v ∈ vertex_info.*1)
               then Some (of_nat (count_occ string_dec done v)) else None) ->
  exists s1,
    (cc ← gets contig_coverages;
     match cc !! v_name with
     | Some c => modify (set_contig_coverages (<[v_name := (c + 1)%Q]> cc))
     | None => mret tt
     end) s = (Ok tt, s1)
    /\ read_paths s1 = read_paths s
    /\ (forall v, contig_coverages s1 !! v
                  = if decide (v ∈ vertex_info.*1)
                    then Some (of_nat (count_occ string_dec (done ++ [v_name]) v))
                    else None).
Proof.
  intros Hinv. rewrite bind_run. cbn [gets].
  assert (Hcount : forall v, count_occ string_dec (done ++ [v_name]) v
            = count_occ string_dec done v + (if string_dec v_name v then 1 else 0)).
  { intros v. rewrite count_occ_app. cbn [count_occ]. destruct (string_dec v_name v); auto. }
  pose proof (Hinv v_name) as Hv.
  destruct (contig_coverages s !! v_name) as [c|] eqn:E.
  - eexists. split; [reflexivity|]. cbn. split; [reflexivity|]. intros v.
    rewrite Hcount. destruct (string_dec v_name v) as [<-|Hne].
    + rewrite lookup_insert_eq. destruct (decide (v_name ∈ vertex_info.*1)); [|discriminate].
      injection Hv as ->. now rewrite of_nat_succ.
    + rewrite lookup_insert_ne by exact Hne. rewrite Hinv, Nat.add_0_r. reflexivity.
  - exists s. split; [reflexivity|]. split; [reflexivity|]. intros v.
    rewrite Hcount. destruct (string_dec v_name v) as [<-|Hne].
    + rewrite E. destruct (decide (v_name ∈ vertex_info.*1)); [discriminate|reflexivity].
    + rewrite Hinv, Nat.add_0_r. reflexivity.
Qed.

Lemma count_vertices_loop (read_path : list (string * bool)) :
  forall (done : list string) (s : Self),
  (forall v, contig_coverages s !! v
             = if decide (v ∈ vertex_info.*1)
               then Some (of_nat (count_occ string_dec done v)) else None) ->
  exists s1,
    forM_ (fun '(v_name, v_end) =>
      cc ← gets contig_coverages;
      match cc !! v_name with
      | Some c => modify (set_contig_coverages (<[v_name := (c + 1)%Q]> cc))
      | None => mret tt
      end) read_path s = (Ok tt, s1)
    /\ read_paths s1 = read_paths s
    /\ (forall v, contig_coverages s1 !! v
                  = if decide (v ∈ vertex_info.*1)
                    then Some (of_nat (count_occ string_dec (done ++ read_path.*1) v))
                    else None).
Proof.
  induction read_path as [|[v_name v_end] read_path IH]; intros done s Hinv.
  - exists s. cbn. rewrite app_nil_r. auto.
  - cbn [forM_]. rewrite bind_run.
    destruct (count_vertex_step v_name v_end done s Hinv) as (s1 & -> & Hrp & Hinv1).
    destruct (IH _ s1 Hinv1) as (s2 & -> & Hrp2 & Hinv2).
    exists s2. split; [reflexivity|]. split; [congruence|].
    intros v. rewrite Hinv2. cbn [fmap list_fmap fst]. now rewrite <- app_assoc.
Qed.

Lemma count_reads_loop (rps : list (list (string * bool))) :
  forall (done : list string) (s : Self),
  (forall v, contig_coverages s !! v
             = if decide (v ∈ vertex_info.*1)
               then Some (of_nat (count_occ string_dec done v)) else None) ->
  exists s1,
    forM_ (fun read_path =>
      forM_ (fun '(v_name, v_end) =>
        cc ← gets contig_coverages;
        match cc !! v_name with
        | Some c => modify (set_contig_coverages (<[v_name := (c + 1)%Q]> cc))
        | None => mret tt
        end) read_path) rps s = (Ok tt, s1)
    /\ read_paths s1 = read_paths s
    /\ (forall v, contig_coverages s1 !! v
                  = if decide (v ∈ vertex_info.*1)
                    then Some (of_nat (count_occ string_dec (done ++ (concat rps).*1) v))
                    else None).
Proof.
  induction rps as [|rp rps IH]; intros done s Hinv.
  - exists s. cbn. rewrite app_nil_r. auto.
  - cbn [forM_]. rewrite bind_run.
    destruct (count_vertices_loop rp done s Hinv) as (s1 & -> & Hrp & Hinv1).
    destruct (IH _ s1 Hinv1) as (s2 & -> & Hrp2 & Hinv2).
    exists s2. split; [reflexivity|]. split; [congruence|].
    intros v. rewrite Hinv2. cbn [concat]. now rewrite fmap_app, <- app_assoc.
Qed.

(** X5. [estimate_contig_coverages_from_read_paths] returns and leaves in
    [self.contig_coverages], for every vertex of the graph, the number of
    times the vertex occurs in [self.read_paths], each distinct read path
    counted once whatever the number of reads that have it; a name outside
    the graph gets no entry. *)
Theorem estimated_coverage_counts_occurrences (s : Self) (v : string) :
  (estimate_contig_coverages_from_read_paths s).1 = Ok tt
  /\ contig_coverages (estimate_contig_coverages_from_read_paths s).2 !! v
     = if decide (v ∈ vertex_info.*1)
       then Some (of_nat (count_occ string_dec (concat (read_paths s)).*1 v))
       else None.
Proof.
  unfold estimate_contig_coverages_from_read_paths.
  rewrite bind_run. cbn [modify]. rewrite bind_run. cbn [gets].
  set (s0 := set_contig_coverages _ s).
  assert (Hinv : forall v, contig_coverages s0 !! v
             = if decide (v ∈ vertex_info.*1)
               then Some (of_nat (count_occ string_dec [] v)) else None).
  { intros w. subst s0. cbn.
    destruct (decide (w ∈ vertex_info.*1)) as [Hin|Hout].
    - destruct (list_to_map (M := gmap string Q)
                  ((fun kv : string * Vertex => (kv.1, 0%Q)) <$> vertex_info) !! w)
        as [c|] eqn:E.
      + apply elem_of_list_to_map_2, list_elem_of_fmap in E as (kv & [= _ ->] & _).
        reflexivity.
      + apply not_elem_of_list_to_map_2 in E. exfalso. apply E.
        rewrite <- list_fmap_compose. exact Hin.
    - apply not_elem_of_list_to_map_1. rewrite <- list_fmap_compose. exact Hout. }
  destruct (count_reads_loop (read_paths s0) [] s0 Hinv) as (s1 & Hrun & _ & Hinv1).
  change (read_paths s0) with (read_paths s) in *.
  rewrite Hrun. cbn [fst snd]. split; [reflexivity|]. apply Hinv1.
Qed.

End CoverageFromReads.
(** ** The coverage statistics *)

Section CoverageStatistics.
Context {G : Assembly} {R : RandomObj} {N : Numerics} {C : Config}.



Lemma find_first {A} (f : A -> bool) (l : list A) (x : A) :
  find f l = Some x ->
  exists pre post, l = pre ++ x :: post /\ f x = true /\ Forall (fun y => f y = false) pre.
Proof.
  induction l as [|y l IH]; [discriminate|]. cbn [find].
  destruct (f y) eqn:Hy.
  - intros [= ->]. exists [], l. auto.
  - intros H. destruct (IH H) as (pre & post & -> & Hx & Hpre).
    exists (y :: pre), post. auto.
Qed.

(** X7. A path with a vertex that the graph does not have is refused
    before any coverage is read: [__get_cov_mean] logs the path as invalid
    and raises for the first such vertex of the path, with or without an
    [exclude_path]. *)
Theorem cov_mean_refuses_unknown_vertex (p : list (string * bool))
    (exclude_path : option (list (string * bool))) (s : Self) :
  (exists v, v ∈ p.*1 /\ vertex_lookup v = None) ->
  exists pre v e post,
    p = pre ++ (v, e) :: post
    /\ vertex_lookup v = None
    /\ Forall (fun ve => is_Some (vertex_lookup ve.1)) pre
    /\ get_cov_mean p exclude_path s
       = (Raise (VertexNotFound v), set_error_log (error_log s ++ [InvalidPath p]) s).
Proof.
  intros (v & Hin & Hv).
  destruct (find (fun ve : string * bool =>
               negb (bool_decide (is_Some (vertex_lookup ve.1)))) p) as [[w e]|] eqn:E.
  - destruct (find_first _ _ _ E) as (pre & post & Hp & Hw & Hpre).
    exists pre, w, e, post. split; [exact Hp|]. cbn in Hw.
    apply negb_true_iff, bool_decide_eq_false in Hw.
    split; [destruct (vertex_lookup w); [exfalso; apply Hw; eauto|reflexivity]|].
    split.
    + eapply Forall_impl; [exact Hpre|]. cbn. intros ve Hve.
      apply negb_false_iff, bool_decide_eq_true in Hve. exact Hve.
    + unfold get_cov_mean, get_cov_mean_std, fmap, M_fmap. rewrite !bind_run.
      unfold check_path. destruct p as [|o p']; [destruct pre; discriminate|].
      rewrite E. reflexivity.
  - exfalso. apply list_elem_of_fmap in Hin as ([v' e'] & -> & Hin).
    apply list_elem_of_In in Hin.
    pose proof (find_none _ _ E _ Hin) as Hnone. cbn in Hnone, Hv.
    apply negb_false_iff, bool_decide_eq_true in Hnone. rewrite Hv in Hnone.
    destruct Hnone; discriminate.
Qed.

End CoverageStatistics.
Section CoverageClosedForm.
Context {G : Assembly} {R : RandomObj} {N : Numerics} {C : Config}.

Lemma Qsum_cons (x : Q) (l : list Q) : Qsum (x :: l) = (x + Qsum l)%Q.
Proof. reflexivity. Qed.

Lemma Qsum_perm (l l' : list Q) : l ≡ₚ l' -> (Qsum l == Qsum l')%Q.
Proof.
  induction 1 as [|x l l' _ IH|x y l|l l' l'' _ IH1 _ IH2]; rewrite ?Qsum_cons.
  - reflexivity.
  - now rewrite IH.
  - ring.
  - now rewrite IH1.
Qed.

Lemma Qsum_fmap_ext {A} (f g : A -> Q) (l : list A) :
  (forall x, x ∈ l -> (f x == g x)%Q) -> (Qsum (f <$> l) == Qsum (g <$> l))%Q.
Proof.
  induction l as [|a l IH]; intros H; [reflexivity|].
  cbn [fmap list_fmap]. rewrite !Qsum_cons, (H a) by left.
  rewrite IH; [reflexivity|]. intros x Hx. apply H. now right.
Qed.

Lemma sum_list_cons (x : nat) (l : list nat) : sum_list (x :: l) = x + sum_list l.
Proof. reflexivity. Qed.

Lemma Qsum_of_nat {A} (f : A -> nat) (l : list A) :
  (Qsum ((fun a => of_nat (f a)) <$> l) == of_nat (sum_list (f <$> l)))%Q.
Proof.
  induction l as [|a l IH]; [reflexivity|].
  rewrite !fmap_cons, sum_list_cons, Qsum_cons, IH.
  unfold of_nat. rewrite Nat2Z.inj_add, inject_Z_plus. reflexivity.
Qed.

(** Adding up over the positions of a list is adding up over its
    distinct elements, each weighted by its number of occurrences. *)
Lemma sum_by_counts (g : string -> nat) (l ks : list string) :
  NoDup ks -> (forall x, x ∈ l -> x ∈ ks) ->
  sum_list ((fun v => g v * count_occ string_dec l v) <$> ks) = sum_list (g <$> l).
Proof.
  intros Hnd. induction l as [|x l IH]; intros Hin.
  - clear Hin Hnd. induction ks as [|k ks IHk]; [reflexivity|].
    rewrite fmap_cons, sum_list_cons, IHk. cbn [count_occ]. cbn. lia.
  - rewrite fmap_cons, sum_list_cons.
    rewrite <- IH by (intros y Hy; apply Hin; now right).
    assert (Hx : x ∈ ks) by (apply Hin; left).
    clear IH Hin. induction ks as [|k ks IHk]; [inversion Hx|].
    apply NoDup_cons in Hnd as [Hk Hnd]. rewrite !fmap_cons, !sum_list_cons.
    cbn [count_occ]. destruct (string_dec x k) as [->|Hne].
    + assert (Hrest : sum_list ((fun v => g v * count_occ string_dec (k :: l) v) <$> ks)
                      = sum_list ((fun v => g v * count_occ string_dec l v) <$> ks)).
      { f_equal. apply list_fmap_ext. intros i v Hv. cbn [count_occ].
        destruct (string_dec k v) as [->|]; [|reflexivity].
        exfalso. apply Hk. eapply list_elem_of_lookup_2, Hv. }
      cbn [count_occ] in Hrest. rewrite Hrest. lia.
    + apply elem_of_cons in Hx as [->|Hx]; [contradiction|].
      pose proof (IHk Hnd Hx) as Hks. cbn [count_occ] in Hks. rewrite Hks. lia.
Qed.

Lemma dict_counts_items (l : list string) :
  map_to_list (dict_counts l)
  ≡ₚ (fun v => (v, count_occ string_dec l v)) <$> remove_dups l.
Proof.
  apply NoDup_Permutation.
  - apply NoDup_map_to_list.
  - apply NoDup_fmap_2; [intros v w [= ->]; reflexivity|apply NoDup_remove_dups].
  - intros [v c]. rewrite elem_of_map_to_list, dict_counts_lookup, list_elem_of_fmap.
    split.
    + intros [Hin ->]. exists v. split; [reflexivity|]. now apply elem_of_remove_dups.
    + intros (w & [= -> ->] & Hin). split; [now apply elem_of_remove_dups|reflexivity].
Qed.

(** The list comprehension that builds [v_covers] and [v_lengths]. *)
Lemma cov_items_run (items : list (string * nat)) (s s' : Self)
    (cl : list (Q * Q)) :
  mapM (fun '(v_name, c) =>
         cc ← gets contig_coverages;
         cv ← lift_opt KeyError (cc !! v_name);
         vx ← lift_opt KeyError (vertex_lookup v_name);
         mret ((cv / of_nat c)%Q, of_nat (len vx * c))) items s = (Ok cl, s') ->
  s' = s
  /\ cl = (fun vc : string * nat =>
             ((table_cov s vc.1 / of_nat vc.2)%Q, of_nat (vertex_len vc.1 * vc.2)))
          <$> items.
Proof.
  revert cl s'. induction items as [|[v c] items IH]; intros cl s' H.
  - cbn in H. injection H as <- <-. auto.
  - cbn [mapM] in H. rewrite !bind_run in H. cbn [gets] in H. rewrite bind_run in H.
    unfold table_cov, vertex_len. cbn [fmap list_fmap fst snd].
    destruct (contig_coverages s !! v) as [cv|]; cbn [lift_opt mret M_ret raise] in H;
      [|discriminate].
    rewrite bind_run in H.
    destruct (vertex_lookup v) as [vx|]; cbn [lift_opt mret M_ret raise] in H;
      [|discriminate].
    rewrite bind_run in H.
    destruct (mapM _ items s) as [[bs| |] s1] eqn:E; try discriminate.
    destruct (IH bs s1 eq_refl) as [-> ->]. cbn [mret M_ret] in H.
    injection H as <- <-. auto.
Qed.


Lemma zip_with_fst_snd {A B D} (f : A -> B -> D) (l : list (A * B)) :
  zip_with f l.*1 l.*2 = (fun x => f x.1 x.2) <$> l.
Proof. induction l as [|[a b] l IH]; [reflexivity|]. cbn. now rewrite <- IH. Qed.

Lemma of_nat_mul (a b : nat) : (of_nat (a * b) == of_nat a * of_nat b)%Q.
Proof. unfold of_nat. now rewrite Nat2Z.inj_mul, inject_Z_mult. Qed.

Lemma check_path_returns (p : list (string * bool)) (s s' : Self) :
  check_path p s = (Ok tt, s') -> s' = s.
Proof.
  unfold check_path. destruct p as [|o p']; [discriminate|].
  destruct (find _ (o :: p')) as [[v e]|]; [discriminate|].
  now intros [= <-].
Qed.

(** X8. When [__get_cov_mean] returns for a path, the path has a
    positive total segment length and the mean is the sum, over the
    distinct vertices of the path, of coverage times length, divided by
    the total length of the path's segments (a vertex the path visits
    several times adds its length each time and its coverage once). *)
Theorem cov_mean_closed_form (p : list (string * bool)) (s s' : Self) (mean : Q) :
  get_cov_mean p None s = (Ok mean, s') ->
  0 < path_segment_total p
  /\ (mean == Qsum ((fun v => table_cov s v * of_nat (vertex_len v)) <$> remove_dups p.*1)
              / of_nat (path_segment_total p))%Q.
Proof.
  unfold get_cov_mean, fmap, M_fmap, get_cov_mean_std. intros H.
  rewrite !bind_run in H.
  destruct (check_path p s) as [[[]| |] s0] eqn:Hcheck; try discriminate.
  apply check_path_returns in Hcheck as ->.
  rewrite bind_run in H. cbn [mret M_ret] in H. rewrite bind_run in H.
  destruct (mapM _ (map_to_list (dict_counts p.*1)) s) as [[cl| |] s1] eqn:Hitems;
    try discriminate.
  apply cov_items_run in Hitems as [-> ->].
  set (g := fun vc : string * nat =>
              ((table_cov s vc.1 / of_nat vc.2)%Q, of_nat (vertex_len vc.1 * vc.2))) in *.
  set (items := map_to_list (dict_counts p.*1)) in *.
  unfold weighted_mean_std in H. rewrite bind_run in H.
  unfold np_average at 1 in H.
  destruct (Qeq_bool (Qsum (g <$> items).*2) 0) eqn:Hzero;
    cbn [lift_opt mret M_ret raise] in H; [discriminate|].
  rewrite bind_run in H.
  match type of H with
  | context [lift_opt _ ?o s] => destruct o as [var|]
  end; cbn [lift_opt mret M_ret raise] in H; [|discriminate].
  injection H as <- _. cbn [fst].
  set (ks := remove_dups p.*1).
  assert (Hitems : items ≡ₚ (fun v => (v, count_occ string_dec p.*1 v)) <$> ks)
    by apply dict_counts_items.
  assert (Hden : (Qsum (g <$> items).*2 == of_nat (path_segment_total p))%Q).
  { rewrite <- list_fmap_compose.
    rewrite (Qsum_perm _ _ (fmap_Permutation _ _ _ Hitems)).
    rewrite <- list_fmap_compose.
    etransitivity;
      [apply (Qsum_of_nat (fun v => vertex_len v * count_occ string_dec p.*1 v))|].
    unfold path_segment_total. rewrite sum_by_counts; [reflexivity| |].
    - apply NoDup_remove_dups.
    - intros x Hx. now apply elem_of_remove_dups. }
  assert (Hnum : (Qsum (zip_with Qmult (g <$> items).*1 (g <$> items).*2)
                  == Qsum ((fun v => table_cov s v * of_nat (vertex_len v)) <$> ks))%Q).
  { rewrite zip_with_fst_snd, <- list_fmap_compose.
    rewrite (Qsum_perm _ _ (fmap_Permutation _ _ _ Hitems)).
    rewrite <- list_fmap_compose. apply Qsum_fmap_ext.
    intros v Hv. cbn. unfold ks in Hv.
    apply (proj1 (elem_of_remove_dups _ _)), list_elem_of_In in Hv.
    apply (count_occ_In string_dec) in Hv.
    rewrite of_nat_mul.
    assert (Hc : ~ (of_nat (count_occ string_dec p.*1 v) == 0)%Q).
    { pose proof (of_nat_pos _ Hv). lra. }
    field. exact Hc. }
  assert (Hpos : 0 < path_segment_total p).
  { destruct (path_segment_total p); [|lia]. exfalso.
    apply not_true_iff_false in Hzero. apply Hzero, Qeq_bool_iff.
    rewrite Hden. reflexivity. }
  split; [exact Hpos|].
  rewrite Qred_correct, Hnum, Hden. reflexivity.
Qed.

End CoverageClosedForm.

(** ** Exclusion with an excess *)

Section ExclusionFacts.
Context {G : Assembly} {R : RandomObj} {N : Numerics} {C : Config}.

Lemma dict_counts_lookup_count (names : list string) (v : string) :
  dict_counts names !! v
  = if count_occ string_dec names v =? 0 then None
    else Some (count_occ string_dec names v).
Proof.
  pose proof (dict_counts_default names v) as Hd.
  destruct (dict_counts names !! v) as [c|] eqn:E.
  - apply dict_counts_lookup in E as [Hin ->].
    apply list_elem_of_In, (count_occ_In string_dec) in Hin.
    destruct (Nat.eqb_spec (count_occ string_dec names v) 0); [lia|reflexivity].
  - cbn in Hd. now rewrite <- Hd.
Qed.

(** The loop over [del_names], one round for each key. *)
Lemma exclude_fold_spec (p ex : path) (l : list (string * nat)) :
  NoDup l.*1 ->
  forall (m : gmap string nat) (s : Self),
  exists m' logs,
    foldM (fun (v_names : gmap string nat) '(del_n, del_c) =>
      if decide (default 0 (v_names !! del_n) < del_c) then
        logger_error (CannotExclude ex p del_n);;
        mret v_names
      else
        let c := default 0 (v_names !! del_n) - del_c in
        mret (if c =? 0 then delete del_n v_names else <[del_n := c]> v_names))
      m l s = (Ok m', logged logs s)
    /\ (forall u, m' !! u
                  = match (list_to_map l : gmap string nat) !! u with
                    | None => m !! u
                    | Some c =>
                        if decide (default 0 (m !! u) < c) then m !! u
                        else if default 0 (m !! u) - c =? 0 then None
                             else Some (default 0 (m !! u) - c)
                    end)
    /\ (forall r, r ∈ logs
                  <-> exists u c, (u, c) ∈ l /\ default 0 (m !! u) < c
                                  /\ r = CannotExclude ex p u).
Proof.
  induction l as [|[k c] l IH]; intros Hnd m s.
  - exists m, []. split; [reflexivity|]. split.
    + intros u. cbn. now rewrite lookup_empty.
    + intros r. split; [intros H; inversion H|intros (u & c & H & _); inversion H].
  - cbn [fmap list_fmap] in Hnd. apply NoDup_cons in Hnd as [Hk Hnd].
    assert (Hkl : (list_to_map l : gmap string nat) !! k = None)
      by now apply not_elem_of_list_to_map_1.
    cbn [foldM]. rewrite bind_run.
    destruct (decide (default 0 (m !! k) < c)) as [Hlt|Hge].
    + rewrite bind_run. cbn [logger_error modify mret M_ret].
      destruct (IH Hnd m (set_error_log (error_log s ++ [CannotExclude ex p k]) s))
        as (m' & logs & Hrun & Hm' & Hlogs).
      exists m', (CannotExclude ex p k :: logs). split; [exact Hrun|]. split.
      * intros u. rewrite Hm'. cbn [list_to_map foldr]. cbn.
        destruct (decide (k = u)) as [<-|Hne].
        -- rewrite lookup_insert_eq, Hkl. now destruct (decide _).
        -- now rewrite lookup_insert_ne.
      * intros r. rewrite elem_of_cons, Hlogs. split.
        -- intros [->|(u & c' & Hin & Hu & ->)].
           ++ exists k, c. split; [left|]. auto.
           ++ exists u, c'. split; [now right|]. auto.
        -- intros (u & c' & Hin & Hu & ->).
           apply elem_of_cons in Hin as [[= -> ->]|Hin]; [now left|].
           right. eauto.
    + cbn [mret M_ret].
      set (m1 := if default 0 (m !! k) - c =? 0 then delete k m
                 else <[k := default 0 (m !! k) - c]> m).
      assert (Hm1 : forall u, u <> k -> m1 !! u = m !! u).
      { intros u Hu. subst m1. destruct (_ =? _);
          [now rewrite lookup_delete_ne|now rewrite lookup_insert_ne]. }
      assert (Hm1k : m1 !! k = if default 0 (m !! k) - c =? 0 then None
                               else Some (default 0 (m !! k) - c)).
      { subst m1. destruct (_ =? _);
          [now rewrite lookup_delete_eq|now rewrite lookup_insert_eq]. }
      destruct (IH Hnd m1 s) as (m' & logs & Hrun & Hm' & Hlogs).
      exists m', logs. split; [exact Hrun|]. split.
      * intros u. rewrite Hm'. cbn [list_to_map foldr]. cbn.
        destruct (decide (k = u)) as [<-|Hne].
        -- rewrite lookup_insert_eq, Hkl, Hm1k.
           destruct (decide _) as [|_]; [contradiction|reflexivity].
        -- rewrite lookup_insert_ne by exact Hne. now rewrite Hm1 by congruence.
      * assert (Hother : forall u c', (u, c') ∈ l -> u <> k).
        { intros u c' Hin ->. apply Hk. apply list_elem_of_fmap. now exists (k, c'). }
        intros r. rewrite Hlogs. split.
        -- intros (u & c' & Hin & Hu & ->). exists u, c'.
           split; [now right|]. rewrite <- Hm1 by eauto. auto.
        -- intros (u & c' & Hin & Hu & ->).
           apply elem_of_cons in Hin as [[= -> ->]|Hin]; [contradiction|].
           exists u, c'. split; [exact Hin|]. rewrite Hm1 by eauto. auto.
Qed.

(** The [if exclude_path:] block on the counts of the walk. *)
Lemma exclude_counts_spec (p ex : path) (s : Self) :
  exists m' logs,
    exclude_counts p ex (dict_counts p.*1) s = (Ok m', logged logs s)
    /\ (forall u, m' !! u = if remaining_multiplicity p ex u =? 0 then None
                            else Some (remaining_multiplicity p ex u))
    /\ (forall r, r ∈ logs
                  <-> exists u, count_occ string_dec p.*1 u < count_occ string_dec ex.*1 u
                                /\ r = CannotExclude ex p u).
Proof.
  destruct (exclude_fold_spec p ex (map_to_list (dict_counts ex.*1))
              (NoDup_fst_map_to_list _) (dict_counts p.*1) s)
    as (m' & logs & Hrun & Hm' & Hlogs).
  exists m', logs. split; [exact Hrun|]. split.
  - intros u. rewrite Hm', list_to_map_to_list, dict_counts_default.
    rewrite !dict_counts_lookup_count. unfold remaining_multiplicity.
    set (cp := count_occ string_dec p.*1 u). set (ce := count_occ string_dec ex.*1 u).
    destruct (Nat.eqb_spec ce 0) as [Hce|Hce].
    + destruct (Nat.ltb_spec cp ce); [lia|]. now replace (cp - ce) with cp by lia.
    + destruct (decide (cp < ce)) as [Hlt|Hge];
        destruct (Nat.ltb_spec cp ce); try lia; reflexivity.
  - intros r. rewrite Hlogs. split.
    + intros (u & c & Hin & Hu & ->). exists u. split; [|reflexivity].
      apply elem_of_map_to_list, dict_counts_lookup in Hin as [_ ->].
      now rewrite dict_counts_default in Hu.
    + intros (u & Hu & ->). exists u, (count_occ string_dec ex.*1 u).
      split; [|split; [now rewrite dict_counts_default|reflexivity]].
      apply elem_of_map_to_list, dict_counts_lookup. split; [|reflexivity].
      apply list_elem_of_In, (count_occ_In string_dec). lia.
Qed.

Lemma logged_keeps_coverages (logs : list LogRecord) (s : Self) :
  contig_coverages (logged logs s) = contig_coverages s.
Proof.
  revert s. induction logs as [|r logs IH]; intros s; [reflexivity|].
  cbn [logged foldl]. exact (IH _).
Qed.

(** The keys left after the exclusion, with their counts. *)
Lemma remaining_items (p ex : path) (m' : gmap string nat) :
  (forall u, m' !! u = if remaining_multiplicity p ex u =? 0 then None
                       else Some (remaining_multiplicity p ex u)) ->
  map_to_list m'
  ≡ₚ (fun v => (v, remaining_multiplicity p ex v)) <$> remaining_vertices p ex.
Proof.
  intros Hm'. apply NoDup_Permutation.
  - apply NoDup_map_to_list.
  - apply NoDup_fmap_2; [intros v w [= ->]; reflexivity|].
    apply NoDup_filter, NoDup_remove_dups.
  - intros [v c]. rewrite elem_of_map_to_list, Hm', list_elem_of_fmap.
    unfold remaining_vertices. split.
    + destruct (Nat.eqb_spec (remaining_multiplicity p ex v) 0) as [|Hne]; [discriminate|].
      intros [= <-]. exists v. split; [reflexivity|].
      apply list_elem_of_filter. split; [exact Hne|].
      apply elem_of_remove_dups, list_elem_of_In, (count_occ_In string_dec).
      unfold remaining_multiplicity in Hne. destruct (_ <? _); lia.
    + intros (w & [= -> ->] & Hin). apply list_elem_of_filter in Hin as [Hne _].
      now destruct (Nat.eqb_spec (remaining_multiplicity p ex w) 0).
Qed.

(** The mean alone: [numpy.average] fails on both lists or on none. *)
Lemma weighted_mean_run (a w : list Q) (s : Self) :
  (fst <$> weighted_mean_std a w) s
  = match np_average a w with
    | Some mean => (Ok mean, s)
    | None => (Raise ZeroDivisionError, s)
    end.
Proof.
  unfold fmap, M_fmap, weighted_mean_std. rewrite !bind_run. unfold np_average.
  destruct (Qeq_bool (Qsum w) 0); reflexivity.
Qed.

(** C6 (as amended). For a non-empty walk over vertices that the graph
    and the coverage table hold, and an exclusion path that holds some
    vertex more often than the walk does, [__get_cov_mean] raises nothing
    for the excess: it logs that vertex with [logger.error] (only vertices
    in excess are logged, nothing else of the generator changes), leaves
    its multiplicity as the walk has it, and goes on with the remaining
    multiplicities, the excluded ones taken off where there is no excess.
    The call returns the weighted mean over the vertices left: the sum of
    coverage times length divided by the sum of length times remaining
    multiplicity; only when that divisor is zero it raises, and then
    [ZeroDivisionError]. *)
Theorem cov_mean_excess_exclusion_logged (p ex : path) (v : string) (s : Self) :
  p <> [] ->
  (forall u, u ∈ p.*1 ->
     is_Some (vertex_lookup u) /\ is_Some (contig_coverages s !! u)) ->
  count_occ string_dec p.*1 v < count_occ string_dec ex.*1 v ->
  let total :=
    sum_list ((fun u => vertex_len u * remaining_multiplicity p ex u)
                <$> remaining_vertices p ex) in
  exists logs,
    CannotExclude ex p v ∈ logs
    /\ (forall r, r ∈ logs
          -> exists u, count_occ string_dec p.*1 u < count_occ string_dec ex.*1 u
                       /\ r = CannotExclude ex p u)
    /\ remaining_multiplicity p ex v = count_occ string_dec p.*1 v
    /\ (total = 0 ->
        get_cov_mean p (Some ex) s = (Raise ZeroDivisionError, logged logs s))
    /\ (0 < total ->
        exists mean,
          get_cov_mean p (Some ex) s = (Ok mean, logged logs s)
          /\ (mean == Qsum ((fun u => table_cov s u * of_nat (vertex_len u))
                              <$> remaining_vertices p ex)
                      / of_nat total)%Q).
Proof.
  intros Hne Hknown Hlt total.
  destruct (exclude_counts_spec p ex s) as (m' & logs & Hrun & Hm' & Hlogs).
  exists logs.
  split; [apply Hlogs; eauto|]. split; [intros r Hr; now apply Hlogs|].
  split.
  { unfold remaining_multiplicity. destruct (Nat.ltb_spec (count_occ string_dec p.*1 v)
      (count_occ string_dec ex.*1 v)); [reflexivity|lia]. }
  assert (Hex : exists ve ex', ex = ve :: ex').
  { destruct ex as [|ve ex']; [cbn in Hlt; lia|eauto]. }
  destruct Hex as (ve & ex' & Hexeq).
  pose proof (remaining_items p ex m' Hm') as Hitems.
  set (s1 := logged logs s) in *.
  set (g := fun vc : string * nat =>
              ((table_cov s1 vc.1 / of_nat vc.2)%Q, of_nat (vertex_len vc.1 * vc.2))).
  assert (Hcl : mapM (fun '(v_name, c) =>
                  cc ← gets contig_coverages;
                  cv ← lift_opt KeyError (cc !! v_name);
                  vx ← lift_opt KeyError (vertex_lookup v_name);
                  mret ((cv / of_nat c)%Q, of_nat (len vx * c)))
                (map_to_list m') s1 = (Ok (g <$> map_to_list m'), s1)).
  { destruct (mapM_pure
      (fun '(v_name, c) =>
         cc ← gets contig_coverages;
         cv ← lift_opt KeyError (cc !! v_name);
         vx ← lift_opt KeyError (vertex_lookup v_name);
         mret ((cv / of_nat c)%Q, of_nat (len vx * c)))
      (fun (a : string * nat) (b : Q * Q) => True)
      (map_to_list m') s1) as (cl & Hcl & _).
    { intros [u c] Hu. apply elem_of_map_to_list in Hu. rewrite Hm' in Hu.
      destruct (Nat.eqb_spec (remaining_multiplicity p ex u) 0) as [|Hr]; [discriminate|].
      assert (Hup : u ∈ p.*1).
      { apply list_elem_of_In, (count_occ_In string_dec).
        unfold remaining_multiplicity in Hr. destruct (_ <? _); lia. }
      destruct (Hknown u Hup) as [[vx Hvx] [cv Hcv]].
      exists ((cv / of_nat c)%Q, of_nat (len vx * c)). split; [|exact I].
      rewrite bind_run. cbn [gets]. unfold s1. rewrite logged_keeps_coverages, Hcv, bind_run.
      cbn [lift_opt mret M_ret]. rewrite Hvx, bind_run. reflexivity. }
    pose proof (cov_items_run _ _ _ _ Hcl) as [_ ->]. exact Hcl. }
  set (items := map_to_list m') in *.
  set (ks := remaining_vertices p ex) in *.
  assert (Hden : (Qsum (g <$> items).*2 == of_nat total)%Q).
  { rewrite <- list_fmap_compose.
    rewrite (Qsum_perm _ _ (fmap_Permutation _ _ _ Hitems)).
    rewrite <- list_fmap_compose.
    apply (Qsum_of_nat (fun u => vertex_len u * remaining_multiplicity p ex u)). }
  assert (Hnum : (Qsum (zip_with Qmult (g <$> items).*1 (g <$> items).*2)
                  == Qsum ((fun u => table_cov s u * of_nat (vertex_len u)) <$> ks))%Q).
  { rewrite zip_with_fst_snd, <- list_fmap_compose.
    rewrite (Qsum_perm _ _ (fmap_Permutation _ _ _ Hitems)).
    rewrite <- list_fmap_compose. apply Qsum_fmap_ext.
    intros u Hu. cbn. unfold ks, remaining_vertices in Hu.
    apply list_elem_of_filter in Hu as [Hr _].
    rewrite of_nat_mul. unfold table_cov, s1. rewrite logged_keeps_coverages.
    assert (Hc : ~ (of_nat (remaining_multiplicity p ex u) == 0)%Q).
    { pose proof (of_nat_pos (remaining_multiplicity p ex u) ltac:(lia)). lra. }
    field. exact Hc. }
  assert (Hhead : get_cov_mean p (Some ex) s
                  = (fst <$> weighted_mean_std (g <$> items).*1 (g <$> items).*2) s1).
  { unfold get_cov_mean, get_cov_mean_std, fmap at 1 3, M_fmap.
    rewrite !bind_run, check_path_ok; [|exact Hne|intros u Hu; apply (Hknown u Hu)].
    rewrite bind_run. subst ex. rewrite Hrun, bind_run. fold s1. fold items. rewrite Hcl.
    reflexivity. }
  rewrite Hhead, weighted_mean_run. unfold np_average.
  destruct (Qeq_bool (Qsum (g <$> items).*2) 0) eqn:Hzero.
  - apply Qeq_bool_iff in Hzero. rewrite Hden in Hzero.
    assert (Ht : total = 0).
    { destruct (Nat.eq_dec total 0) as [|Hn]; [assumption|].
      pose proof (of_nat_pos total ltac:(lia)). lra. }
    split; [reflexivity|]. intros Hpos. lia.
  - assert (Ht : 0 < total).
    { destruct (Nat.eq_dec total 0) as [H0|]; [|lia]. exfalso.
      apply not_true_iff_false in Hzero.
      apply Hzero, Qeq_bool_iff. rewrite Hden, H0. reflexivity. }
    split; [intros H0; lia|]. intros _.
    eexists. split; [reflexivity|].
    rewrite Qred_correct, Hnum, Hden. reflexivity.
Qed.

End ExclusionFacts.

Section ExclusionExample.
Import Examples.
#[local] Existing Instance loop_assembly.
#[local] Existing Instance loop_config.
#[local] Existing Instance ScriptedRandom.random_obj.
#[local] Existing Instance StandIn.numerics.

(** The hypotheses of [cov_mean_excess_exclusion_logged] on the loop: the
    walk is A, the exclusion path holds A twice. *)
Lemma cov_mean_excess_exclusion_logged_witness :
  [A_fwd] <> []
  /\ (forall u, u ∈ [A_fwd].*1 ->
        is_Some (vertex_lookup u) /\ is_Some (contig_coverages (ready_self []) !! u))
  /\ count_occ string_dec [A_fwd].*1 "A"%string
       < count_occ string_dec [A_fwd; A_fwd].*1 "A"%string
  /\ let total :=
        sum_list ((fun u => vertex_len u * remaining_multiplicity [A_fwd] [A_fwd; A_fwd] u)
                    <$> remaining_vertices [A_fwd] [A_fwd; A_fwd]) in
      exists logs,
        CannotExclude [A_fwd; A_fwd] [A_fwd] "A"%string ∈ logs
        /\ (forall r, r ∈ logs
              -> exists u, count_occ string_dec [A_fwd].*1 u
                             < count_occ string_dec [A_fwd; A_fwd].*1 u
                           /\ r = CannotExclude [A_fwd; A_fwd] [A_fwd] u)
        /\ remaining_multiplicity [A_fwd] [A_fwd; A_fwd] "A"%string
           = count_occ string_dec [A_fwd].*1 "A"%string
        /\ (total = 0 ->
            get_cov_mean [A_fwd] (Some [A_fwd; A_fwd]) (ready_self [])
            = (Raise ZeroDivisionError, logged logs (ready_self [])))
        /\ (0 < total ->
            exists mean,
              get_cov_mean [A_fwd] (Some [A_fwd; A_fwd]) (ready_self [])
              = (Ok mean, logged logs (ready_self []))
              /\ (mean == Qsum ((fun u => table_cov (ready_self []) u
                                          * of_nat (vertex_len u))
                                  <$> remaining_vertices [A_fwd] [A_fwd; A_fwd])
                          / of_nat total)%Q).
Proof.
  assert (H1 : [A_fwd] <> []) by discriminate.
  assert (H2 : forall u, u ∈ [A_fwd].*1 ->
            is_Some (vertex_lookup u)
            /\ is_Some (contig_coverages (ready_self []) !! u)).
  { intros u Hu. apply list_elem_of_singleton in Hu as ->.
    split; vm_compute; eauto. }
  assert (H3 : count_occ string_dec [A_fwd].*1 "A"%string
               < count_occ string_dec [A_fwd; A_fwd].*1 "A"%string)
    by (vm_compute; lia).
  split; [exact H1|]. split; [exact H2|]. split; [exact H3|].
  exact (cov_mean_excess_exclusion_logged [A_fwd] [A_fwd; A_fwd] "A"%string
           (ready_self []) H1 H2 H3).
Defined.

End ExclusionExample.
(** ** The books of the sampling loop *)

Section SamplingBooks.
Context {G : Assembly} {R : RandomObj} {N : Numerics} {C : Config}.

Lemma sum_bump (l : list (list (string * bool))) (w : list (string * bool))
    (f f' : list (string * bool) -> nat) :
  NoDup l -> w ∈ l -> f' w = f w + 1 -> (forall p, p <> w -> f' p = f p) ->
  sum_list (f' <$> l) = sum_list (f <$> l) + 1.
Proof.
  intros Hnd Hw Hfw Hf. induction l as [|p l IH]; [inversion Hw|].
  apply NoDup_cons in Hnd as [Hp Hnd]. rewrite !fmap_cons, !sum_list_cons.
  destruct (decide (p = w)) as [->|Hne].
  - rewrite Hfw. assert (Hsame : f' <$> l = f <$> l).
    { apply list_fmap_ext. intros i q Hq. apply Hf. intros ->.
      apply Hp. eapply list_elem_of_lookup_2, Hq. }
    rewrite Hsame. lia.
  - apply elem_of_cons in Hw as [->|Hw]; [contradiction|].
    rewrite (Hf p Hne), (IH Hnd Hw). lia.
Qed.

Lemma sum_same (l : list (list (string * bool))) (w : list (string * bool))
    (f f' : list (string * bool) -> nat) :
  w ∉ l -> (forall p, p <> w -> f' p = f p) ->
  sum_list (f' <$> l) = sum_list (f <$> l).
Proof.
  intros Hw Hf. f_equal. apply list_fmap_ext. intros i q Hq. apply Hf. intros ->.
  apply Hw. eapply list_elem_of_lookup_2, Hq.
Qed.

(** Storing the walks of one traversal keeps the books. *)
Lemma store_paths_books (l : list (list (string * bool))) :
  forall (cv : nat) (s : Self),
  components_in_sync s -> walks_counted s = cv -> cv < num_search ->
  exists cv' s',
    store_paths l cv s = (Ok cv', s')
    /\ components_in_sync s' /\ walks_counted s' = cv' /\ cv' <= num_search.
Proof.
  induction l as [|w l IH]; intros cv s Hsync Hsum Hcv.
  - exists cv, s. cbn. repeat split; try apply Hsync; auto; lia.
  - cbn [store_paths]. rewrite bind_run. cbn [gets]. rewrite bind_run.
    destruct Hsync as (Hnd & Hdom & Hpos).
    set (s1 := match components_counts s !! w with
               | Some c => set_components_counts (<[w := c + 1]> (components_counts s)) s
               | None => set_components (components s ++ [w])
                           (set_components_counts (<[w := 1]> (components_counts s)) s)
               end).
    assert (Hstep : (match components_counts s !! w with
              | Some c => modify (set_components_counts (<[w := c + 1]> (components_counts s)))
              | None => modify (set_components_counts (<[w := 1]> (components_counts s)));;
                        modify (fun s => set_components (components s ++ [w]) s)
              end) s = (Ok tt, s1)).
    { subst s1. destruct (components_counts s !! w); reflexivity. }
    rewrite Hstep.
    assert (Hs1 : components_in_sync s1 /\ walks_counted s1 = cv + 1).
    { subst s1. unfold components_in_sync, walks_counted.
      destruct (components_counts s !! w) as [c|] eqn:E; cbn.
      - assert (Hw : w ∈ components s) by (apply Hdom; eauto).
        split; [split; [exact Hnd|split]|].
        + intros p. rewrite Hdom. destruct (decide (p = w)) as [->|Hne].
          * rewrite lookup_insert_eq, E. split; eauto.
          * now rewrite lookup_insert_ne.
        + intros p c'. destruct (decide (p = w)) as [->|Hne].
          * rewrite lookup_insert_eq. intros [= <-]. lia.
          * rewrite lookup_insert_ne by congruence. apply Hpos.
        + rewrite <- Hsum. unfold walks_counted.
          apply (sum_bump _ w); [exact Hnd|exact Hw| |].
          * now rewrite lookup_insert_eq, E.
          * intros p Hne. now rewrite lookup_insert_ne.
      - assert (Hw : w ∉ components s).
        { intros Hin. apply Hdom in Hin as [c Hc]. congruence. }
        split; [split; [|split]|].
        + apply NoDup_app. split; [exact Hnd|]. split; [|apply NoDup_singleton].
          intros q Hq Hq'. apply list_elem_of_singleton in Hq' as ->. contradiction.
        + intros p. rewrite elem_of_app, list_elem_of_singleton, Hdom.
          destruct (decide (p = w)) as [->|Hne].
          * rewrite lookup_insert_eq. split; eauto.
          * rewrite lookup_insert_ne by congruence. split; [intros [?|?]|]; tauto.
        + intros p c'. destruct (decide (p = w)) as [->|Hne].
          * rewrite lookup_insert_eq. intros [= <-]. lia.
          * rewrite lookup_insert_ne by congruence. apply Hpos.
        + rewrite fmap_app, sum_list_with_app. cbn [fmap list_fmap sum_list_with].
          rewrite lookup_insert_eq. cbn [default]. rewrite <- Hsum. unfold walks_counted.
          rewrite (sum_same (components s) w
                     (fun p => default 0 (components_counts s !! p))
                     (fun p => default 0 (<[w:=1]> (components_counts s) !! p)));
            [unfold id, sum_list; lia|exact Hw|].
          intros p Hne. now rewrite lookup_insert_ne. }
    destruct Hs1 as [Hsync1 Hsum1].
    destruct (Nat.eqb_spec (cv + 1) num_search) as [Heq|Hneq].
    + exists (cv + 1), s1. cbn. repeat split; try apply Hsync1; auto; lia.
    + apply IH; auto. lia.
Qed.


Lemma components_read_only : read_only_attribute components.
Proof. split; reflexivity. Qed.

Lemma components_counts_read_only : read_only_attribute components_counts.
Proof. split; reflexivity. Qed.

Lemma books_frame (s s1 : Self) :
  components s1 = components s -> components_counts s1 = components_counts s ->
  components_in_sync s -> forall cv, walks_counted s = cv ->
  components_in_sync s1 /\ walks_counted s1 = cv.
Proof.
  unfold components_in_sync, walks_counted. intros -> -> H cv Hcv. auto.
Qed.

(** The sampling loop keeps the books, whatever the traversals return,
    and leaves only with [count_valid = num_search]. *)
Lemma search_loop_books (traverse : M (list (string * bool))) :
  preserves components traverse -> preserves components_counts traverse ->
  forall (fuel count_search count_valid : nat) (s s' : Self) (out : nat * nat),
  search_loop traverse fuel count_search count_valid s = (Ok out, s') ->
  components_in_sync s -> walks_counted s = count_valid -> count_valid <= num_search ->
  out.2 = num_search /\ components_in_sync s' /\ walks_counted s' = num_search.
Proof.
  intros Ht1 Ht2. induction fuel as [|fuel IH]; intros cs cv s s' out Hrun Hsync Hsum Hle.
  - cbn [search_loop] in Hrun.
    destruct (Nat.ltb_spec cv num_search) as [Hlt|Hge]; [discriminate|].
    cbn [mret M_ret] in Hrun. injection Hrun as <- <-. cbn [snd].
    assert (cv = num_search) by lia. subst cv. auto.
  - cbn [search_loop] in Hrun.
    destruct (Nat.ltb_spec cv num_search) as [Hlt|Hge].
    2:{ cbn [mret M_ret] in Hrun. injection Hrun as <- <-. cbn [snd].
        assert (cv = num_search) by lia. subst cv. auto. }
    rewrite bind_run in Hrun.
    pose proof (Ht1 s) as Hc1. pose proof (Ht2 s) as Hc2.
    destruct (traverse s) as [[p| |] s1]; try discriminate. cbn [snd] in Hc1, Hc2.
    destruct (books_frame s s1 Hc1 Hc2 Hsync cv Hsum) as [Hsync1 Hsum1].
    destruct (invalid_search p).
    + eapply IH; eauto.
    + rewrite bind_run in Hrun.
      assert (Hlist : exists l s2,
        (if length vertex_info * 2 <=? length p
         then decompose_hetero_units p else mret [p]) s1 = (l, s2)
        /\ components s2 = components s1
        /\ components_counts s2 = components_counts s1).
      { destruct (length vertex_info * 2 <=? length p).
        - pose proof (preserves_decompose_hetero_units components
                        components_read_only p s1) as H1.
          pose proof (preserves_decompose_hetero_units components_counts
                        components_counts_read_only p s1) as H2.
          destruct (decompose_hetero_units p s1) as [l s2]. eauto.
        - eexists _, s1. split; [reflexivity|]. auto. }
      destruct Hlist as (l & s2 & Hl & Hc3 & Hc4). rewrite Hl in Hrun.
      destruct l as [l| |]; try discriminate.
      destruct (books_frame s1 s2 Hc3 Hc4 Hsync1 cv Hsum1) as [Hsync2 Hsum2].
      destruct (store_paths_books l cv s2 Hsync2 Hsum2 Hlt)
        as (cv' & s3 & Hstore & Hsync3 & Hsum3 & Hle3).
      rewrite bind_run, Hstore in Hrun. eapply IH; eauto.
Qed.

(** X9. When the single-process sampler [__gen_heuristic_paths_uni]
    returns on a generator that had no component yet, it has counted
    exactly [num_search] valid walks: its [count_valid] is [num_search] and
    the counts in [self.components_counts] of the stored components add up
    to [num_search]. *)
Theorem sampler_counts_num_search_walks (rounds depth : nat) (s s' : Self)
    (count_search count_valid : nat) :
  components s = [] -> components_counts s = ∅ ->
  gen_heuristic_paths_uni rounds depth s = (Ok (count_search, count_valid), s') ->
  count_valid = num_search /\ walks_counted s' = num_search.
Proof.
  intros Hc Hcc Hrun. unfold gen_heuristic_paths_uni in Hrun.
  assert (Hsync : components_in_sync s).
  { unfold components_in_sync. rewrite Hc, Hcc. split; [constructor|]. split.
    - intros p. rewrite lookup_empty. split; [intros H; inversion H|intros [? ?]; discriminate].
    - intros p c. rewrite lookup_empty. discriminate. }
  assert (Hsum : walks_counted s = 0) by (unfold walks_counted; now rewrite Hc).
  destruct (search_loop_books (get_single_traversal depth)
              (preserves_get_single_traversal components components_read_only depth)
              (preserves_get_single_traversal components_counts
                 components_counts_read_only depth)
              rounds 0 0 s s' _ Hrun Hsync Hsum ltac:(lia)) as (H1 & _ & H2).
  auto.
Qed.

(** X10. When [__gen_heuristic_paths_uni] returns on a generator that had
    no component yet, [self.components] holds no walk twice, its walks are
    exactly the keys of [self.components_counts], and every count is at
    least one. *)
Theorem sampler_components_in_sync (rounds depth : nat) (s s' : Self)
    (out : nat * nat) :
  components s = [] -> components_counts s = ∅ ->
  gen_heuristic_paths_uni rounds depth s = (Ok out, s') ->
  components_in_sync s'.
Proof.
  intros Hc Hcc Hrun. unfold gen_heuristic_paths_uni in Hrun.
  assert (Hsync : components_in_sync s).
  { unfold components_in_sync. rewrite Hc, Hcc. split; [constructor|]. split.
    - intros p. rewrite lookup_empty. split; [intros H; inversion H|intros [? ?]; discriminate].
    - intros p c. rewrite lookup_empty. discriminate. }
  assert (Hsum : walks_counted s = 0) by (unfold walks_counted; now rewrite Hc).
  destruct (search_loop_books (get_single_traversal depth)
              (preserves_get_single_traversal components components_read_only depth)
              (preserves_get_single_traversal components_counts
                 components_counts_read_only depth)
              rounds 0 0 s s' _ Hrun Hsync Hsum ltac:(lia)) as (_ & H & _).
  exact H.
Qed.

End SamplingBooks.
(** ** One step of the traverser *)

Section TraverserSteps.
Context {G : Assembly} {R : RandomObj} {N : Numerics} {C : Config}.

Lemma pick_run {A} (l : list A) (i : nat) (s s' : Self) (x : A) :
  pick l i s = (Ok x, s') -> l !! i = Some x /\ s' = s.
Proof.
  unfold pick. destruct (l !! i); cbn; [|discriminate]. intros [= <- <-]. auto.
Qed.

Lemma lift_opt_run {A} (e : exn) (o : option A) (s s' : Self) (x : A) :
  lift_opt e o s = (Ok x, s') -> o = Some x /\ s' = s.
Proof. destruct o; cbn; [|discriminate]. intros [= <- <-]. auto. Qed.

Lemma mapM_length {A B} (f : A -> M B) (l : list A) :
  forall (s s' : Self) (bs : list B),
  mapM f l s = (Ok bs, s') -> length bs = length l.
Proof.
  induction l as [|a l IH]; intros s s' bs H.
  - cbn in H. now injection H as <- _.
  - cbn [mapM] in H. rewrite bind_run in H.
    destruct (f a s) as [[b| |] s1]; try discriminate. rewrite bind_run in H.
    destruct (mapM f l s1) as [[bs'| |] s2] eqn:E; try discriminate.
    cbn [mret M_ret] in H. injection H as <- _. cbn. f_equal. eapply IH, E.
Qed.

(** X11. A traversal started before any read path is indexed raises
    [IndexError]: [random.choices] has nothing to choose the seed read
    from. *)
Theorem traversal_without_reads_raises (fuel : nat) (s : Self) :
  read_paths s = [] ->
  (get_single_traversal (S fuel) s).1 = Raise IndexError.
Proof.
  intros Hnil. unfold get_single_traversal. rewrite bind_run.
  cbn [heuristic_extend_path extend_body]. unfold seed_path.
  rewrite bind_run. cbn [gets]. rewrite bind_run. cbn [gets]. rewrite Hnil.
  rewrite bind_run. cbn [mapM mret M_ret]. rewrite bind_run.
  unfold choices_0. rewrite bind_run. unfold with_random.
  destruct (rng_choices (length []) [] 1 (random s)) as [ids r1].
  destruct ids as [|i ids]; cbn [head lift_opt raise mret M_ret]; [reflexivity|].
  rewrite bind_run. unfold pick. rewrite lookup_nil. reflexivity.
Qed.


Lemma like_step_length cvc scm scs st item (s s' : Self) st' :
  like_step cvc scm scs st item s = (Ok st', s') ->
  length st'.2 = S (length st.2).
Proof.
  destruct st as [[[[[pth m] sd] llr] cache] lst]. destruct item as [[v e] vl].
  unfold like_step. rewrite bind_run.
  destruct (cvc !! v); cbn [lift_opt mret M_ret raise]; [|discriminate].
  rewrite bind_run. cbn [gets]. rewrite bind_run.
  destruct (contig_coverages s !! v); cbn [lift_opt mret M_ret raise]; [|discriminate].
  rewrite bind_run.
  destruct (get_cov_mean_std (pth ++ [(v, e)]) None s) as [[[nm nsd]| |] s1];
    try discriminate.
  cbn [mret M_ret]. intros [= <- _]. cbn [snd]. rewrite length_app. cbn. lia.
Qed.

Lemma like_fold_length cvc scm scs items :
  forall st (s s' : Self) st',
  foldM (like_step cvc scm scs) st items s = (Ok st', s') ->
  length st'.2 = length st.2 + length items.
Proof.
  induction items as [|item items IH]; intros st s s' st' H.
  - cbn in H. injection H as <- _. cbn. lia.
  - cbn [foldM] in H. rewrite bind_run in H.
    destruct (like_step cvc scm scs st item s) as [[st1| |] s1] eqn:E; try discriminate.
    apply like_step_length in E. apply IH in H. cbn [length]. lia.
Qed.

Lemma length_accumulated_lengths (v_lengths : list nat) :
  length (accumulated_lengths v_lengths) = length v_lengths.
Proof. unfold accumulated_lengths. apply length_imap. Qed.

(** [__cal_multiplicity_like] gives one ratio per vertex of the
    proposed extension. *)
Lemma cal_multiplicity_like_length (p e : list (string * bool))
    (cvc : option (gmap string nat)) (ocm ocs scm scs : option Q) (lg : bool)
    (s s' : Self) (l : list Q) :
  cal_multiplicity_like p e cvc ocm ocs scm scs lg s = (Ok l, s') ->
  length l = length e.
Proof.
  unfold cal_multiplicity_like. intros H. rewrite bind_run in H.
  match type of H with
  | context [match ?m s with _ => _ end] =>
      destruct (m s) as [[[om os]| |] s1]; try discriminate
  end.
  rewrite bind_run in H.
  match type of H with
  | context [match ?m s1 with _ => _ end] =>
      destruct (m s1) as [[[sm ss]| |] s2]; try discriminate
  end.
  rewrite bind_run in H.
  destruct (mapM _ e s2) as [[v_lengths| |] s3] eqn:Hlen; try discriminate.
  apply mapM_length in Hlen. rewrite bind_run in H.
  destruct (foldM _ _ (zip e v_lengths) s3) as [[st| |] s4] eqn:Hfold; try discriminate.
  apply like_fold_length in Hfold. cbn [snd length] in Hfold.
  destruct st as [[[[[pth m] sd] llr] cache] lst]. cbn [snd] in Hfold.
  cbn [mret M_ret] in H. injection H as <- _.
  rewrite length_zip in Hfold.
  assert (Hzip : length (zip_with (fun llr acc => (llr / of_nat acc)%Q) lst
                           (accumulated_lengths v_lengths)) = length e).
  { rewrite length_zip_with, length_accumulated_lengths. lia. }
  destruct lg; [exact Hzip|now rewrite length_fmap].
Qed.


Lemma hands_over_weaken extend p ndr (P Q : list (string * bool) -> Prop) res :
  (forall ext, P ext -> Q ext) -> hands_over extend p ndr P res ->
  hands_over extend p ndr Q res.
Proof.
  intros HPQ H out s' Hres. destruct (H out s' Hres) as [?|[?|(ext & s1 & HP & Hx)]]; auto.
  right. right. eauto.
Qed.

(** The acceptance loop: what is appended is the prefix
    [proposed_extension[:longest_ex_len - rev_go]] of some round. *)
Lemma acceptance_loop_hands_over extend (p e : list (string * bool)) (ndr : bool) :
  forall (rest : list Q) (rev_go : nat) (prev : Q) (s : Self),
  hands_over extend p ndr
    (fun ext => exists j, rev_go <= j < rev_go + length rest
       /\ ext = py_prefix (Z.of_nat (length e) - Z.of_nat j) e)
    (acceptance_loop extend p e ndr rev_go prev rest s).
Proof.
  induction rest as [|like rest IH]; intros rev_go prev s out s' H.
  - cbn [acceptance_loop] in H. destruct ndr.
    + cbn [mret M_ret] in H. injection H as <- <-. auto.
    + right. left. eauto.
  - cbn [acceptance_loop] in H. rewrite bind_run in H. unfold with_random in H.
    destruct (rng_random (random s)) as [r r1].
    destruct (Qgt_bool _ r).
    + right. right. eexists _, _. split; [|exact H]. exists rev_go. cbn [length].
      split; [lia|reflexivity].
    + destruct (IH _ _ _ _ _ H) as [?|[?|(ext & s1 & (j & Hj & ->) & Hx)]]; auto.
      right. right. eexists _, s1. split; [|exact Hx]. exists j. cbn [length].
      split; [lia|reflexivity].
Qed.

(** [__heuristic_check_multiplicity] with a cached list, as its callers
    pass it: what is appended is the whole proposed extension, or its prefix
    of some round of the acceptance loop. *)
Lemma check_multiplicity_hands_over extend (p e : list (string * bool)) (ndr : bool)
    (cached : list Q) (s : Self) :
  hands_over extend p ndr
    (fun ext => ext = e
       \/ exists j, j < length cached
            /\ ext = py_prefix (Z.of_nat (length e) - Z.of_nat j) e)
    (heuristic_check_multiplicity extend p e ndr None (Some cached) s).
Proof.
  unfold heuristic_check_multiplicity. destruct e as [|o e']; [intros out s' H; discriminate|].
  intros out s' H. rewrite bind_run in H. cbn [mret M_ret] in H.
  destruct (scan_new_vertex p.*1 (o :: e') ∅) as [counts|].
  - rewrite bind_run in H. cbn [mret M_ret] in H.
    destruct (acceptance_loop_hands_over extend p (o :: e') ndr _ _ _ _ _ _ H)
      as [?|[?|(ext & s1 & (j & Hj & ->) & Hx)]]; auto.
    right. right. eexists _, s1. split; [|exact Hx]. right. exists j.
    rewrite length_reverse in Hj. split; [lia|reflexivity].
  - right. right. eexists _, s. split; [|exact H]. now left.
Qed.


Lemma mapM_Forall {A B} (f : A -> M B) (P : B -> Prop) (l : list A) :
  (forall a (s0 s1 : Self) b, f a s0 = (Ok b, s1) -> P b) ->
  forall (s s' : Self) (bs : list B), mapM f l s = (Ok bs, s') -> Forall P bs.
Proof.
  intros Hf. induction l as [|a l IH]; intros s s' bs H.
  - cbn in H. injection H as <- _. constructor.
  - cbn [mapM] in H. rewrite bind_run in H.
    destruct (f a s) as [[b| |] s1] eqn:Ea; try discriminate. rewrite bind_run in H.
    destruct (mapM f l s1) as [[bs'| |] s2] eqn:E; try discriminate.
    cbn [mret M_ret] in H. injection H as <- _. constructor; eauto.
Qed.

Lemma sorted_connections_elem (l : list (string * bool)) (x : string * bool) :
  x ∈ sorted_connections l <-> x ∈ l.
Proof. unfold sorted_connections. now rewrite merge_sort_Permutation. Qed.

(** The vertex chosen by lines 469-506 is one of [next_connections]; the
    cached likelihoods it comes with are at most one, and none when
    [hetero_chromosome] is on. *)
Lemma choose_next_connection_member (p : list (string * bool)) (cov : Q)
    (next_connections : list (string * bool)) (s s' : Self)
    (next : string * bool) (cached : list Q) :
  choose_next_connection p cov next_connections s = (Ok (next, cached), s') ->
  next ∈ next_connections
  /\ length cached <= 1
  /\ (hetero_chromosome = true -> cached = []).
Proof.
  unfold choose_next_connection. intros H.
  destruct (2 <? length next_connections).
  - destruct hetero_chromosome; cbn [negb] in H.
    + destruct (negb (Qeq_bool cov_inert 0)).
      * rewrite bind_run in H.
        destruct (mapM _ _ s) as [[cdd_cov| |] s1]; try discriminate.
        rewrite bind_run in H.
        destruct (choices_0 _ _ s1) as [[i| |] s2]; try discriminate.
        rewrite bind_run in H.
        destruct (pick _ i s2) as [[nx| |] s3] eqn:Hpick; try discriminate.
        apply pick_run in Hpick as [Hl _]. cbn [mret M_ret] in H.
        injection H as <- <- _. split; [|cbn; auto].
        apply sorted_connections_elem. eapply list_elem_of_lookup_2, Hl.
      * rewrite bind_run in H. unfold with_random in H.
        destruct (rng_choice _ (random s)) as [i r1]. rewrite bind_run in H.
        destruct (pick _ i _) as [[nx| |] s3] eqn:Hpick; try discriminate.
        apply pick_run in Hpick as [Hl _]. cbn [mret M_ret] in H.
        injection H as <- <- _. split; [|cbn; auto].
        apply sorted_connections_elem. eapply list_elem_of_lookup_2, Hl.
    + rewrite bind_run in H.
      destruct (get_cov_mean_std p None s) as [[[ocm ocs]| |] s1]; try discriminate.
      rewrite bind_run in H.
      destruct (get_cov_mean_of_single_std p s1) as [[[scm scs]| |] s2]; try discriminate.
      rewrite bind_run in H.
      destruct (mapM _ (sorted_connections next_connections) s2)
        as [[loglike_lss| |] s3] eqn:Hlls; try discriminate.
      apply (mapM_Forall _ (fun l : list Q => length l = 1)) in Hlls.
      2:{ intros a s0 s1' b Hb. apply cal_multiplicity_like_length in Hb. exact Hb. }
      rewrite bind_run in H.
      destruct (mapM _ loglike_lss s3) as [[ws| |] s4]; try discriminate.
      rewrite bind_run in H.
      destruct (Qmax_list ws) as [w_max|]; cbn [lift_opt mret M_ret raise] in H;
        [|discriminate].
      rewrite bind_run in H.
      destruct (choices_0 _ _ s4) as [[i| |] s5]; try discriminate.
      rewrite bind_run in H.
      destruct (pick _ i s5) as [[nx| |] s6] eqn:Hpick; try discriminate.
      apply pick_run in Hpick as [Hl _]. rewrite bind_run in H.
      destruct (pick _ i s6) as [[cd| |] s7] eqn:Hpick2; try discriminate.
      apply pick_run in Hpick2 as [Hl2 _]. cbn [mret M_ret] in H.
      injection H as <- <- _. split; [|split; [|discriminate]].
      * apply sorted_connections_elem. eapply list_elem_of_lookup_2, Hl.
      * rewrite list_lookup_fmap in Hl2.
        destruct (loglike_lss !! i) as [ll|] eqn:Ell; [|discriminate].
        injection Hl2 as <-. rewrite length_fmap.
        rewrite Forall_forall in Hlls. rewrite (Hlls ll); [lia|].
        eapply list_elem_of_lookup_2, Ell.
  - rewrite bind_run in H.
    destruct (head next_connections) as [nx|] eqn:Hh; cbn [lift_opt mret M_ret raise] in H;
      [|discriminate].
    injection H as <- <- _. split; [|cbn; auto].
    destruct next_connections; [discriminate|]. injection Hh as ->. left.
Qed.

(** X12. An extension along the graph (lines 464-522) goes to a neighbour:
    whenever the step returns a path, the path is the one it was given
    (reverse direction done already), or the result of the recursive call
    on the reversed path, or the result of the recursive call on the path
    extended by exactly one vertex [(next_name, not next_end)] with
    [(next_name, next_end)] among the connections of the path's last
    vertex end. *)
Theorem graph_extension_goes_to_a_neighbour
    (extend : list (string * bool) -> bool -> M (list (string * bool)))
    (p : list (string * bool)) (not_do_reverse : bool) (current_ave_coverage : Q)
    (s : Self) :
  hands_over extend p not_do_reverse
    (fun ext => exists next_name next_end,
       (next_name, next_end) ∈ next_connections_of p
       /\ ext = [(next_name, negb next_end)])
    (graph_extend extend p not_do_reverse current_ave_coverage s).
Proof.
  unfold graph_extend, next_connections_of. intros out s' H.
  rewrite bind_run in H.
  destruct (last p) as [[last_name last_end]|]; cbn [lift_opt mret M_ret raise] in H;
    [|discriminate].
  rewrite bind_run in H.
  destruct (vertex_lookup last_name) as [vx|]; cbn [lift_opt mret M_ret raise] in H;
    [|discriminate].
  destruct (connections vx last_end) as [|c cs] eqn:Hconn.
  - destruct not_do_reverse.
    + cbn [mret M_ret] in H. injection H as <- <-. auto.
    + right. left. eauto.
  - rewrite bind_run in H.
    destruct (choose_next_connection p current_ave_coverage (c :: cs) s)
      as [[[[n e] cached]| |] s1] eqn:Hch; try discriminate.
    apply choose_next_connection_member in Hch as (Hin & Hlen & _).
    destruct (check_multiplicity_hands_over extend p [(n, negb e)] not_do_reverse
                cached s1 out s' H) as [?|[?|(ext & s2 & Hext & Hx)]]; auto.
    right. right. exists ext, s2. split; [|exact Hx]. exists n, e. split; [exact Hin|].
    destruct Hext as [->|(j & Hj & ->)]; [reflexivity|].
    assert (j = 0) by lia. subst j. reflexivity.
Qed.


(** *** Extension along a read *)

Lemma read_paths_read_only : read_only_attribute read_paths.
Proof. split; reflexivity. Qed.

Lemma sorted_candidates_elem (st : gset (nat * bool)) (c : nat * bool) :
  c ∈ sorted_candidates st <-> c ∈ st.
Proof. unfold sorted_candidates. now rewrite merge_sort_Permutation, elem_of_elements. Qed.

Lemma collect_candidates_member (lmal : Z)
    (starting : gmap (list (string * bool)) (gset (nat * bool)))
    (p : list (string * bool)) (os : list nat) (cs : list (nat * bool)) (o : nat) :
  (cs, o) ∈ collect_candidates lmal starting p os ->
  o ∈ os
  /\ exists st, starting !! drop (length p - o) p = Some st /\ cs = sorted_candidates st.
Proof.
  induction os as [|o' os IH]; cbn [collect_candidates]; [intros H; inversion H|].
  destruct (_ <=? _)%Z; [intros H; inversion H|].
  destruct (starting !! drop (length p - o') p) as [st|] eqn:E.
  - intros H. apply elem_of_cons in H as [[= -> ->]|H].
    + split; [left|eauto].
    + destruct (IH H) as [Ho Hst]. split; [now right|exact Hst].
  - intros H. destruct (IH H) as [Ho Hst]. split; [now right|exact Hst].
Qed.

(** Position by position, a candidate and its overlap number come from
    one entry of [candidate_ls_list]. *)
Lemma flatten_candidates_pairs (cll : list (list (nat * bool) * nat)) :
  forall (n : nat) (s s' : Self) cands ovl ws,
  flatten_candidates cll n s = (Ok (cands, ovl, ws), s') ->
  forall i c o, cands !! i = Some c -> ovl !! i = Some o ->
    exists cs, (cs, o) ∈ cll /\ c ∈ cs.
Proof.
  induction cll as [|[same ovl_c_num] cll IH]; intros n s s' cands ovl ws H i c o Hc Ho.
  - cbn in H. injection H as <- <- <- _. rewrite lookup_nil in Hc. discriminate.
  - cbn [flatten_candidates] in H. rewrite bind_run in H.
    destruct (candidate_counts same s) as [[w| |] s1]; try discriminate.
    destruct (decay_t <=? n + sum_list w).
    + cbn [mret M_ret] in H. injection H as <- <- <- _.
      apply lookup_replicate in Ho as [-> _]. exists same. split; [left|].
      eapply list_elem_of_lookup_2, Hc.
    + rewrite bind_run in H.
      destruct (flatten_candidates cll (n + sum_list w) s1) as [[[[cs os] ws']| |] s2] eqn:E;
        try discriminate.
      cbn [mret M_ret] in H. injection H as <- <- <- _.
      destruct (decide (i < length same)) as [Hlt|Hge].
      * rewrite lookup_app_l in Hc by exact Hlt.
        rewrite lookup_app_l in Ho by now rewrite length_replicate.
        apply lookup_replicate in Ho as [-> _]. exists same. split; [left|].
        eapply list_elem_of_lookup_2, Hc.
      * rewrite lookup_app_r in Hc by lia.
        rewrite lookup_app_r in Ho by (rewrite length_replicate; lia).
        rewrite length_replicate in Ho.
        destruct (IH _ _ _ _ _ _ E _ _ _ Hc Ho) as (cs' & Hin & Hcs).
        exists cs'. split; [now right|exact Hcs].
Qed.

Lemma mapM_pick_lookup {A} (l : list A) (ids : list nat) :
  forall (s s' : Self) (out : list A),
  mapM (pick l) ids s = (Ok out, s') ->
  s' = s /\ forall i x, out !! i = Some x -> exists j, ids !! i = Some j /\ l !! j = Some x.
Proof.
  induction ids as [|j ids IH]; intros s s' out H.
  - cbn in H. injection H as <- <-. split; [reflexivity|]. intros i x Hx.
    rewrite lookup_nil in Hx. discriminate.
  - cbn [mapM] in H. rewrite bind_run in H.
    destruct (pick l j s) as [[x| |] s1] eqn:Ep; try discriminate.
    apply pick_run in Ep as [Hj ->]. rewrite bind_run in H.
    destruct (mapM (pick l) ids s) as [[out'| |] s2] eqn:E; try discriminate.
    destruct (IH _ _ _ E) as [-> Hout]. cbn [mret M_ret] in H. injection H as <- <-.
    split; [reflexivity|]. intros [|i] y Hy; cbn in Hy.
    + injection Hy as <-. exists j. auto.
    + apply Hout in Hy as (j' & Hj' & Hl). exists j'. auto.
Qed.

(** The pool of the single-chromosome mode keeps candidates and overlap
    numbers paired as they were. *)
Lemma reweight_by_pool_pairs (p : list (string * bool)) (cands : list (nat * bool))
    (ovl : list nat) (ws : list Q) (s s' : Self) cands' ovl' ws' lls :
  reweight_by_pool p cands ovl ws s = (Ok (cands', ovl', ws', lls), s') ->
  forall i c o, cands' !! i = Some c -> ovl' !! i = Some o ->
    exists j, cands !! j = Some c /\ ovl !! j = Some o.
Proof.
  unfold reweight_by_pool. intros H i c o Hc Ho. rewrite bind_run in H.
  unfold with_random in H.
  destruct (rng_choices (length cands) ws 10 (random s)) as [pool_ids r1].
  destruct (size (list_to_set pool_ids : gset nat) =? 1).
  - rewrite bind_run in H.
    destruct (head (elements (list_to_set pool_ids : gset nat))) as [rid|];
      cbn [lift_opt mret M_ret raise] in H; [|discriminate].
    rewrite bind_run in H.
    destruct (pick cands rid _) as [[c0| |] s1] eqn:E1; try discriminate.
    apply pick_run in E1 as [H1 ->]. rewrite bind_run in H.
    destruct (pick ovl rid _) as [[o0| |] s2] eqn:E2; try discriminate.
    apply pick_run in E2 as [H2 ->]. cbn [mret M_ret] in H.
    injection H as <- <- _ _ _. destruct i as [|i]; cbn in Hc, Ho; [|discriminate].
    injection Hc as <-. injection Ho as <-. eauto.
  - rewrite bind_run in H.
    destruct (mapM (pick cands) _ _) as [[nc| |] s1] eqn:E1; try discriminate.
    apply mapM_pick_lookup in E1 as [-> Hnc]. rewrite bind_run in H.
    destruct (mapM (pick ovl) _ _) as [[no| |] s2] eqn:E2; try discriminate.
    apply mapM_pick_lookup in E2 as [-> Hno]. rewrite bind_run in H.
    destruct (get_cov_mean_std p None _) as [[[ocm ocs]| |] s3]; try discriminate.
    rewrite bind_run in H.
    destruct (get_cov_mean_of_single_std p s3) as [[[scm scs]| |] s4]; try discriminate.
    rewrite bind_run in H.
    destruct (mapM _ _ s4) as [[res| |] s5]; try discriminate.
    cbn [mret M_ret] in H. injection H as <- <- _ _ _.
    destruct (Hnc _ _ Hc) as (j & Hj & Hcj). destruct (Hno _ _ Ho) as (j' & Hj' & Hoj).
    rewrite Hj in Hj'. injection Hj' as <-. eauto.
Qed.


(** Peels one layer off a frame goal. *)
Ltac keep_step :=
  match goal with
  | |- preserves _ (mret _) => apply preserves_mret
  | |- preserves _ (gets _) => apply preserves_gets
  | |- preserves _ (lift_opt _ _) => apply preserves_lift_opt
  | |- preserves _ (pick _ _) => apply preserves_pick
  | |- preserves _ (_ ≫= _) => apply preserves_bind; [|intros ?]
  | |- preserves _ (mapM _ _) => apply preserves_mapM; intros ?
  | |- preserves _ (match ?x with _ => _ end) => destruct x
  | |- preserves _ (let '(_, _) := ?x in _) => destruct x
  end.

(** Lines 529-619: the candidate drawn among several comes with its own
    overlap number. *)
Lemma drawn_candidate_pairs (p : list (string * bool)) (current_ave_coverage : Q)
    (candidate_ls_list : list (list (nat * bool) * nat)) (s s' : Self)
    (read_id : nat) (strand : bool) (ovl_c_num : nat) (like_ls_cached : list Q) :
  ('(candidates, candidates_ovl_n, weights) ←
      flatten_candidates candidate_ls_list 0;
   '(candidates, candidates_ovl_n, weights, like_lss) ←
     (if negb hetero_chromosome then
        reweight_by_pool p candidates candidates_ovl_n weights
      else if negb (Qeq_bool cov_inert 0) then
        cdd_cov ← mapM (fun '(go_c, (r_id, r_strand)) =>
            rps ← gets read_paths;
            rp ← pick rps r_id;
            o ← pick candidates_ovl_n go_c;
            get_cov_mean (drop o rp) None)
          (imap (fun i c => (i, c)) candidates);
        weights ← inertia_weights weights cdd_cov current_ave_coverage;
        mret (candidates, candidates_ovl_n, weights, [])
      else mret (candidates, candidates_ovl_n, weights, []));
   chosen_cdd_id ← choices_0 (length candidates) weights;
   like_ls_cached ←
     match like_lss with
     | [] => mret []
     | _ => pick like_lss chosen_cdd_id
     end;
   '(read_id, strand) ← pick candidates chosen_cdd_id;
   ovl_c_num ← pick candidates_ovl_n chosen_cdd_id;
   mret (read_id, strand, ovl_c_num, like_ls_cached)) s
  = (Ok (read_id, strand, ovl_c_num, like_ls_cached), s') ->
  (exists cs, (cs, ovl_c_num) ∈ candidate_ls_list /\ (read_id, strand) ∈ cs)
  /\ (hetero_chromosome = true -> like_ls_cached = []).
Proof.
  intros H. rewrite bind_run in H.
  destruct (flatten_candidates candidate_ls_list 0 s) as [[[[cands ovl] ws]| |] s1] eqn:Hflat;
    try discriminate.
  pose proof (flatten_candidates_pairs _ _ _ _ _ _ _ Hflat) as Hpairs.
  rewrite bind_run in H.
  match type of H with
  | context [match ?m s1 with _ => _ end] =>
      destruct (m s1) as [[[[[cands' ovl'] ws'] lls]| |] s2] eqn:Hsel; try discriminate
  end.
  assert (Hpairs' : (forall i c o, cands' !! i = Some c -> ovl' !! i = Some o ->
            exists j, cands !! j = Some c /\ ovl !! j = Some o)
            /\ (hetero_chromosome = true -> lls = [])).
  { destruct hetero_chromosome; cbn [negb] in Hsel.
    - destruct (negb (Qeq_bool cov_inert 0)).
      + rewrite bind_run in Hsel.
        destruct (mapM _ _ s1) as [[cdd_cov| |] s3]; try discriminate.
        rewrite bind_run in Hsel.
        destruct (inertia_weights ws cdd_cov current_ave_coverage s3)
          as [[ws3| |] s4]; try discriminate.
        cbn [mret M_ret] in Hsel. injection Hsel as <- <- _ <- _. eauto.
      + cbn [mret M_ret] in Hsel. injection Hsel as <- <- _ <- _. eauto.
    - split; [|discriminate]. eapply reweight_by_pool_pairs, Hsel. }
  destruct Hpairs' as [Hpairs' Hlls].
  rewrite bind_run in H.
  destruct (choices_0 (length cands') ws' s2) as [[chosen| |] s3]; try discriminate.
  rewrite bind_run in H.
  match type of H with
  | context [match ?m s3 with _ => _ end] =>
      destruct (m s3) as [[cached| |] s4] eqn:Hlast; try discriminate
  end.
  rewrite bind_run in H.
  destruct (pick cands' chosen s4) as [[[rid st]| |] s5] eqn:E1; try discriminate.
  apply pick_run in E1 as [H1 ->]. rewrite bind_run in H.
  destruct (pick ovl' chosen s4) as [[o| |] s6] eqn:E2; try discriminate.
  apply pick_run in E2 as [H2 ->]. cbn [mret M_ret] in H.
  match type of Hlast with
  | ?m s3 = _ => assert (Hcached : hetero_chromosome = true -> cached = [])
  end.
  { intros Hh. rewrite (Hlls Hh) in Hlast. cbn [mret M_ret] in Hlast.
    now injection Hlast as <- _. }
  injection H as <- <- <- <- _. split; [|exact Hcached].
  destruct (Hpairs' _ _ _ H1 H2) as (j & Hj1 & Hj2). eapply Hpairs; eauto.
Qed.

(** The selection that opens [read_extend]: the only candidate, or the one
    drawn among several. *)
Lemma read_selection_pairs (p : list (string * bool)) (current_ave_coverage : Q)
    (cll : list (list (nat * bool) * nat)) (s s' : Self)
    (read_id : nat) (strand : bool) (ovl_c_num : nat) (like_ls_cached : list Q) :
  (match cll with
   | [([(read_id, strand)], ovl_c_num)] => mret (read_id, strand, ovl_c_num, [])
   | _ =>
      '(candidates, candidates_ovl_n, weights) ← flatten_candidates cll 0;
      '(candidates, candidates_ovl_n, weights, like_lss) ←
        (if negb hetero_chromosome then
           reweight_by_pool p candidates candidates_ovl_n weights
         else if negb (Qeq_bool cov_inert 0) then
           cdd_cov ← mapM (fun '(go_c, (r_id, r_strand)) =>
               rps ← gets read_paths;
               rp ← pick rps r_id;
               o ← pick candidates_ovl_n go_c;
               get_cov_mean (drop o rp) None)
             (imap (fun i c => (i, c)) candidates);
           weights ← inertia_weights weights cdd_cov current_ave_coverage;
           mret (candidates, candidates_ovl_n, weights, [])
         else mret (candidates, candidates_ovl_n, weights, []));
      chosen_cdd_id ← choices_0 (length candidates) weights;
      like_ls_cached ←
        match like_lss with
        | [] => mret []
        | _ => pick like_lss chosen_cdd_id
        end;
      '(read_id, strand) ← pick candidates chosen_cdd_id;
      ovl_c_num ← pick candidates_ovl_n chosen_cdd_id;
      mret (read_id, strand, ovl_c_num, like_ls_cached)
   end) s
  = (Ok (read_id, strand, ovl_c_num, like_ls_cached), s') ->
  (exists cs, (cs, ovl_c_num) ∈ cll /\ (read_id, strand) ∈ cs)
  /\ (hetero_chromosome = true -> like_ls_cached = []).
Proof.
  intros Hsel. destruct cll as [|[cs o'] rest].
  - eapply drawn_candidate_pairs, Hsel.
  - destruct cs as [|[rid' st'] cs'].
    + eapply drawn_candidate_pairs, Hsel.
    + destruct cs' as [|c2 cs'].
      * destruct rest as [|e2 rest].
        -- cbn [mret M_ret] in Hsel. injection Hsel as <- <- <- <- _.
           split; [|auto]. eexists. split; left.
        -- eapply drawn_candidate_pairs, Hsel.
      * eapply drawn_candidate_pairs, Hsel.
Qed.

(** X13. An extension along a read (lines 523-641) continues a read that is
    indexed under the end of the path: whenever the step returns a path,
    the path is the one it was given (reverse direction done already), or
    the result of the recursive call on the reversed path, or the result
    of the recursive call on the path extended by a prefix of
    [read_path[ovl_c_num:]], where the read, taken in direction [strand],
    is stored in the starting index under the last [ovl_c_num] segments of
    the path. *)
Theorem read_extension_continues_an_indexed_read
    (extend : list (string * bool) -> bool -> M (list (string * bool)))
    (p : list (string * bool)) (not_do_reverse : bool) (current_ave_coverage : Q)
    (lmal : Z) (s : Self) :
  hands_over extend p not_do_reverse
    (fun ext => exists read_id strand read_path ovl_c_num k,
       1 <= ovl_c_num <= length p
       /\ indexed_start s (drop (length p - ovl_c_num) p) read_id strand
       /\ read_paths s !! read_id = Some read_path
       /\ ext = take k (drop ovl_c_num (oriented strand read_path)))
    (read_extend extend p not_do_reverse current_ave_coverage
       (collect_candidates lmal (starting_subpath_to_readpaths s) p
          (seq 1 (length p))) s).
Proof.
  set (cll := collect_candidates _ _ _ _).
  intros out s' H.
  unfold read_extend in H. rewrite bind_run in H.
  match type of H with
  | context [match ?sel s with _ => _ end] =>
      destruct (sel s) as [[[[[rid strand] o] cached]| |] s1] eqn:Hsel; try discriminate;
      assert (Hrp : read_paths s1 = read_paths s)
  end.
  { match type of Hsel with
    | ?sel s = _ => assert (Hpres : preserves read_paths sel)
    end.
    { repeat keep_step;
        auto using preserves_flatten_candidates, preserves_reweight_by_pool,
          preserves_inertia_weights, preserves_choices_0, preserves_get_cov_mean,
          read_paths_read_only. }
    specialize (Hpres s). rewrite Hsel in Hpres. exact Hpres. }
  destruct (read_selection_pairs _ _ _ _ _ _ _ _ _ Hsel) as [(cs & Hin & Hc) _].
  apply collect_candidates_member in Hin as (Ho & st & Hst & ->).
  apply sorted_candidates_elem in Hc. apply elem_of_seq in Ho.
  rewrite bind_run in H. cbn [gets] in H. rewrite bind_run in H.
  destruct (pick (read_paths s1) rid s1) as [[rp| |] s2] eqn:Ep; try discriminate.
  apply pick_run in Ep as [Hl ->]. rewrite Hrp in Hl.
  destruct (check_multiplicity_hands_over extend p _ not_do_reverse cached s1 out s' H)
    as [?|[?|(ext & s2 & Hext & Hx)]]; auto.
  right. right. exists ext, s2. split; [|exact Hx].
  exists rid, strand, rp, o.
  assert (Hk : exists k, ext = take k (drop o (oriented strand rp))).
  { unfold oriented. destruct Hext as [->|(j & _ & ->)].
    - exists (length (drop o (if strand then rp else reverse_path rp))).
      now rewrite firstn_all.
    - unfold py_prefix. destruct (_ <? 0)%Z; eauto. }
  destruct Hk as [k ->]. exists k. split; [lia|]. split; [|auto].
  exists st. auto.
Qed.


(** X14. The jump of lines 442-460 lands on a read that holds the whole
    path strictly inside: when [middle_jump] returns a path, the path is
    what the recursive call returned on a read path, taken in direction
    [strand], that is stored in the middle index under the current path;
    when it returns without a jump, the current path is no key of the
    middle index and the generator is left as it was. *)
Theorem middle_jump_lands_on_an_indexed_read
    (extend : list (string * bool) -> bool -> M (list (string * bool)))
    (p : list (string * bool)) (current_ave_coverage : Q) (s s' : Self)
    (jumped : option (list (string * bool))) :
  middle_jump extend p current_ave_coverage s = (Ok jumped, s') ->
  match jumped with
  | Some out =>
      exists read_id strand read_path s1,
        indexed_middle s p read_id strand
        /\ read_paths s !! read_id = Some read_path
        /\ extend (oriented strand read_path) false s1 = (Ok out, s')
  | None => middle_subpath_to_readpaths s !! p = None /\ s' = s
  end.
Proof.
  unfold middle_jump. intros H. rewrite bind_run in H. cbn [gets] in H.
  destruct (middle_subpath_to_readpaths s !! p) as [st|] eqn:Hst.
  2:{ cbn [mret M_ret] in H. injection H as <- <-. auto. }
  rewrite bind_run in H.
  destruct (candidate_counts (sorted_candidates st) s) as [[ws| |] s1] eqn:E1;
    try discriminate.
  pose proof (preserves_candidate_counts read_paths (sorted_candidates st) s) as Hrp1.
  rewrite E1 in Hrp1. cbn [snd] in Hrp1.
  rewrite bind_run in H.
  match type of H with
  | context [match ?m s1 with _ => _ end] =>
      destruct (m s1) as [[ws'| |] s2] eqn:E2; try discriminate;
      assert (Hrp2 : read_paths s2 = read_paths s1)
  end.
  { match type of E2 with
    | ?m s1 = _ => assert (Hpres : preserves read_paths m)
    end.
    { repeat keep_step;
        auto using preserves_inertia_weights, preserves_get_cov_mean,
          read_paths_read_only. }
    specialize (Hpres s1). rewrite E2 in Hpres. exact Hpres. }
  rewrite bind_run in H.
  destruct (choices_0 _ ws' s2) as [[i| |] s3] eqn:E3; try discriminate.
  pose proof (preserves_choices_0 read_paths read_paths_read_only
                (length (sorted_candidates st)) ws' s2) as Hrp3.
  rewrite E3 in Hrp3. cbn [snd] in Hrp3.
  rewrite bind_run in H.
  destruct (pick (sorted_candidates st) i s3) as [[[rid strand]| |] s4] eqn:E4;
    try discriminate.
  apply pick_run in E4 as [Hc ->]. rewrite bind_run in H. cbn [gets] in H.
  rewrite bind_run in H.
  destruct (pick (read_paths s3) rid s3) as [[rp| |] s5] eqn:E5; try discriminate.
  apply pick_run in E5 as [Hl ->].
  unfold fmap, M_fmap in H. rewrite bind_run in H.
  destruct (extend (if strand then rp else reverse_path rp) false s3)
    as [[out| |] s6] eqn:E6; try discriminate.
  cbn [mret M_ret] in H. injection H as <- <-.
  exists rid, strand, rp, s3. split; [|split].
  - exists st. split; [exact Hst|]. apply sorted_candidates_elem.
    eapply list_elem_of_lookup_2, Hc.
  - congruence.
  - exact E6.
Qed.


(** *** The mode with [hetero_chromosome] on *)

Lemma scan_new_vertex_none (current_vs : list string) (e : list (string * bool)) :
  forall counts, scan_new_vertex current_vs e counts = None ->
  exists v, v ∈ e.*1 /\ v ∉ current_vs.
Proof.
  induction e as [|[v b] e IH]; intros counts H; [discriminate|].
  cbn [scan_new_vertex] in H.
  destruct (Nat.eqb_spec (count_occ string_dec current_vs v) 0) as [Hz|Hnz].
  - exists v. split; [left|]. intros Hin. apply list_elem_of_In in Hin.
    apply (count_occ_In string_dec) in Hin. lia.
  - destruct (IH _ H) as (w & Hw & Hnew). exists w. split; [now right|exact Hnew].
Qed.

(** With the empty cached list, the whole extension is appended, and only
    when it brings a vertex that the path does not have. *)
Lemma check_multiplicity_empty_cache_hands_over extend (p e : list (string * bool))
    (ndr : bool) (s : Self) :
  hands_over extend p ndr
    (fun ext => ext = e /\ exists v, v ∈ e.*1 /\ v ∉ p.*1)
    (heuristic_check_multiplicity extend p e ndr None (Some []) s).
Proof.
  unfold heuristic_check_multiplicity. destruct e as [|o e']; [intros out s' H; discriminate|].
  intros out s' H. rewrite bind_run in H. cbn [mret M_ret] in H.
  destruct (scan_new_vertex p.*1 (o :: e') ∅) as [counts|] eqn:Hscan.
  - rewrite bind_run in H. cbn [mret M_ret reverse acceptance_loop] in H.
    change (reverse (@nil Q)) with (@nil Q) in H. cbn [acceptance_loop] in H.
    destruct ndr.
    + cbn [mret M_ret] in H. injection H as <- <-. auto.
    + right. left. eauto.
  - right. right. eexists _, s. split; [|exact H]. split; [reflexivity|].
    eapply scan_new_vertex_none, Hscan.
Qed.

(** X15. With [hetero_chromosome] on, no likelihood is computed and a step
    appends an extension only if it brings a vertex that the path does not
    have yet: whenever an extension along the graph or along a read returns
    a path, the path is the one it was given, or the result of the
    recursive call on the reversed path, or the result of the recursive
    call on the path extended by segments of which one at least is new to
    the path. *)
Theorem hetero_mode_appends_only_with_a_new_vertex
    (extend : list (string * bool) -> bool -> M (list (string * bool)))
    (p : list (string * bool)) (not_do_reverse : bool) (current_ave_coverage : Q)
    (candidate_ls_list : list (list (nat * bool) * nat)) (s : Self) :
  hetero_chromosome = true ->
  hands_over extend p not_do_reverse
    (fun ext => exists v, v ∈ ext.*1 /\ v ∉ p.*1)
    (graph_extend extend p not_do_reverse current_ave_coverage s)
  /\ hands_over extend p not_do_reverse
       (fun ext => exists v, v ∈ ext.*1 /\ v ∉ p.*1)
       (read_extend extend p not_do_reverse current_ave_coverage candidate_ls_list s).
Proof.
  intros Hhetero. split; intros out s' H.
  - unfold graph_extend in H. rewrite bind_run in H.
    destruct (last p) as [[last_name last_end]|]; cbn [lift_opt mret M_ret raise] in H;
      [|discriminate].
    rewrite bind_run in H.
    destruct (vertex_lookup last_name) as [vx|]; cbn [lift_opt mret M_ret raise] in H;
      [|discriminate].
    destruct (connections vx last_end) as [|c cs] eqn:Hconn.
    + destruct not_do_reverse.
      * cbn [mret M_ret] in H. injection H as <- <-. auto.
      * right. left. eauto.
    + rewrite bind_run in H.
      destruct (choose_next_connection p current_ave_coverage (c :: cs) s)
        as [[[[n e] cached]| |] s1] eqn:Hch; try discriminate.
      apply choose_next_connection_member in Hch as (_ & _ & Hcached).
      rewrite (Hcached Hhetero) in H.
      destruct (check_multiplicity_empty_cache_hands_over extend p _ not_do_reverse
                  s1 out s' H) as [?|[?|(ext & s2 & [-> Hnew] & Hx)]]; auto.
      right. right. eauto.
  - unfold read_extend in H. rewrite bind_run in H.
    match type of H with
    | context [match ?sel s with _ => _ end] =>
        destruct (sel s) as [[[[[rid strand] o] cached]| |] s1] eqn:Hsel; try discriminate
    end.
    destruct (read_selection_pairs _ _ _ _ _ _ _ _ _ Hsel) as [_ Hcached].
    rewrite (Hcached Hhetero) in H.
    rewrite bind_run in H. cbn [gets] in H. rewrite bind_run in H.
    destruct (pick (read_paths s1) rid s1) as [[rp| |] s2] eqn:Ep; try discriminate.
    apply pick_run in Ep as [Hl ->].
    destruct (check_multiplicity_empty_cache_hands_over extend p _ not_do_reverse
                s1 out s' H) as [?|[?|(ext & s2 & [-> Hnew] & Hx)]]; auto.
    right. right. eauto.
Qed.

End TraverserSteps.
(** ** The record classes of GraphAlignRecords.py *)

Section RecordFacts.
Import GraphAlignRecords.
Context {B : Builtins}.
#[local] Open Scope string_scope.

Lemma split_nonempty (sep : ascii) (s : string) : split sep s <> [].
Proof.
  destruct s as [|c s]; cbn [split]; [discriminate|].
  destruct (Ascii.eqb c sep); [discriminate|]. destruct (split sep s); discriminate.
Qed.

Lemma split_free (sep : ascii) (s : string) :
  free_of sep s -> split sep s = [s].
Proof.
  unfold free_of. induction s as [|c s IH]; intros Hfree; [reflexivity|].
  cbn [split]. destruct (Ascii.eqb_spec c sep) as [->|Hne].
  - exfalso. apply Hfree. now left.
  - rewrite IH; [reflexivity|]. intros Hin. apply Hfree. now right.
Qed.

Lemma split_app (sep : ascii) (tok rest : string) :
  free_of sep tok ->
  split sep (tok ++ String sep rest) = tok :: split sep rest.
Proof.
  unfold free_of. induction tok as [|c tok IH]; intros Hfree.
  - change ("" ++ String sep rest) with (String sep rest). cbn [split].
    now rewrite Ascii.eqb_refl.
  - change (String c tok ++ String sep rest) with (String c (tok ++ String sep rest)).
    cbn [split]. destruct (Ascii.eqb_spec c sep) as [->|Hne].
    + exfalso. apply Hfree. now left.
    + rewrite IH; [reflexivity|]. intros Hin. apply Hfree. now right.
Qed.

Lemma split_join (sep : ascii) (l : list string) :
  l <> [] -> Forall (free_of sep) l -> split sep (join sep l) = l.
Proof.
  induction l as [|tok l IH]; intros Hne Hfree; [contradiction|].
  apply Forall_cons in Hfree as [Htok Hl]. destruct l as [|tok' l'].
  - cbn [join]. now apply split_free.
  - change (join sep (tok :: tok' :: l')) with (tok ++ String sep (join sep (tok' :: l'))).
    rewrite split_app by exact Htok. f_equal. apply IH; [discriminate|exact Hl].
Qed.

Lemma split_tokens_free (sep : ascii) (s : string) : Forall (free_of sep) (split sep s).
Proof.
  induction s as [|c s IH]; cbn [split].
  - constructor; [intros []|constructor].
  - destruct (Ascii.eqb_spec c sep) as [->|Hne].
    + constructor; [intros []|exact IH].
    + destruct (split sep s) as [|tok toks]; [repeat constructor; intros [?|[]]; congruence|].
      apply Forall_cons in IH as [Htok Htoks]. constructor; [|exact Htoks].
      intros [?|Hin]; [congruence|]. now apply Htok.
Qed.

Lemma join_split (sep : ascii) (s : string) : join sep (split sep s) = s.
Proof.
  induction s as [|c s IH]; [reflexivity|]. cbn [split].
  destruct (Ascii.eqb_spec c sep) as [->|Hne].
  - pose proof (split_nonempty sep s) as Hne. destruct (split sep s) as [|t ts]; [contradiction|].
    change (join sep ("" :: t :: ts)) with (String sep (join sep (t :: ts))).
    now rewrite IH.
  - pose proof (split_nonempty sep s) as Hne'.
    destruct (split sep s) as [|t ts]; [contradiction|]. destruct ts as [|t' ts'].
    + cbn [join] in *. now rewrite IH.
    + change (join sep (String c t :: t' :: ts'))
        with (String c (t ++ String sep (join sep (t' :: ts')))).
      change (join sep (t :: t' :: ts')) with (t ++ String sep (join sep (t' :: ts'))) in IH.
      now rewrite IH.
Qed.

Lemma unsnoc_snoc (name : string) (c : ascii) :
  unsnoc (name ++ String c "") = Some (name, c).
Proof.
  induction name as [|a name IH]; [reflexivity|].
  change (String a name ++ String c "") with (String a (name ++ String c "")).
  cbn [unsnoc]. now rewrite IH.
Qed.

Lemma unsnoc_Some (s init : string) (c : ascii) :
  unsnoc s = Some (init, c) -> s = init ++ String c "".
Proof.
  revert init. induction s as [|a s IH]; intros init H; [discriminate|].
  cbn [unsnoc] in H. destruct (unsnoc s) as [[i z]|] eqn:E.
  - injection H as <- <-. now rewrite (IH i eq_refl).
  - injection H as <- <-. destruct s; [reflexivity|]. cbn in E.
    destruct (unsnoc s) as [[? ?]|]; discriminate.
Qed.


Lemma free_of_app (c : ascii) (s t : string) :
  free_of c (s ++ t) <-> free_of c s /\ free_of c t.
Proof.
  unfold free_of. induction s as [|a s IH].
  - change ("" ++ t) with t. cbn. tauto.
  - change (String a s ++ t) with (String a (s ++ t)). cbn [list_ascii_of_string In].
    tauto.
Qed.

Lemma convert_strand_sign (sign : ascii) (strand : bool) :
  CONVERT_STRAND (String sign "") = Some strand ->
  String sign "" = (if strand then "+" else "-").
Proof.
  unfold CONVERT_STRAND.
  destruct (String.eqb_spec (String sign "") "+") as [->|_]; [now intros [= <-]|].
  destruct (String.eqb_spec (String sign "") "-") as [->|_]; [now intros [= <-]|].
  discriminate.
Qed.

Lemma result_bind_done {A C} (a : A) (k : A -> result C) : (Done a ≫= k) = k a.
Proof. reflexivity. Qed.

(** The tokens that [parse_spa_tsv_path] accepts are those that
    [spa_token] writes. *)
Lemma spa_tokens_parsed (tokens : list string) (vertices : list (string * bool)) :
  traverse (fun v_str =>
      '(name, sign) ← orelse IndexErr (unsnoc v_str);
      strand ← orelse KeyErr (CONVERT_STRAND (String sign EmptyString));
      Done (name, strand)) tokens = Done vertices
  <-> tokens = spa_token <$> vertices.
Proof.
  revert vertices. induction tokens as [|t tokens IH]; intros vertices.
  - cbn. split.
    + intros [= <-]. reflexivity.
    + intros H. destruct vertices; [reflexivity|discriminate].
  - cbn [traverse]. split.
    + intros H. unfold mbind, result_bind in H.
      destruct (unsnoc t) as [[name sign]|] eqn:Et; cbn [orelse] in H; [|discriminate].
      destruct (CONVERT_STRAND (String sign "")) as [strand|] eqn:Es; cbn [orelse] in H;
        [|discriminate].
      match type of H with
      | context [traverse ?f tokens] => destruct (traverse f tokens) as [vs|] eqn:Ets
      end; [|discriminate].
      injection H as <-. apply IH in Ets as ->. cbn [fmap list_fmap]. f_equal.
      apply unsnoc_Some in Et as ->. unfold spa_token. cbn [fst snd].
      now rewrite (convert_strand_sign _ _ Es).
    + intros H. destruct vertices as [|[name strand] vertices]; [discriminate|].
      cbn [fmap list_fmap] in H. injection H as -> ->.
      cbv beta.
      assert (Hu : unsnoc (spa_token (name, strand))
                   = Some (name, if strand then "+"%char else "-"%char)).
      { unfold spa_token. cbn [fst snd]. destruct strand; apply unsnoc_snoc. }
      rewrite Hu. cbn [orelse]. rewrite result_bind_done.
      assert (Hs : CONVERT_STRAND (String (if strand then "+"%char else "-"%char) "")
                   = Some strand) by (destruct strand; reflexivity).
      rewrite Hs. cbn [orelse]. rewrite result_bind_done.
      rewrite (proj2 (IH vertices) eq_refl). reflexivity.
Qed.

(** X16. [SPATSVRecord.parse_spa_tsv_path] reads back exactly what is
    written as a comma-separated row of vertex names, each followed by its
    sign: it returns the path [vertices] for the string [path_str] if and
    only if the path is not empty, no name holds a comma, and [path_str] is
    the names with [+] or [-] appended, joined by commas.  Every other
    string (the empty string, an empty item, an item that does not end in
    a sign) raises. *)
Theorem parse_spa_tsv_path_round_trip (path_str : string)
    (vertices : list (string * bool)) :
  parse_spa_tsv_path path_str = Done vertices
  <-> vertices <> []
      /\ Forall (fun ve => free_of "," ve.1) vertices
      /\ path_str = spa_path_str vertices.
Proof.
  unfold parse_spa_tsv_path, spa_path_str. rewrite spa_tokens_parsed. split.
  - intros Hsplit. split; [|split].
    + intros ->. apply (split_nonempty "," path_str). exact Hsplit.
    + pose proof (split_tokens_free "," path_str) as Hfree. rewrite Hsplit in Hfree.
      rewrite Forall_fmap in Hfree. eapply Forall_impl; [exact Hfree|].
      intros [name strand] H. cbn in *. unfold spa_token in H. cbn [fst snd] in H.
      now apply free_of_app in H as [H _].
    + rewrite <- Hsplit. symmetry. apply join_split.
  - intros (Hne & Hfree & ->). apply split_join.
    + destruct vertices; [contradiction|discriminate].
    + rewrite Forall_fmap. eapply Forall_impl; [exact Hfree|].
      intros [name strand] H. cbn in *. unfold spa_token. cbn [fst snd].
      apply free_of_app. split; [exact H|].
      destruct strand; intros [?|[]]; discriminate.
Qed.


(** *** CIGAR strings *)

Lemma re_split_nonempty (s : string) : re_split s <> [].
Proof.
  destruct s as [|c s]; cbn [re_split]; [discriminate|].
  destruct (is_cigar_alpha c); [discriminate|]. destruct (re_split s); discriminate.
Qed.

Lemma re_split_free (s : string) : no_cigar_alpha s -> re_split s = [s].
Proof.
  unfold no_cigar_alpha. induction s as [|c s IH]; intros Hfree; [reflexivity|].
  cbn [re_split]. rewrite (Hfree c) by now left.
  rewrite IH; [reflexivity|]. intros x Hx. apply Hfree. now right.
Qed.

Lemma re_split_op (count : string) (op : ascii) (rest : string) :
  no_cigar_alpha count -> is_cigar_alpha op = true ->
  re_split (count ++ String op rest) = count :: String op "" :: re_split rest.
Proof.
  unfold no_cigar_alpha. intros Hfree Hop. induction count as [|c count IH].
  - change ("" ++ String op rest) with (String op rest). cbn [re_split]. now rewrite Hop.
  - change (String c count ++ String op rest) with (String c (count ++ String op rest)).
    cbn [re_split]. rewrite (Hfree c) by now left.
    rewrite IH; [reflexivity|]. intros x Hx. apply Hfree. now right.
Qed.

(** Every string is a row of operations, each a text without letter and
    one letter, followed by a text without letter. *)
Lemma cigar_text_exists (s : string) :
  exists ops rest,
    s = cigar_text ops rest
    /\ Forall (fun co => no_cigar_alpha co.1 /\ is_cigar_alpha co.2 = true) ops
    /\ no_cigar_alpha rest.
Proof.
  induction s as [|c s (ops & rest & -> & Hops & Hrest)].
  - exists [], "". split; [reflexivity|]. split; [constructor|intros c []].
  - destruct (is_cigar_alpha c) eqn:Hc.
    + exists (("", c) :: ops), rest. split; [reflexivity|]. split; [|exact Hrest].
      constructor; [|exact Hops]. split; [intros x []|exact Hc].
    + destruct ops as [|[count op] ops].
      * exists [], (String c rest). split; [reflexivity|]. split; [constructor|].
        intros x [<-|Hx]; [exact Hc|now apply Hrest].
      * apply Forall_cons in Hops as [[Hcount Hop] Hops].
        exists ((String c count, op) :: ops), rest. split; [reflexivity|].
        split; [|exact Hrest]. constructor; [|exact Hops]. split; [|exact Hop].
        intros x [<-|Hx]; [exact Hc|now apply Hcount].
Qed.

Lemma re_split_cigar_text (ops : list (string * ascii)) (rest : string) :
  Forall (fun co => no_cigar_alpha co.1 /\ is_cigar_alpha co.2 = true) ops ->
  no_cigar_alpha rest ->
  re_split (cigar_text ops rest)
  = (flat_map (fun co => [co.1; String co.2 ""]) ops ++ [rest])%list.
Proof.
  intros Hops Hrest. induction Hops as [|[count op] ops [Hcount Hop] _ IH].
  - cbn. now apply re_split_free.
  - cbn [cigar_text flat_map fst snd]. rewrite re_split_op by assumption.
    rewrite IH. reflexivity.
Qed.

Lemma cigar_pairs_flat (ops : list (string * ascii)) :
  cigar_pairs (flat_map (fun co => [co.1; String co.2 ""]) ops)
  = traverse (fun co => n ← orelse ValueErr (py_int co.1); Done (n, String co.2 ""))
      ops.
Proof.
  induction ops as [|[count op] ops IH]; [reflexivity|].
  cbn [flat_map app fst snd cigar_pairs traverse]. rewrite IH.
  destruct (py_int count); reflexivity.
Qed.

(** X17. [GAFRecord.split_cigar_str] reads a CIGAR string as a row of
    operations: every string can be written as a row of pairs of a text
    without operation letter and one operation letter of [MIDNSHPX=],
    followed by a text without letter; the result is, pair by pair,
    [int] of the text with the letter, in order (raising [ValueError] at
    the first text that [int] refuses), and the text after the last letter
    is dropped unread. *)
Theorem split_cigar_str_reads_operations (cigar_str : string) :
  exists ops rest,
    cigar_str = cigar_text ops rest
    /\ Forall (fun co => no_cigar_alpha co.1 /\ is_cigar_alpha co.2 = true) ops
    /\ no_cigar_alpha rest
    /\ split_cigar_str (FStr cigar_str)
       = traverse (fun co => n ← orelse ValueErr (py_int co.1);
                             Done (n, String co.2 "")) ops.
Proof.
  destruct (cigar_text_exists cigar_str) as (ops & rest & -> & Hops & Hrest).
  exists ops, rest. split; [reflexivity|]. split; [exact Hops|]. split; [exact Hrest|].
  unfold split_cigar_str. rewrite re_split_cigar_text by assumption.
  rewrite removelast_last. apply cigar_pairs_flat.
Qed.


(** *** Constructing a record *)

Lemma int_at_Done (record_line_split : list string) (i : nat) (z : Z) :
  int_at record_line_split i = Done z ->
  exists field, record_line_split !! i = Some field /\ py_int field = Some z.
Proof.
  unfold int_at. destruct (record_line_split !! i) as [field|]; [|discriminate].
  cbn [orelse]. rewrite result_bind_done.
  destruct (py_int field) eqn:E; cbn [orelse]; [|discriminate].
  intros [= <-]. eauto.
Qed.

(** Names the value that the first statement of a run returned. *)
Ltac peel_bind H x E :=
  match type of H with
  | (?m ≫= _) = Done _ =>
      destruct m as [x|] eqn:E; [rewrite result_bind_done in H|discriminate]
  end.

(** X18. A [GAFRecord] is only ever built from a line of at least twelve
    columns whose alignment length (column 11) is not zero: the default
    identity [num_match / float(align_len)] is computed before
    [optional_fields.get] looks for an [id] field, so a zero alignment
    length raises [ZeroDivisionError] whether the line gives an [id] or
    not.  In the record built, [p_align_len] is [p_end - p_start] and
    [identity] is the [id] field when there is one, else that quotient. *)
Theorem gaf_record_needs_nonzero_align_len (record_line_split : list string)
    (parse_cigar : bool) (r : GAF.t) :
  GAFRecord_init record_line_split parse_cigar = Done r ->
  12 <= length record_line_split
  /\ GAF.align_len r <> 0%Z
  /\ (exists field, record_line_split !! 10 = Some field
                    /\ py_int field = Some (GAF.align_len r))
  /\ GAF.p_align_len r = (GAF.p_end r - GAF.p_start r)%Z
  /\ GAF.identity r
     = default (FFloat (inject_Z (GAF.num_match r) / inject_Z (GAF.align_len r)))
               (GAF.optional_fields r !! "id").
Proof.
  unfold GAFRecord_init. intros H.
  peel_bind H query_name E0. peel_bind H query_len E1. peel_bind H q_start E2.
  peel_bind H q_end E3. peel_bind H strand E4. peel_bind H q_strand E4'.
  peel_bind H path_str E5. cbv zeta in H.
  peel_bind H p_len E6. peel_bind H p_start E7. peel_bind H p_end E8.
  peel_bind H num_match E9. peel_bind H align_len E10. peel_bind H align_quality E11.
  peel_bind H optional_fields E12. peel_bind H cigar E13.
  destruct (Z.eqb_spec align_len 0) as [|Hnz]; [discriminate|].
  rewrite result_bind_done in H. injection H as <-. cbn.
  apply int_at_Done in E11 as (f11 & Hl11 & _).
  apply int_at_Done in E10 as (f10 & Hl10 & Hi10).
  split; [apply lookup_lt_Some in Hl11; lia|]. split; [exact Hnz|].
  split; [eauto|]. split; reflexivity.
Qed.


(** *** The deletion loops *)

Lemma result_fmap_bind {A C D} (m : result A) (k : A -> result C) (f : C -> D) :
  f <$> (m ≫= k) = m ≫= (fun a => f <$> k a).
Proof. destruct m; reflexivity. Qed.

(** A deletion loop with enough fuel handles the records from [go_r] on
    once each, in order, and leaves those before [go_r] alone. *)
Lemma del_loop_from {A} (step : A -> result (option A)) :
  forall (fuel go_r : nat) (rs : list A),
  length rs - go_r <= fuel ->
  del_loop step fuel go_r rs
  = (fun kept => take go_r rs ++ omap id kept)%list <$> traverse step (drop go_r rs).
Proof.
  induction fuel as [|fuel IH]; intros go_r rs Hfuel.
  - destruct (rs !! go_r) as [r|] eqn:E.
    + apply lookup_lt_Some in E. lia.
    + cbn [del_loop]. rewrite E. apply lookup_ge_None in E.
      rewrite drop_ge, take_ge by lia. cbn. now rewrite app_nil_r.
  - cbn [del_loop]. destruct (rs !! go_r) as [r|] eqn:E.
    + rewrite (drop_S _ _ _ E). cbn [traverse].
      pose proof (lookup_lt_Some _ _ _ E) as Hlt.
      assert (Hlen : go_r = length (take go_r rs)) by (rewrite length_take; lia).
      destruct (step r) as [[r'|]|]; [| |reflexivity]; rewrite !result_bind_done.
      * rewrite IH by (rewrite length_insert; lia).
        rewrite (insert_take_drop _ _ _ Hlt).
        rewrite (cons_middle r'), app_assoc.
        rewrite drop_app_length' by (rewrite length_app, <- Hlen; cbn; lia).
        rewrite take_app_length' by (rewrite length_app, <- Hlen; cbn; lia).
        destruct (traverse step (drop (S go_r) rs)) as [kept|]; [|reflexivity].
        cbn. f_equal. now rewrite <- app_assoc.
      * rewrite IH by (rewrite length_delete by eauto; lia).
        rewrite delete_take_drop.
        rewrite drop_app_length' by exact Hlen.
        rewrite take_app_length' by exact Hlen.
        destruct (traverse step (drop (S go_r) rs)) as [kept|]; reflexivity.
    + apply lookup_ge_None in E. rewrite drop_ge, take_ge by lia. cbn.
      now rewrite app_nil_r.
Qed.

Lemma del_loop_all {A} (step : A -> result (option A)) (fuel : nat) (rs : list A) :
  length rs <= fuel ->
  del_loop step fuel 0 rs
  = (fun kept : list (option A) => omap id kept) <$> traverse step rs.
Proof.
  intros Hfuel. rewrite del_loop_from by lia. rewrite drop_0.
  destruct (traverse step rs); reflexivity.
Qed.

(** A loop that only deletes is a filter. *)
Lemma del_loop_filter {A} (keep : A -> bool) (fuel : nat) (rs : list A) :
  length rs <= fuel ->
  del_loop (fun r => Done (if keep r then Some r else None)) fuel 0 rs
  = Done (List.filter keep rs).
Proof.
  intros Hfuel. rewrite del_loop_all by exact Hfuel. clear Hfuel.
  induction rs as [|r rs IH]; [reflexivity|].
  cbn [traverse List.filter]. rewrite result_bind_done.
  destruct (traverse _ rs) as [kept|]; [|discriminate].
  cbn in IH |- *. injection IH as IH. destruct (keep r); cbn; now rewrite IH.
Qed.

Lemma length_filter_le {A} (f : A -> bool) (l : list A) :
  length (List.filter f l) <= length l.
Proof. induction l as [|a l IH]; cbn; [lia|]. destruct (f a); cbn; lia. Qed.

Lemma filter_filter_andb {A} (f g : A -> bool) (l : list A) :
  List.filter g (List.filter f l) = List.filter (fun x => f x && g x) l.
Proof.
  induction l as [|a l IH]; [reflexivity|]. cbn [List.filter].
  destruct (f a); cbn [List.filter andb]; [destruct (g a)|]; now rewrite IH.
Qed.

Lemma del_loop_keeps {A} (step : A -> result (option A)) (keep : A -> bool)
    (fuel : nat) (rs : list A) :
  length rs <= fuel ->
  (forall r, r ∈ rs -> step r = Done (if keep r then Some r else None)) ->
  del_loop step fuel 0 rs = Done (List.filter keep rs).
Proof.
  intros Hfuel Hstep. rewrite del_loop_all by exact Hfuel. clear Hfuel.
  induction rs as [|r rs IH]; [reflexivity|].
  cbn [traverse List.filter]. rewrite (Hstep r) by left. rewrite result_bind_done.
  assert (IH' := IH (fun r' Hr' => Hstep r' (list_elem_of_further _ _ _ Hr'))).
  destruct (traverse step rs) as [kept|]; [|discriminate].
  cbn in IH' |- *. injection IH' as IH'. destruct (keep r); cbn; now rewrite IH'.
Qed.

Lemma filter_all {A} (f : A -> bool) (l : list A) :
  (forall x, f x = true) -> List.filter f l = l.
Proof.
  intros Hf. induction l as [|a l IH]; [reflexivity|]. cbn. now rewrite Hf, IH.
Qed.

Lemma filter_elem {A} (f : A -> bool) (l : list A) (x : A) :
  x ∈ List.filter f l -> x ∈ l.
Proof. intros H. apply list_elem_of_In, filter_In in H as [H _]. now apply list_elem_of_In. Qed.

(** X19. The three threshold loops of [parse_alignment_file_single]
    (lines 206-231), which delete from [self.records] while walking it,
    skip no record and keep the order: given fuel for one round per record
    and identities that are numbers, what is left is exactly the records
    whose [p_align_len] is at least [min_aligned_path_len] (when that is not
    0), whose [align_len] is at least [min_align_len] (when that exceeds
    [min_aligned_path_len]) and, for the GAF format, whose [identity] is at
    least [min_identity] (when that is not 0). *)
Theorem threshold_filters_keep_passing_records (o : Options) {A : Type}
    (p_align_len align_len : A -> Z) (identity : option (A -> field_value))
    (fuel : nat) (rs : list A) :
  length rs <= fuel ->
  (forall f r, identity = Some f -> r ∈ rs -> is_Some (field_number (f r))) ->
  threshold_filters o p_align_len align_len identity fuel rs
  = Done (List.filter (passes_thresholds o p_align_len align_len identity) rs).
Proof.
  intros Hfuel Hnum. unfold threshold_filters.
  set (keep1 := fun r => ((min_aligned_path_len o =? 0)
                          || (min_aligned_path_len o <=? p_align_len r))%Z).
  set (keep2 := fun r => ((min_align_len o <=? min_aligned_path_len o)
                          || (min_align_len o <=? align_len r))%Z).
  set (keep3 := fun r => match identity with
     | Some identity =>
         Qeq_bool (min_identity o) 0
         || match field_number (identity r) with
            | Some q => Qle_bool (min_identity o) q
            | None => false
            end
     | None => true
     end).
  assert (H1 : (if (min_aligned_path_len o =? 0)%Z then Done rs
        else del_loop (fun r =>
               Done (if (p_align_len r <? min_aligned_path_len o)%Z then None else Some r))
             fuel 0 rs) = Done (List.filter keep1 rs)).
  { subst keep1. destruct (Z.eqb_spec (min_aligned_path_len o) 0) as [Hz|Hnz].
    - now rewrite filter_all.
    - apply del_loop_keeps; [exact Hfuel|]. intros r _. cbn [orb].
      destruct (Z.ltb_spec (p_align_len r) (min_aligned_path_len o)),
               (Z.leb_spec (min_aligned_path_len o) (p_align_len r)); try lia; reflexivity. }
  rewrite H1, result_bind_done.
  set (rs1 := List.filter keep1 rs).
  assert (Hfuel1 : length rs1 <= fuel).
  { etransitivity; [apply length_filter_le|exact Hfuel]. }
  assert (H2 : (if (min_aligned_path_len o <? min_align_len o)%Z then
          del_loop (fun r =>
               Done (if (align_len r <? min_align_len o)%Z then None else Some r))
             fuel 0 rs1
        else Done rs1) = Done (List.filter keep2 rs1)).
  { subst keep2. destruct (Z.ltb_spec (min_aligned_path_len o) (min_align_len o)) as [Hlt|Hge].
    - apply del_loop_keeps; [exact Hfuel1|]. intros r _.
      destruct (Z.leb_spec (min_align_len o) (min_aligned_path_len o)); [lia|]. cbn [orb].
      destruct (Z.ltb_spec (align_len r) (min_align_len o)),
               (Z.leb_spec (min_align_len o) (align_len r)); try lia; reflexivity.
    - rewrite filter_all; [reflexivity|]. intros r.
      destruct (Z.leb_spec (min_align_len o) (min_aligned_path_len o)); [reflexivity|lia]. }
  rewrite H2, result_bind_done.
  set (rs2 := List.filter keep2 rs1).
  assert (Hfuel2 : length rs2 <= fuel).
  { etransitivity; [apply length_filter_le|exact Hfuel1]. }
  assert (H3 : match identity with
    | Some identity =>
        if Qeq_bool (min_identity o) 0 then Done rs2
        else del_loop (fun r =>
               below ← identity_below (identity r) (min_identity o);
               Done (if below : bool then None else Some r))
             fuel 0 rs2
    | None => Done rs2
    end = Done (List.filter keep3 rs2)).
  { subst keep3. destruct identity as [f|]; [|now rewrite filter_all].
    destruct (Qeq_bool (min_identity o) 0); [now rewrite filter_all|]. cbn [orb].
    apply del_loop_keeps; [exact Hfuel2|]. intros r Hr.
    assert (Hr0 : r ∈ rs) by (subst rs2 rs1; eauto using filter_elem).
    destruct (Hnum f r eq_refl Hr0) as [q Hq]. rewrite Hq.
    destruct (f r) as [z|s|q']; cbn in Hq |- *; try discriminate;
      injection Hq as <-; destruct (Qle_bool _ _); reflexivity. }
  rewrite H3. subst rs2 rs1. rewrite !filter_filter_andb. f_equal.
  apply filter_ext. intros r. unfold passes_thresholds. now rewrite andb_assoc.
Qed.


(** *** Trimming the overlaps *)

Lemma removelast_take {A} (l : list A) : removelast l = take (length l - 1) l.
Proof.
  induction l as [|a l IH]; [reflexivity|]. destruct l as [|b l]; [reflexivity|].
  change (removelast (a :: b :: l)) with (a :: removelast (b :: l)). rewrite IH.
  cbn [length]. replace (S (S (length l)) - 1) with (S (S (length l) - 1)) by lia.
  reflexivity.
Qed.

Lemma trimmed_from_refl (r : GAF.t) : trimmed_from r r.
Proof.
  exists 0, 0. rewrite Nat.sub_0_r, drop_0, firstn_all. repeat split; auto.
  destruct r; reflexivity.
Qed.

(** The body of the GAF trimming loop keeps a record only as a trimmed
    form of itself. *)
Lemma trim_gaf_record_trims (graph : Assembly) (this_overlap : Z) (r r' : GAF.t) :
  trim_gaf_record graph this_overlap r = Done (Some r') -> trimmed_from r r'.
Proof.
  unfold trim_gaf_record. destruct (Nat.ltb_spec 1 (length (GAF.path r))) as [Hlen|Hlen].
  2:{ intros [= <-]. apply trimmed_from_refl. }
  destruct (head (GAF.path r)) as [[head_v he]|]; cbn [orelse]; [|discriminate].
  rewrite result_bind_done.
  destruct (last (GAF.path r)) as [[tail_v te]|]; cbn [orelse]; [|discriminate].
  rewrite result_bind_done.
  destruct (vertex_lookup head_v) as [hv|]; [|discriminate].
  destruct (vertex_lookup tail_v) as [tv|]; [|discriminate].
  set (a := if (Z.of_nat (len hv) - GAF.p_start r <=? this_overlap)%Z then 1 else 0).
  set (b := if (Z.of_nat (len tv) - (GAF.p_len r - GAF.p_end r - 1) <=? this_overlap)%Z
            then 1 else 0).
  assert (Ha : a <= 1).
  { subst a. destruct (Z.of_nat (len hv) - GAF.p_start r <=? this_overlap)%Z; lia. }
  assert (Hb : b <= 1).
  { subst b.
    destruct (Z.of_nat (len tv) - (GAF.p_len r - GAF.p_end r - 1) <=? this_overlap)%Z;
      lia. }
  assert (Hpath : (let path := if (Z.of_nat (len hv) - GAF.p_start r <=? this_overlap)%Z
                               then tail (GAF.path r) else GAF.path r in
                   if (Z.of_nat (len tv) - (GAF.p_len r - GAF.p_end r - 1)
                       <=? this_overlap)%Z
                   then removelast path else path)
                  = drop a (take (length (GAF.path r) - b) (GAF.path r))).
  { subst a b. cbv zeta.
    destruct (_ <=? _)%Z; destruct (_ <=? _)%Z;
      rewrite ?removelast_take, ?Nat.sub_0_r, ?drop_0, ?firstn_all; try reflexivity.
    change (tail (GAF.path r)) with (drop 1 (GAF.path r)).
    rewrite length_drop, take_drop_commute. f_equal. f_equal. lia. }
  cbv zeta in Hpath |- *. rewrite Hpath.
  destruct (drop a (take (length (GAF.path r) - b) (GAF.path r))) as [|x l] eqn:E;
    [discriminate|].
  intros [= <-]. exists a, b. cbn [GAF.path GAF.set_path].
  split; [exact Ha|]. split; [exact Hb|].
  split; [now rewrite E|]. split; [reflexivity|]. discriminate.
Qed.

Lemma traverse_kept {A} (step : A -> result (option A)) (P : A -> A -> Prop)
    (rs : list A) :
  (forall r r', step r = Done (Some r') -> P r r') ->
  forall bs, traverse step rs = Done bs ->
  exists kept, kept `sublist_of` rs /\ Forall2 P kept (omap id bs).
Proof.
  intros Hstep. induction rs as [|r rs IH]; intros bs H.
  - cbn in H. injection H as <-. exists []. split; constructor.
  - cbn [traverse] in H. destruct (step r) as [b|] eqn:Er; [|discriminate].
    rewrite result_bind_done in H.
    destruct (traverse step rs) as [bs'|]; [|discriminate].
    rewrite result_bind_done in H. injection H as <-.
    destruct (IH bs' eq_refl) as (kept & Hsub & Hall). destruct b as [r'|].
    + exists (r :: kept). split; [now constructor|]. cbn. constructor; auto.
    + exists kept. split; [now constructor|]. exact Hall.
Qed.

(** X20. Trimming the overlaps of GAF records (lines 233-268) never
    reorders or invents records: given fuel for one round per record, when
    [trim_overlaps] returns, the records left are, in order, records of the
    input, each with at most one segment removed at each end of its path,
    and none with its path emptied. The warning "assembly graph not
    available" is logged exactly when trimming was not asked for. *)
Theorem gaf_trimming_shortens_paths_at_the_ends (o : Options) (fuel : nat)
    (rs : list GAF.t) (out : records) (warned : bool) :
  length rs <= fuel ->
  trim_overlaps o fuel (GAFRecords rs) = Done (out, warned) ->
  warned = negb (trim_overlap_with_graph o)
  /\ exists rs' kept,
       out = GAFRecords rs'
       /\ kept `sublist_of` rs
       /\ Forall2 trimmed_from kept rs'.
Proof.
  intros Hfuel H. unfold trim_overlaps in H.
  assert (Hsame : exists kept, kept `sublist_of` rs /\ Forall2 trimmed_from kept rs).
  { exists rs. split; [reflexivity|]. clear. induction rs; constructor;
      auto using trimmed_from_refl. }
  destruct (trim_overlap_with_graph o).
  - destruct (assembly_graph o) as [[graph check2]|]; cbn [orelse] in H; [|discriminate].
    rewrite result_bind_done in H. destruct check2 as [this_overlap|].
    + destruct (this_overlap =? 0)%Z.
      * injection H as <- <-. split; [reflexivity|]. destruct Hsame as (kept & ? & ?).
        eauto.
      * rewrite del_loop_all in H by exact Hfuel.
        destruct (traverse (trim_gaf_record graph this_overlap) rs) as [bs|] eqn:E;
          [|discriminate].
        cbn in H. injection H as <- <-. split; [reflexivity|].
        destruct (traverse_kept _ trimmed_from rs
                    (trim_gaf_record_trims graph this_overlap) bs E) as (kept & ? & ?).
        eauto.
    + injection H as <- <-. split; [reflexivity|]. destruct Hsame as (kept & ? & ?). eauto.
  - injection H as <- <-. split; [reflexivity|]. destruct Hsame as (kept & ? & ?). eauto.
Qed.


Lemma traverse_length {A C} (f : A -> result C) (l : list A) (bs : list C) :
  traverse f l = Done bs -> length bs = length l.
Proof.
  revert bs. induction l as [|a l IH]; intros bs H.
  - cbn in H. now injection H as <-.
  - cbn [traverse] in H. destruct (f a); [|discriminate]. rewrite result_bind_done in H.
    destruct (traverse f l) as [bs'|]; [|discriminate]. rewrite result_bind_done in H.
    injection H as <-. cbn. f_equal. now apply IH.
Qed.

(** X21. A [SPATSVRecord] that is built has at least eight columns behind
    it, a path that is not empty and reads back as its [path_str], at least
    one aligned length, and an [align_len] that is at least 1 and at least
    [p_align_len] and [q_align_len], whatever the numbers of the line:
    [q_align_len] is [abs(q_start - q_end) + 1]. *)
Theorem spa_tsv_record_invariants (record_line_split : list string) (r : SPATSV.t) :
  SPATSVRecord_init record_line_split = Done r ->
  8 <= length record_line_split
  /\ SPATSV.path r <> []
  /\ SPATSV.path_str r = spa_path_str (SPATSV.path r)
  /\ SPATSV.path_align_lengths r <> []
  /\ (1 <= SPATSV.align_len r
      /\ SPATSV.p_align_len r <= SPATSV.align_len r
      /\ SPATSV.q_align_len r <= SPATSV.align_len r
      /\ SPATSV.p_end r = SPATSV.p_start r + SPATSV.p_align_len r)%Z.
Proof.
  unfold SPATSVRecord_init. intros H.
  peel_bind H query_name E0. peel_bind H q_start E1. peel_bind H q_end E2.
  peel_bind H p_start E3. peel_bind H query_len E5. cbv zeta in H.
  peel_bind H path_str E6. peel_bind H pth E6'. peel_bind H lengths E7.
  peel_bind H path_align_lengths E7'. injection H as <-. cbn.
  destruct (record_line_split !! 7) as [f7|] eqn:Hl7; [|discriminate].
  apply lookup_lt_Some in Hl7. cbn [orelse] in E7. injection E7 as ->.
  unfold parse_spa_tsv_path in E6'.
  pose proof (traverse_length _ _ _ E6') as Hlen.
  apply spa_tokens_parsed in E6'.
  pose proof (traverse_length _ _ _ E7') as Hlen'.
  split; [lia|]. split; [|split; [|split]].
  - intros ->. apply (split_nonempty "," path_str). destruct (split "," path_str);
      [reflexivity|discriminate].
  - unfold spa_path_str. rewrite <- E6'. symmetry. apply join_split.
  - intros ->. apply (split_nonempty "," lengths). destruct (split "," lengths);
      [reflexivity|discriminate].
  - lia.
Qed.

End RecordFacts.

(** ** A whole generation run *)

Section GenerationRun.
Context {G : Assembly} {R : RandomObj} {N : Numerics} {C : Config}.

Lemma read_paths_counter_read_only : read_only_attribute read_paths_counter.
Proof. split; reflexivity. Qed.

Lemma counter_indexed_read_only : read_only_attribute read_paths_counter_indexed.
Proof. split; reflexivity. Qed.

(** Indexing writes neither [self.components] nor
    [self.components_counts]. *)
Ltac index_frame :=
  unfold index_readpaths_subpaths, summarize_alignment, count_read_path;
  repeat first
    [ apply preserves_mret | apply preserves_gets | apply preserves_lift_opt
    | apply preserves_modify; intros ?; reflexivity
    | apply preserves_bind; [|intros ?]
    | apply preserves_foldM; intros ? ?
    | apply preserves_forM_; intros ?
    | match goal with
      | |- preserves _ (match ?x with _ => _ end) => destruct x
      | |- preserves _ (let '(_, _) := ?x in _) => destruct x
      | |- preserves _ (run_index_call ?c) => destruct c
      end ].

Lemma preserves_components_index flt :
  preserves components (index_readpaths_subpaths flt).
Proof. index_frame. Qed.

Lemma preserves_components_counts_index flt :
  preserves components_counts (index_readpaths_subpaths flt).
Proof. index_frame. Qed.

(** The two ways of filling the coverage table return, and write the
    table only. *)
Ltac coverage_frame :=
  destruct use_alignment_cov;
  unfold estimate_contig_coverages_from_read_paths,
    use_contig_coverage_from_assembly_graph;
  repeat first
    [ apply preserves_mret | apply preserves_gets
    | apply preserves_modify; intros ?; reflexivity
    | apply preserves_bind; [|intros ?]
    | apply preserves_forM_; intros ?
    | match goal with
      | |- preserves _ (match ?x with _ => _ end) => destruct x
      | |- preserves _ (let '(_, _) := ?x in _) => destruct x
      end ].

Lemma coverage_step_keeps (s : Self) :
  let s1 := ((if use_alignment_cov then estimate_contig_coverages_from_read_paths
              else use_contig_coverage_from_assembly_graph) s).2 in
  read_paths s1 = read_paths s
  /\ read_paths_counter s1 = read_paths_counter s
  /\ read_paths_counter_indexed s1 = read_paths_counter_indexed s
  /\ components s1 = components s
  /\ components_counts s1 = components_counts s.
Proof.
  cbv zeta.
  assert (H1 : preserves read_paths
                 (if use_alignment_cov then estimate_contig_coverages_from_read_paths
                  else use_contig_coverage_from_assembly_graph)) by coverage_frame.
  assert (H2 : preserves read_paths_counter
                 (if use_alignment_cov then estimate_contig_coverages_from_read_paths
                  else use_contig_coverage_from_assembly_graph)) by coverage_frame.
  assert (H3 : preserves read_paths_counter_indexed
                 (if use_alignment_cov then estimate_contig_coverages_from_read_paths
                  else use_contig_coverage_from_assembly_graph)) by coverage_frame.
  assert (H4 : preserves components
                 (if use_alignment_cov then estimate_contig_coverages_from_read_paths
                  else use_contig_coverage_from_assembly_graph)) by coverage_frame.
  assert (H5 : preserves components_counts
                 (if use_alignment_cov then estimate_contig_coverages_from_read_paths
                  else use_contig_coverage_from_assembly_graph)) by coverage_frame.
  repeat split; [apply H1|apply H2|apply H3|apply H4|apply H5].
Qed.

(** The sampler writes none of the attributes that indexing filled. *)
Lemma sampler_keeps_index {X} (f : Self -> X) (rounds depth : nat) :
  read_only_attribute f ->
  (forall x s, f (set_components x s) = f s) ->
  (forall x s, f (set_components_counts x s) = f s) ->
  preserves f (gen_heuristic_paths_uni rounds depth).
Proof.
  intros Hf Hc Hcc. unfold gen_heuristic_paths_uni.
  assert (Hstore : forall l cv, preserves f (store_paths l cv)).
  { induction l as [|p l IH]; intros cv; cbn [store_paths].
    - apply preserves_mret.
    - apply preserves_bind; [apply preserves_gets|]. intros counts.
      apply preserves_bind.
      + destruct (counts !! p).
        * apply preserves_modify. intros ?. apply Hcc.
        * apply preserves_bind; [apply preserves_modify; intros ?; apply Hcc|].
          intros _. apply preserves_modify. intros ?. apply Hc.
      + intros _. destruct (_ =? _); [apply preserves_mret|apply IH]. }
  generalize 0 at 1 as cs. generalize 0 as cv.
  induction rounds as [|rounds IH]; intros cv cs;
    cbn [search_loop]; destruct (cv <? num_search); try apply preserves_mret.
  - apply preserves_timeout.
  - apply preserves_bind; [now apply preserves_get_single_traversal|]. intros p.
    destruct (invalid_search p); [apply IH|].
    apply preserves_bind.
    + destruct (_ <=? _); [|apply preserves_mret].
      now apply preserves_decompose_hetero_units.
    + intros l. apply preserves_bind; [apply Hstore|]. intros cv'. apply IH.
Qed.

Lemma counts_reads_frame (s s1 : Self) (done : list (list (string * bool))) :
  read_paths s1 = read_paths s -> read_paths_counter s1 = read_paths_counter s ->
  counts_reads s done -> counts_reads s1 done.
Proof. unfold counts_reads. now intros -> ->. Qed.

(** A run of indexing that returns has set the flag. *)
Lemma index_sets_flag (flt : bool) (s s' : Self) :
  index_readpaths_subpaths flt s = (Ok tt, s') -> read_paths_counter_indexed s' = true.
Proof.
  unfold index_readpaths_subpaths. intros H.
  repeat (rewrite bind_run in H;
          match type of H with
          | match ?m ?s0 with _ => _ end = _ =>
              destruct (m s0) as [[?| |] ?] eqn:?; try discriminate
          end).
  cbn [modify] in *. now injection H as <-.
Qed.

(** X23. A run of [generate_heuristic_components] (one process) on a
    generator that was not indexed and held no read path and no component:
    when it returns, [self.read_paths] and [self.__read_paths_counter] hold
    the standardized paths of the records that the graph contains, each
    once with its number of records, the generator is marked as indexed,
    [self.components] and [self.components_counts] agree, and the counts of
    the components add up to [num_search]. *)
Theorem generation_run_fills_reads_and_components (rounds depth : nat) (s s' : Self)
    (out : nat * nat) :
  read_paths_counter_indexed s = false -> read_paths s = [] ->
  components s = [] -> components_counts s = ∅ ->
  generate_heuristic_components rounds depth s = (Ok out, s') ->
  counts_reads s' (kept_paths true)
  /\ read_paths_counter_indexed s' = true
  /\ components_in_sync s'
  /\ walks_counted s' = num_search.
Proof.
  intros Hflag Hrp Hc Hcc Hrun. unfold generate_heuristic_components in Hrun.
  rewrite bind_run in Hrun. cbn [gets] in Hrun. rewrite Hflag, bind_run in Hrun.
  pose proof (preserves_components_index true s) as Hc1.
  pose proof (preserves_components_counts_index true s) as Hcc1.
  destruct (index_readpaths_subpaths true s) as [[[]| |] s1] eqn:Hidx; try discriminate.
  cbn [snd] in Hc1, Hcc1.
  pose proof (index_sets_flag _ _ _ Hidx) as Hflag1.
  destruct (index_readpaths_subpaths_spec _ _ _ Hidx)
    as (s0 & lmal & _ & _ & _ & Hreads & _ & _ & Hrp1 & Hrc1 & _).
  pose proof (counts_reads_frame s0 s1 _ Hrp1 Hrc1 (Hreads Hrp)) as Hreads1.
  rewrite bind_run in Hrun.
  destruct (coverage_step_keeps s1) as (Hrp2 & Hrc2 & Hflag2 & Hc2 & Hcc2).
  destruct ((if use_alignment_cov then estimate_contig_coverages_from_read_paths
             else use_contig_coverage_from_assembly_graph) s1) as [[[]| |] s2];
    try discriminate.
  cbn [snd] in Hrp2, Hrc2, Hflag2, Hc2, Hcc2.
  pose proof (sampler_keeps_index read_paths rounds depth read_paths_read_only
                ltac:(reflexivity) ltac:(reflexivity) s2) as Hrp3.
  pose proof (sampler_keeps_index read_paths_counter rounds depth
                read_paths_counter_read_only ltac:(reflexivity) ltac:(reflexivity) s2)
    as Hrc3.
  pose proof (sampler_keeps_index read_paths_counter_indexed rounds depth
                counter_indexed_read_only ltac:(reflexivity) ltac:(reflexivity) s2)
    as Hflag3.
  rewrite Hrun in Hrp3, Hrc3, Hflag3. cbn [snd] in Hrp3, Hrc3, Hflag3.
  assert (Hsync : components_in_sync s2).
  { unfold components_in_sync. rewrite Hc2, Hcc2, Hc1, Hcc1, Hc, Hcc.
    split; [constructor|]. split.
    - intros p. rewrite lookup_empty.
      split; [intros H; inversion H|intros [? ?]; discriminate].
    - intros p c. rewrite lookup_empty. discriminate. }
  assert (Hsum : walks_counted s2 = 0).
  { unfold walks_counted. now rewrite Hc2, Hc1, Hc. }
  unfold gen_heuristic_paths_uni in Hrun.
  destruct (search_loop_books (get_single_traversal depth)
              (preserves_get_single_traversal components components_read_only depth)
              (preserves_get_single_traversal components_counts
                 components_counts_read_only depth)
              rounds 0 0 s2 s' _ Hrun Hsync Hsum ltac:(lia)) as (_ & H1 & H2).
  split; [|split; [|split]].
  - apply (counts_reads_frame s1 s' _); [congruence|congruence|exact Hreads1].
  - congruence.
  - exact H1.
  - exact H2.
Qed.

End GenerationRun.

Section GenerationRunExample.
Import Examples RunExamples.
#[local] Existing Instance loop_assembly.
#[local] Existing Instance loop_config.
#[local] Existing Instance ScriptedRandom.random_obj.
#[local] Existing Instance StandIn.numerics.

(** The hypotheses of [generation_run_fills_reads_and_components] on the
    loop. *)
Lemma generation_run_fills_reads_and_components_witness :
  read_paths_counter_indexed (init_self []) = false
  /\ read_paths (init_self []) = []
  /\ components (init_self []) = []
  /\ components_counts (init_self []) = ∅
  /\ generate_heuristic_components 3 30 (init_self []) = (Ok (2, 2), loop_sampled)
  /\ counts_reads loop_sampled (kept_paths true)
  /\ read_paths_counter_indexed loop_sampled = true
  /\ components_in_sync loop_sampled
  /\ walks_counted loop_sampled = num_search.
Proof.
  assert (H1 : read_paths_counter_indexed (init_self []) = false) by reflexivity.
  assert (H2 : read_paths (init_self []) = []) by reflexivity.
  assert (H3 : components (init_self []) = []) by reflexivity.
  assert (H4 : components_counts (init_self []) = ∅) by reflexivity.
  assert (H5 : generate_heuristic_components 3 30 (init_self []) = (Ok (2, 2), loop_sampled))
    by (vm_compute; reflexivity).
  split; [exact H1|]. split; [exact H2|]. split; [exact H3|]. split; [exact H4|].
  split; [exact H5|].
  exact (generation_run_fills_reads_and_components 3 30 (init_self []) loop_sampled (2, 2)
           H1 H2 H3 H4 H5).
Defined.

End GenerationRunExample.

(** ** The added properties, on the examples *)

Section LoopRuns.
Import Examples RunExamples.
#[local] Existing Instance loop_assembly.
#[local] Existing Instance loop_config.
#[local] Existing Instance ScriptedRandom.random_obj.
#[local] Existing Instance StandIn.numerics.

(** The hypotheses of [read_paths_counted_once] on the loop and its one
    read. *)
Lemma read_paths_counted_once_witness :
  read_paths (init_self []) = []
  /\ index_readpaths_subpaths true (init_self []) = (Ok tt, loop_indexed)
  /\ counts_reads loop_indexed (kept_paths true).
Proof.
  assert (H1 : read_paths (init_self []) = []) by reflexivity.
  assert (H2 : index_readpaths_subpaths true (init_self []) = (Ok tt, loop_indexed))
    by (vm_compute; reflexivity).
  split; [exact H1|]. split; [exact H2|].
  exact (read_paths_counted_once true (init_self []) loop_indexed H1 H2).
Defined.

(** The hypotheses of [starting_index_holds_proper_prefixes] on the loop:
    the first two segments of the read A-, B-, A- are a key of the index. *)
Lemma starting_index_holds_proper_prefixes_witness :
  starting_subpath_to_readpaths (init_self []) = ∅
  /\ index_readpaths_subpaths true (init_self []) = (Ok tt, loop_indexed)
  /\ indexed_start loop_indexed [A_rev; B_rev] 0 true.
Proof.
  assert (H1 : starting_subpath_to_readpaths (init_self []) = ∅) by reflexivity.
  assert (H2 : index_readpaths_subpaths true (init_self []) = (Ok tt, loop_indexed))
    by (vm_compute; reflexivity).
  assert (H3 : exists read_path k,
             read_paths loop_indexed !! 0 = Some read_path
             /\ 1 <= k < length read_path
             /\ [A_rev; B_rev] = take k (oriented true read_path)).
  { exists [A_rev; B_rev; A_rev], 2. split; [reflexivity|]. split; [simpl; lia|reflexivity]. }
  split; [exact H1|]. split; [exact H2|].
  exact (proj2 (starting_index_holds_proper_prefixes true (init_self []) loop_indexed
                  H1 H2 [A_rev; B_rev] 0 true) H3).
Defined.

(** The hypotheses of [middle_index_holds_inner_blocks] on the loop: the
    inner segment of the read, reversed, is a key of the index. *)
Lemma middle_index_holds_inner_blocks_witness :
  middle_subpath_to_readpaths (init_self []) = ∅
  /\ index_readpaths_subpaths true (init_self []) = (Ok tt, loop_indexed)
  /\ indexed_middle loop_indexed [B_fwd] 0 false.
Proof.
  assert (H1 : middle_subpath_to_readpaths (init_self []) = ∅) by reflexivity.
  assert (H2 : index_readpaths_subpaths true (init_self []) = (Ok tt, loop_indexed))
    by (vm_compute; reflexivity).
  assert (H3 : exists read_path k go_sub,
             read_paths loop_indexed !! 0 = Some read_path
             /\ 1 <= k /\ 1 <= go_sub /\ go_sub + k < length read_path
             /\ [B_fwd] = take k (drop go_sub (oriented false read_path))).
  { exists [A_rev; B_rev; A_rev], 1, 1. split; [reflexivity|].
    split; [lia|]. split; [lia|]. split; [simpl; lia|reflexivity]. }
  split; [exact H1|]. split; [exact H2|].
  exact (proj2 (middle_index_holds_inner_blocks true (init_self []) loop_indexed
                  H1 H2 [B_fwd] 0 false) H3).
Defined.

(** The hypothesis of [local_max_alignment_len_is_maximum] on the loop. *)
Lemma local_max_alignment_len_is_maximum_witness :
  index_readpaths_subpaths true (init_self []) = (Ok tt, loop_indexed)
  /\ exists lmal,
       local_max_alignment_len loop_indexed = Some lmal
       /\ lmal ∈ p_align_len <$> kept_records true
       /\ forall r, r ∈ kept_records true -> (p_align_len r <= lmal)%Z.
Proof.
  assert (H : index_readpaths_subpaths true (init_self []) = (Ok tt, loop_indexed))
    by (vm_compute; reflexivity).
  split; [exact H|].
  exact (local_max_alignment_len_is_maximum true (init_self []) loop_indexed H).
Defined.


(** The hypothesis of [cov_mean_refuses_unknown_vertex]: the loop has no
    vertex C. *)
Lemma cov_mean_refuses_unknown_vertex_witness :
  (exists v, v ∈ [A_fwd; C_fwd; B_fwd].*1 /\ vertex_lookup v = None)
  /\ exists pre v e post,
       [A_fwd; C_fwd; B_fwd] = pre ++ (v, e) :: post
       /\ vertex_lookup v = None
       /\ Forall (fun ve => is_Some (vertex_lookup ve.1)) pre
       /\ get_cov_mean [A_fwd; C_fwd; B_fwd] None loop_self
          = (Raise (VertexNotFound v),
             set_error_log (error_log loop_self ++ [InvalidPath [A_fwd; C_fwd; B_fwd]])
               loop_self).
Proof.
  assert (H : exists v, v ∈ [A_fwd; C_fwd; B_fwd].*1 /\ vertex_lookup v = None).
  { exists "C"%string. split; [right; left|reflexivity]. }
  split; [exact H|].
  exact (cov_mean_refuses_unknown_vertex [A_fwd; C_fwd; B_fwd] None loop_self H).
Defined.

(** The hypothesis of [cov_mean_closed_form]: A is met twice on the path
    A, B, A, and the mean of the coverages 30 and 30 comes out as 20. *)
Lemma cov_mean_closed_form_witness :
  get_cov_mean [A_fwd; B_fwd; A_fwd] None loop_self = (Ok 20%Q, loop_self)
  /\ 0 < path_segment_total [A_fwd; B_fwd; A_fwd]
  /\ (20 == Qsum ((fun v => table_cov loop_self v * of_nat (vertex_len v))
                    <$> remove_dups [A_fwd; B_fwd; A_fwd].*1)
            / of_nat (path_segment_total [A_fwd; B_fwd; A_fwd]))%Q.
Proof.
  assert (H : get_cov_mean [A_fwd; B_fwd; A_fwd] None loop_self = (Ok 20%Q, loop_self))
    by (vm_compute; reflexivity).
  split; [exact H|].
  exact (cov_mean_closed_form [A_fwd; B_fwd; A_fwd] loop_self loop_self 20%Q H).
Defined.

(** The hypotheses of [sampler_counts_num_search_walks] on the loop, where
    two walks are wanted. *)
Lemma sampler_counts_num_search_walks_witness :
  components loop_self = []
  /\ components_counts loop_self = ∅
  /\ gen_heuristic_paths_uni 3 30 loop_self = (Ok (2, 2), loop_sampled)
  /\ 2 = num_search
  /\ walks_counted loop_sampled = num_search.
Proof.
  assert (H1 : components loop_self = []) by reflexivity.
  assert (H2 : components_counts loop_self = ∅) by reflexivity.
  assert (H3 : gen_heuristic_paths_uni 3 30 loop_self = (Ok (2, 2), loop_sampled))
    by (vm_compute; reflexivity).
  split; [exact H1|]. split; [exact H2|]. split; [exact H3|].
  exact (sampler_counts_num_search_walks 3 30 loop_self loop_sampled 2 2 H1 H2 H3).
Defined.

(** The hypotheses of [sampler_components_in_sync] on the loop. *)
Lemma sampler_components_in_sync_witness :
  components loop_self = []
  /\ components_counts loop_self = ∅
  /\ gen_heuristic_paths_uni 3 30 loop_self = (Ok (2, 2), loop_sampled)
  /\ components_in_sync loop_sampled.
Proof.
  assert (H1 : components loop_self = []) by reflexivity.
  assert (H2 : components_counts loop_self = ∅) by reflexivity.
  assert (H3 : gen_heuristic_paths_uni 3 30 loop_self = (Ok (2, 2), loop_sampled))
    by (vm_compute; reflexivity).
  split; [exact H1|]. split; [exact H2|]. split; [exact H3|].
  exact (sampler_components_in_sync 3 30 loop_self loop_sampled (2, 2) H1 H2 H3).
Defined.

(** The hypothesis of [traversal_without_reads_raises]: a generator that
    was not indexed. *)
Lemma traversal_without_reads_raises_witness :
  read_paths (init_self []) = []
  /\ (get_single_traversal 30 (init_self [])).1 = Raise IndexError.
Proof.
  assert (H : read_paths (init_self []) = []) by reflexivity.
  split; [exact H|].
  exact (traversal_without_reads_raises 29 (init_self []) H).
Defined.

(** [graph_extension_goes_to_a_neighbour] on the loop: from A-, the step
    returns what the recursive call returns on A-, B-. *)
Lemma graph_extension_goes_to_a_neighbour_witness :
  graph_extend (heuristic_extend_path 30) [A_rev] false 30 loop_self
  = (Ok [B_fwd; A_fwd], loop_self)
  /\ (false = true /\ [B_fwd; A_fwd] = [A_rev]
      \/ (exists s1, false = false
            /\ heuristic_extend_path 30 (reverse_path [A_rev]) true s1
               = (Ok [B_fwd; A_fwd], loop_self))
      \/ (exists ext s1,
            (exists next_name next_end,
               (next_name, next_end) ∈ next_connections_of [A_rev]
               /\ ext = [(next_name, negb next_end)])
            /\ heuristic_extend_path 30 ([A_rev] ++ ext) false s1
               = (Ok [B_fwd; A_fwd], loop_self))).
Proof.
  assert (H : graph_extend (heuristic_extend_path 30) [A_rev] false 30 loop_self
              = (Ok [B_fwd; A_fwd], loop_self)) by (vm_compute; reflexivity).
  split; [exact H|].
  exact (graph_extension_goes_to_a_neighbour (heuristic_extend_path 30) [A_rev] false 30
           loop_self [B_fwd; A_fwd] loop_self H).
Defined.

(** The hypothesis of [middle_jump_lands_on_an_indexed_read]: B+ lies
    inside the read taken backwards, and the jump goes there. *)
Lemma middle_jump_lands_on_an_indexed_read_witness :
  middle_jump (heuristic_extend_path 30) [B_fwd] 30 loop_self
  = (Ok (Some [A_rev; B_rev; A_rev]), loop_self)
  /\ exists read_id strand read_path s1,
       indexed_middle loop_self [B_fwd] read_id strand
       /\ read_paths loop_self !! read_id = Some read_path
       /\ heuristic_extend_path 30 (oriented strand read_path) false s1
          = (Ok [A_rev; B_rev; A_rev], loop_self).
Proof.
  assert (H : middle_jump (heuristic_extend_path 30) [B_fwd] 30 loop_self
              = (Ok (Some [A_rev; B_rev; A_rev]), loop_self)) by (vm_compute; reflexivity).
  split; [exact H|].
  exact (middle_jump_lands_on_an_indexed_read (heuristic_extend_path 30) [B_fwd] 30
           loop_self loop_self (Some [A_rev; B_rev; A_rev]) H).
Defined.

(** The hypothesis of [hetero_mode_appends_only_with_a_new_vertex]: the
    loop is run with [hetero_chromosome] on. *)
Lemma hetero_mode_appends_only_with_a_new_vertex_witness :
  hetero_chromosome = true
  /\ hands_over (heuristic_extend_path 30) [A_rev] false
       (fun ext => exists v, v ∈ ext.*1 /\ v ∉ [A_rev].*1)
       (graph_extend (heuristic_extend_path 30) [A_rev] false 30 loop_self)
  /\ hands_over (heuristic_extend_path 30) [A_rev] false
       (fun ext => exists v, v ∈ ext.*1 /\ v ∉ [A_rev].*1)
       (read_extend (heuristic_extend_path 30) [A_rev] false 30
          (collect_candidates 150 (starting_subpath_to_readpaths loop_self) [A_rev]
             (seq 1 1)) loop_self).
Proof.
  assert (H : hetero_chromosome = true) by reflexivity.
  split; [exact H|].
  exact (hetero_mode_appends_only_with_a_new_vertex (heuristic_extend_path 30) [A_rev]
           false 30
           (collect_candidates 150 (starting_subpath_to_readpaths loop_self) [A_rev]
              (seq 1 1)) loop_self H).
Defined.

End LoopRuns.

Section LoopReadRuns.
Import Examples RunExamples.
#[local] Existing Instance loop_assembly.
#[local] Existing Instance loop_config.
#[local] Existing Instance ScriptedRandom.random_obj.
#[local] Existing Instance StandIn.numerics.

(** [read_extension_continues_an_indexed_read] on the loop: from A-, the
    step returns what the recursive call returns on a continuation along
    the read. *)
Lemma read_extension_continues_an_indexed_read_witness :
  read_extend (heuristic_extend_path 30) [A_rev] false 30
    (collect_candidates 150 (starting_subpath_to_readpaths loop_self) [A_rev]
       (seq 1 (length [A_rev]))) loop_self
  = (Ok [A_fwd; B_fwd; A_fwd], loop_self)
  /\ (false = true /\ [A_fwd; B_fwd; A_fwd] = [A_rev]
      \/ (exists s1, false = false
            /\ heuristic_extend_path 30 (reverse_path [A_rev]) true s1
               = (Ok [A_fwd; B_fwd; A_fwd], loop_self))
      \/ (exists ext s1,
            (exists read_id strand read_path ovl_c_num k,
               1 <= ovl_c_num <= length [A_rev]
               /\ indexed_start loop_self (drop (length [A_rev] - ovl_c_num) [A_rev])
                    read_id strand
               /\ read_paths loop_self !! read_id = Some read_path
               /\ ext = take k (drop ovl_c_num (oriented strand read_path)))
            /\ heuristic_extend_path 30 ([A_rev] ++ ext) false s1
               = (Ok [A_fwd; B_fwd; A_fwd], loop_self))).
Proof.
  assert (H : read_extend (heuristic_extend_path 30) [A_rev] false 30
                (collect_candidates 150 (starting_subpath_to_readpaths loop_self) [A_rev]
                   (seq 1 (length [A_rev]))) loop_self
              = (Ok [A_fwd; B_fwd; A_fwd], loop_self)) by (vm_compute; reflexivity).
  split; [exact H|].
  exact (read_extension_continues_an_indexed_read (heuristic_extend_path 30) [A_rev]
           false 30 150 loop_self [A_fwd; B_fwd; A_fwd] loop_self H).
Defined.

End LoopReadRuns.

Section DenseRuns.
Import Examples.
#[local] Existing Instance dense_assembly.
#[local] Existing Instance dense_config.
#[local] Existing Instance ScriptedRandom.random_obj.
#[local] Existing Instance StandIn.numerics.
#[local] Open Scope string_scope.

(** The hypotheses of [search_start_offset_sound] for the walk A, A, B, B
    on the dense graph, shuffled at 0: the search stops at offset 1. *)
Lemma search_start_offset_sound_witness :
  NoDup vertex_info.*1
  /\ 0 < 2
  /\ search_start [1; 1] ["A"; "A"; "B"; "B"; "A"; "A"] 2 2
       (get_v_counts (take 2 ["A"; "A"; "B"; "B"; "A"; "A"])) (seq 0 2) (ready_self [])
     = (Ok (Some 1), ready_self [])
  /\ forall go_u, go_u < 2 ->
       get_v_counts (slice (1 + 2 * go_u) (1 + 2 * (go_u + 1))
                       ["A"; "A"; "B"; "B"; "A"; "A"]) = [1; 1].
Proof.
  assert (H1 : NoDup vertex_info.*1).
  { apply (bool_decide_unpack _). vm_compute. reflexivity. }
  assert (H2 : 0 < 2) by lia.
  assert (H3 : search_start [1; 1] ["A"; "A"; "B"; "B"; "A"; "A"] 2 2
                 (get_v_counts (take 2 ["A"; "A"; "B"; "B"; "A"; "A"])) (seq 0 2)
                 (ready_self [])
               = (Ok (Some 1), ready_self [])) by (vm_compute; reflexivity).
  split; [exact H1|]. split; [exact H2|]. split; [exact H3|].
  exact (search_start_offset_sound [1; 1] ["A"; "A"; "B"; "B"; "A"; "A"] 2 2
           (ready_self []) (ready_self []) 1 H1 H2 H3).
Defined.

End DenseRuns.

Section RecordRuns.
Import GraphAlignRecords RecordExamples.
#[local] Existing Instance decimal_builtins.
#[local] Open Scope string_scope.

(** The hypothesis of [gaf_record_needs_nonzero_align_len] on the first
    example line. *)
Lemma gaf_record_needs_nonzero_align_len_witness :
  GAFRecord_init gaf_line_1 true = Done gaf_record_1
  /\ 12 <= length gaf_line_1
  /\ GAF.align_len gaf_record_1 <> 0%Z
  /\ (exists field, gaf_line_1 !! 10 = Some field
                    /\ py_int field = Some (GAF.align_len gaf_record_1))
  /\ GAF.p_align_len gaf_record_1 = (GAF.p_end gaf_record_1 - GAF.p_start gaf_record_1)%Z
  /\ GAF.identity gaf_record_1
     = default (FFloat (inject_Z (GAF.num_match gaf_record_1)
                        / inject_Z (GAF.align_len gaf_record_1)))
               (GAF.optional_fields gaf_record_1 !! "id").
Proof.
  assert (H : GAFRecord_init gaf_line_1 true = Done gaf_record_1)
    by (vm_compute; reflexivity).
  split; [exact H|].
  exact (gaf_record_needs_nonzero_align_len gaf_line_1 true gaf_record_1 H).
Defined.

(** The hypotheses of [threshold_filters_keep_passing_records] on the
    three example records: the second one is too short. *)
Lemma threshold_filters_keep_passing_records_witness :
  length [gaf_record_1; gaf_record_2; gaf_record_3] <= 3
  /\ (forall f r, Some GAF.identity = Some f ->
        r ∈ [gaf_record_1; gaf_record_2; gaf_record_3] -> is_Some (field_number (f r)))
  /\ threshold_filters strict_options GAF.p_align_len GAF.align_len (Some GAF.identity) 3
       [gaf_record_1; gaf_record_2; gaf_record_3]
     = Done (List.filter
               (passes_thresholds strict_options GAF.p_align_len GAF.align_len
                  (Some GAF.identity))
               [gaf_record_1; gaf_record_2; gaf_record_3]).
Proof.
  assert (H1 : length [gaf_record_1; gaf_record_2; gaf_record_3] <= 3) by (simpl; lia).
  assert (H2 : forall f r, Some GAF.identity = Some f ->
             r ∈ [gaf_record_1; gaf_record_2; gaf_record_3] ->
             is_Some (field_number (f r))).
  { intros f r [= <-] Hr. apply list_elem_of_In in Hr.
    destruct Hr as [<-|[<-|[<-|[]]]]; cbn; eauto. }
  split; [exact H1|]. split; [exact H2|].
  exact (threshold_filters_keep_passing_records strict_options GAF.p_align_len
           GAF.align_len (Some GAF.identity) 3
           [gaf_record_1; gaf_record_2; gaf_record_3] H1 H2).
Defined.

(** The hypotheses of [gaf_trimming_shortens_paths_at_the_ends] on the
    three example records: the first loses its head, the third has a
    vertex outside the graph and goes. *)
Lemma gaf_trimming_shortens_paths_at_the_ends_witness :
  length [gaf_record_1; gaf_record_2; gaf_record_3] <= 3
  /\ trim_overlaps strict_options 3
       (GAFRecords [gaf_record_1; gaf_record_2; gaf_record_3])
     = Done (GAFRecords [GAF.set_path [("B", false)] gaf_record_1; gaf_record_2], false)
  /\ false = negb (trim_overlap_with_graph strict_options)
  /\ exists rs' kept,
       GAFRecords [GAF.set_path [("B", false)] gaf_record_1; gaf_record_2] = GAFRecords rs'
       /\ kept `sublist_of` [gaf_record_1; gaf_record_2; gaf_record_3]
       /\ Forall2 trimmed_from kept rs'.
Proof.
  assert (H1 : length [gaf_record_1; gaf_record_2; gaf_record_3] <= 3) by (simpl; lia).
  assert (H2 : trim_overlaps strict_options 3
                 (GAFRecords [gaf_record_1; gaf_record_2; gaf_record_3])
               = Done (GAFRecords [GAF.set_path [("B", false)] gaf_record_1; gaf_record_2],
                       false)) by (vm_compute; reflexivity).
  split; [exact H1|]. split; [exact H2|].
  exact (gaf_trimming_shortens_paths_at_the_ends strict_options 3
           [gaf_record_1; gaf_record_2; gaf_record_3]
           (GAFRecords [GAF.set_path [("B", false)] gaf_record_1; gaf_record_2]) false
           H1 H2).
Defined.

(** The hypothesis of [spa_tsv_record_invariants] on the example line. *)
Lemma spa_tsv_record_invariants_witness :
  SPATSVRecord_init spa_line = Done spa_record
  /\ 8 <= length spa_line
  /\ SPATSV.path spa_record <> []
  /\ SPATSV.path_str spa_record = spa_path_str (SPATSV.path spa_record)
  /\ SPATSV.path_align_lengths spa_record <> []
  /\ (1 <= SPATSV.align_len spa_record
      /\ SPATSV.p_align_len spa_record <= SPATSV.align_len spa_record
      /\ SPATSV.q_align_len spa_record <= SPATSV.align_len spa_record
      /\ SPATSV.p_end spa_record = SPATSV.p_start spa_record + SPATSV.p_align_len spa_record)%Z.
Proof.
  assert (H : SPATSVRecord_init spa_line = Done spa_record) by (vm_compute; reflexivity).
  split; [exact H|].
  exact (spa_tsv_record_invariants spa_line spa_record H).
Defined.

End RecordRuns.
